(** * Zit: a shallow embedding of [src/Zit.mjs]

    The repository is one JavaScript class, [Zit], that keeps file
    snapshots under their SHA-1 digest in [.zit/objects], a staging index
    in [.zit/index], and a chain of commit records reached from
    [.zit/HEAD].

    Conventions of the embedding.
    - A JavaScript string is represented by its UTF-8 encoding, a Rocq
      [string] of bytes.  This is what [fs.readFile(_, 'utf-8')],
      [fs.writeFile] and [hash.update(_, 'utf-8')] exchange with the
      outside; strict equality of well-formed strings is equality of
      their encodings.
    - The file system is a finite map from path to content, with a set
      of write-protected paths.  Reading a missing path throws, and so
      does writing a protected one.  Every [writeFile] that goes
      through is recorded in a trace, so that statements can count
      writes.
    - [console.log], [console.error] and [process.stdout.write] append to
      an output list.  The rendering of a caught exception object is
      not modelled: only the fixed message of the line is kept, and the
      colours of [chalk] are left out.
    - An [async] method is run to completion before the next one starts.
      The constructor starts [init] without awaiting it; [init] is
      modelled as a method of its own.
    - A [try]/[catch] block is a [match] on an [option]: [None] is a
      thrown exception.  [showCommitDiff], which has no [catch], gives
      an [outcome]. *)

From Stdlib Require Import ZArith String Ascii List Lia Bool.
From stdpp Require Import base option list strings gmap.


(** ** SHA-1 (FIPS 180-4), the digest behind [crypto.createHash('sha1')] *)

Module SHA1.
Local Open Scope Z_scope.

Definition w32 (x : Z) : Z := Z.land x 4294967295.

Definition rotl (n x : Z) : Z :=
  w32 (Z.lor (Z.shiftl x n) (Z.shiftr x (32 - n))).

Definition add32 (x y : Z) : Z := w32 (x + y).

Definition bytes_of_string (s : string) : list Z :=
  List.map (fun c => Z.of_N (N_of_ascii c)) (list_ascii_of_string s).

(** Big-endian bytes of [x], [n] of them. *)
Fixpoint be_bytes (n : nat) (x : Z) : list Z :=
  match n with
  | O => []
  | S n' => Z.land (Z.shiftr x (8 * Z.of_nat n')) 255 :: be_bytes n' x
  end.

(** Message followed by the bit 1, zero bits up to 448 mod 512, and the
    message length in bits on 64 bits. *)
Definition pad (msg : list Z) : list Z :=
  let l := Z.of_nat (length msg) in
  let k := Z.to_nat ((55 - l) mod 64) in
  msg ++ 128 :: repeat 0 k ++ be_bytes 8 (8 * l).

Fixpoint words_of_bytes (fuel : nat) (bs : list Z) : list Z :=
  match fuel, bs with
  | S fuel', b0 :: b1 :: b2 :: b3 :: rest =>
      (Z.shiftl b0 24 + Z.shiftl b1 16 + Z.shiftl b2 8 + b3)
        :: words_of_bytes fuel' rest
  | _, _ => []
  end.

(** The message schedule, most recent word first. *)
Fixpoint schedule (n : nat) (rev_w : list Z) : list Z :=
  match n with
  | O => rev_w
  | S n' =>
      let w := rotl 1 (Z.lxor (Z.lxor (nth 2 rev_w 0) (nth 7 rev_w 0))
                              (Z.lxor (nth 13 rev_w 0) (nth 15 rev_w 0))) in
      schedule n' (w :: rev_w)
  end.

Definition f_t (t : nat) (b c d : Z) : Z :=
  if (t <? 20)%nat then Z.lor (Z.land b c) (Z.land (Z.lxor b 4294967295) d)
  else if (t <? 40)%nat then Z.lxor (Z.lxor b c) d
  else if (t <? 60)%nat then
    Z.lor (Z.lor (Z.land b c) (Z.land b d)) (Z.land c d)
  else Z.lxor (Z.lxor b c) d.

Definition k_t (t : nat) : Z :=
  if (t <? 20)%nat then 1518500249
  else if (t <? 40)%nat then 1859775393
  else if (t <? 60)%nat then 2400959708
  else 3395469782.

Record regs := Regs { ra : Z; rb : Z; rc : Z; rd : Z; re : Z }.

Definition round (t : nat) (w : Z) (r : regs) : regs :=
  let tmp :=
    add32 (add32 (add32 (add32 (rotl 5 (ra r)) (f_t t (rb r) (rc r) (rd r)))
                        (re r)) w) (k_t t) in
  Regs tmp (ra r) (rotl 30 (rb r)) (rc r) (rd r).

Fixpoint rounds (t : nat) (ws : list Z) (r : regs) : regs :=
  match ws with
  | [] => r
  | w :: ws' => rounds (S t) ws' (round t w r)
  end.

Definition block (h : regs) (blk : list Z) : regs :=
  let ws := rev (schedule 64 (rev (words_of_bytes 16 blk))) in
  let r := rounds 0 ws h in
  Regs (add32 (ra h) (ra r)) (add32 (rb h) (rb r)) (add32 (rc h) (rc r))
       (add32 (rd h) (rd r)) (add32 (re h) (re r)).

Fixpoint blocks (fuel : nat) (h : regs) (bs : list Z) : regs :=
  match fuel with
  | O => h
  | S fuel' =>
      match bs with
      | [] => h
      | _ => blocks fuel' (block h (firstn 64 bs)) (skipn 64 bs)
      end
  end.

Definition init_regs : regs :=
  Regs 1732584193 4023233417 2562383102 271733878 3285377520.

Definition digest (msg : list Z) : list Z :=
  let p := pad msg in
  let h := blocks (length p) init_regs p in
  be_bytes 4 (ra h) ++ be_bytes 4 (rb h) ++ be_bytes 4 (rc h)
    ++ be_bytes 4 (rd h) ++ be_bytes 4 (re h).

Definition hex_digit (x : Z) : ascii :=
  if x <? 10 then ascii_of_N (Z.to_N (48 + x))
  else ascii_of_N (Z.to_N (87 + x)).

Fixpoint hex (bs : list Z) : string :=
  match bs with
  | [] => EmptyString
  | b :: bs' =>
      String (hex_digit (Z.shiftr b 4)) (String (hex_digit (Z.land b 15)) (hex bs'))
  end.

Definition sha1_hex (s : string) : string := hex (digest (bytes_of_string s)).

End SHA1.

(** ** JSON values, [JSON.stringify] and [JSON.parse]

    The fragment is the one the program writes and reads back: [null],
    booleans, strings, arrays and objects.  Outside it are the number
    literals (no record of the program holds a number), the escapes of
    surrogate code units (a UTF-8 string cannot hold one) and the
    objects with a key made of digits.  [parse] gives [None] on a text
    that is not JSON and on a text outside the fragment; what is proved
    below rests on the texts it accepts. *)

Module JSON.

#[local] Set Warnings "-register-all".

Inductive value : Type :=
| Null
| Bool (b : bool)
| Str (s : string)
| Arr (items : list value)
| Obj (fields : list (string * value)).

Definition quot : ascii := ascii_of_nat 34.
Definition bsl : ascii := ascii_of_nat 92.
Definition nl : string := String (ascii_of_nat 10) EmptyString.

Definition code (c : ascii) : N := N_of_ascii c.

Definition hex_digit (n : N) : ascii :=
  if (n <? 10)%N then ascii_of_N (48 + n) else ascii_of_N (87 + n).

Definition esc (c : ascii) : string := String bsl (String c EmptyString).

(** QuoteJSONString, one character at a time. *)
Definition quote_char (c : ascii) : string :=
  let n := code c in
  if (n =? 8)%N then esc "b"
  else if (n =? 9)%N then esc "t"
  else if (n =? 10)%N then esc "n"
  else if (n =? 12)%N then esc "f"
  else if (n =? 13)%N then esc "r"
  else if (n =? 34)%N then esc quot
  else if (n =? 92)%N then esc bsl
  else if (n <? 32)%N then
    String bsl ("u00" +:+ String (hex_digit (n / 16))
                          (String (hex_digit (n mod 16)) EmptyString))
  else String c EmptyString.

Fixpoint quote_body (s : string) : string :=
  match s with
  | EmptyString => EmptyString
  | String c r => quote_char c +:+ quote_body r
  end.

Definition quote (s : string) : string :=
  String quot (quote_body s +:+ String quot EmptyString).

Fixpoint join (sep : string) (l : list string) : string :=
  match l with
  | [] => EmptyString
  | x :: l' =>
      match l' with
      | [] => x
      | _ => x +:+ sep +:+ join sep l'
      end
  end.

Definition is_empty (s : string) : bool :=
  match s with EmptyString => true | _ => false end.

(** The text of a non-empty array or object.  With an empty [gap] the
    parts are separated by a comma; otherwise each part sits on a line
    of its own, indented by [ind] and [gap], and the closing bracket on
    a line indented by [ind]. *)
Definition wrap (gap ind opening closing : string) (parts : list string) : string :=
  let pre := if is_empty gap then EmptyString else nl +:+ ind +:+ gap in
  let post := if is_empty gap then EmptyString else nl +:+ ind in
  opening +:+ pre +:+ join ("," +:+ pre) parts +:+ post +:+ closing.

Definition colon (gap : string) : string :=
  if is_empty gap then ":" else ": ".

(** SerializeJSONProperty for the values of the fragment. *)
Fixpoint ser (gap ind : string) (v : value) {struct v} : string :=
  match v with
  | Null => "null"
  | Bool true => "true"
  | Bool false => "false"
  | Str s => quote s
  | Arr [] => "[]"
  | Arr l => wrap gap ind "[" "]" (List.map (ser gap (ind +:+ gap)) l)
  | Obj [] => "{}"
  | Obj fs =>
      wrap gap ind "{" "}"
        (List.map (fun kv => quote (fst kv) +:+ colon gap
                               +:+ ser gap (ind +:+ gap) (snd kv)) fs)
  end.

(** [JSON.stringify(v)] and [JSON.stringify(v, null, 2)]. *)
Definition stringify (v : value) : string := ser EmptyString EmptyString v.
Definition stringify2 (v : value) : string := ser "  " EmptyString v.

(** *** Parsing *)

Definition is_ws (c : ascii) : bool :=
  let n := code c in
  ((n =? 32) || (n =? 9) || (n =? 10) || (n =? 13))%N.

Fixpoint skip_ws (s : string) : string :=
  match s with
  | String c r => if is_ws c then skip_ws r else s
  | EmptyString => s
  end.

Fixpoint strip_prefix (p s : string) : option string :=
  match p, s with
  | EmptyString, _ => Some s
  | String a p', String b s' =>
      if Ascii.eqb a b then strip_prefix p' s' else None
  | _, _ => None
  end.

Definition hex_val (c : ascii) : option N :=
  let n := code c in
  if ((48 <=? n) && (n <=? 57))%N then Some (n - 48)%N
  else if ((97 <=? n) && (n <=? 102))%N then Some (n - 87)%N
  else if ((65 <=? n) && (n <=? 70))%N then Some (n - 55)%N
  else None.

(** UTF-8 encoding of a code point of the basic plane that is not a
    surrogate. *)
Definition utf8 (cp : N) : option string :=
  let ch (n : N) := ascii_of_N n in
  (if cp <? 128 then Some (String (ch cp) EmptyString)
   else if cp <? 2048 then
     Some (String (ch (192 + cp / 64)) (String (ch (128 + cp mod 64)) EmptyString))
   else if (55296 <=? cp) && (cp <? 57344) then None
   else
     Some (String (ch (224 + cp / 4096))
             (String (ch (128 + (cp / 64) mod 64))
                (String (ch (128 + cp mod 64)) EmptyString))))%N.

Definition unescape (e : ascii) : option string :=
  let one (n : nat) := Some (String (ascii_of_nat n) EmptyString) in
  if Ascii.eqb e quot then one 34
  else if Ascii.eqb e bsl then one 92
  else if Ascii.eqb e "/" then one 47
  else if Ascii.eqb e "b" then one 8
  else if Ascii.eqb e "f" then one 12
  else if Ascii.eqb e "n" then one 10
  else if Ascii.eqb e "r" then one 13
  else if Ascii.eqb e "t" then one 9
  else None.

(** The characters of a string literal, after its opening quote, and
    the text after its closing quote. *)
Fixpoint parse_chars (s : string) : option (string * string) :=
  match s with
  | EmptyString => None
  | String c r =>
      if Ascii.eqb c quot then Some (EmptyString, r)
      else if Ascii.eqb c bsl then
        match r with
        | String e r1 =>
            if Ascii.eqb e "u" then
              match r1 with
              | String h1 (String h2 (String h3 (String h4 r2))) =>
                  match hex_val h1, hex_val h2, hex_val h3, hex_val h4 with
                  | Some a, Some b, Some c', Some d =>
                      match utf8 (((a * 16 + b) * 16 + c') * 16 + d)%N,
                            parse_chars r2 with
                      | Some u, Some (t, rest) => Some (u +:+ t, rest)
                      | _, _ => None
                      end
                  | _, _, _, _ => None
                  end
              | _ => None
              end
            else
              match unescape e, parse_chars r1 with
              | Some u, Some (t, rest) => Some (u +:+ t, rest)
              | _, _ => None
              end
        | EmptyString => None
        end
      else if (code c <? 32)%N then None
      else
        match parse_chars r with
        | Some (t, rest) => Some (String c t, rest)
        | None => None
        end
  end.

(** A key made of digits only.  JavaScript lists the keys of an object
    that are array indices before its other keys, wherever they stand
    in the text; objects with such a key are left out of the fragment. *)
Fixpoint all_digits (s : string) : bool :=
  match s with
  | EmptyString => true
  | String c r => ((48 <=? code c) && (code c <=? 57))%N && all_digits r
  end.

Definition is_index_key (k : string) : bool := negb (is_empty k) && all_digits k.

(** [o[k] = v] on an object: the value is replaced where the key is,
    and a new key goes last. *)
Fixpoint set_field (k : string) (v : value) (fs : list (string * value))
  : list (string * value) :=
  match fs with
  | [] => [(k, v)]
  | (k', v') :: fs' =>
      if String.eqb k' k then (k, v) :: fs' else (k', v') :: set_field k v fs'
  end.

Definition obj_of_members (ms : list (string * value)) : value :=
  Obj (fold_left (fun acc kv => set_field (fst kv) (snd kv) acc) ms []).

Fixpoint parse_value (fuel : nat) (s : string) : option (value * string) :=
  match fuel with
  | O => None
  | S fuel' =>
      match skip_ws s with
      | EmptyString => None
      | String c r =>
          if Ascii.eqb c "n" then
            match strip_prefix "ull" r with
            | Some r' => Some (Null, r') | None => None end
          else if Ascii.eqb c "t" then
            match strip_prefix "rue" r with
            | Some r' => Some (Bool true, r') | None => None end
          else if Ascii.eqb c "f" then
            match strip_prefix "alse" r with
            | Some r' => Some (Bool false, r') | None => None end
          else if Ascii.eqb c quot then
            match parse_chars r with
            | Some (t, r') => Some (Str t, r') | None => None end
          else if Ascii.eqb c "[" then
            match strip_prefix "]" (skip_ws r) with
            | Some r' => Some (Arr [], r')
            | None =>
                match parse_items fuel' r with
                | Some (l, r') => Some (Arr l, r') | None => None end
            end
          else if Ascii.eqb c "{" then
            match strip_prefix "}" (skip_ws r) with
            | Some r' => Some (Obj [], r')
            | None =>
                match parse_members fuel' r with
                | Some (ms, r') => Some (obj_of_members ms, r') | None => None end
            end
          else None
      end
  end
with parse_items (fuel : nat) (s : string) : option (list value * string) :=
  match fuel with
  | O => None
  | S fuel' =>
      match parse_value fuel' s with
      | None => None
      | Some (v, r) =>
          match skip_ws r with
          | String c r' =>
              if Ascii.eqb c "," then
                match parse_items fuel' r' with
                | Some (l, r'') => Some (v :: l, r'') | None => None end
              else if Ascii.eqb c "]" then Some ([v], r')
              else None
          | EmptyString => None
          end
      end
  end
with parse_members (fuel : nat) (s : string)
  : option (list (string * value) * string) :=
  match fuel with
  | O => None
  | S fuel' =>
      match skip_ws s with
      | String q r =>
          if Ascii.eqb q quot then
            match parse_chars r with
            | None => None
            | Some (k, r1) =>
                match (if is_index_key k then None
                       else strip_prefix ":" (skip_ws r1)) with
                | None => None
                | Some r2 =>
                    match parse_value fuel' r2 with
                    | None => None
                    | Some (v, r3) =>
                        match skip_ws r3 with
                        | String c r4 =>
                            if Ascii.eqb c "," then
                              match parse_members fuel' r4 with
                              | Some (ms, r5) => Some ((k, v) :: ms, r5)
                              | None => None
                              end
                            else if Ascii.eqb c "}" then Some ([(k, v)], r4)
                            else None
                        | EmptyString => None
                        end
                    end
                end
            end
          else None
      | EmptyString => None
      end
  end.

(** [JSON.parse(s)]; [None] stands for the SyntaxError it throws. *)
Definition parse (s : string) : option value :=
  match parse_value (String.length s) s with
  | Some (v, rest) => if is_empty (skip_ws rest) then Some v else None
  | None => None
  end.

(** *** The texts [JSON.parse] accepts

    The grammar of JSON in full, with the number literals, the escapes
    of surrogates and the keys made of digits that [parse] leaves out:
    [is_json s] is [false] when [JSON.parse(s)] throws its SyntaxError,
    whatever the fragment. *)

Definition is_digit (c : ascii) : bool := ((48 <=? code c) && (code c <=? 57))%N.

Fixpoint skip_digits (s : string) : string :=
  match s with
  | String c r => if is_digit c then skip_digits r else s
  | EmptyString => s
  end.

(** One digit or more. *)
Definition json_digits (s : string) : option string :=
  match s with
  | String c r => if is_digit c then Some (skip_digits r) else None
  | EmptyString => None
  end.

(** The optional fraction and the optional exponent of a number. *)
Definition json_fraction (s : string) : option string :=
  match s with
  | String c r => if Ascii.eqb c "." then json_digits r else Some s
  | EmptyString => Some s
  end.

Definition json_exponent (s : string) : option string :=
  match s with
  | String c r =>
      if Ascii.eqb c "e" || Ascii.eqb c "E" then
        match r with
        | String sign r' =>
            if Ascii.eqb sign "+" || Ascii.eqb sign "-" then json_digits r'
            else json_digits r
        | EmptyString => None
        end
      else Some s
  | EmptyString => Some s
  end.

(** A number: an optional minus sign, then [0] or digits that do not
    start with [0], then the fraction and the exponent. *)
Definition json_number (s : string) : option string :=
  let unsigned (u : string) :=
    match u with
    | String c r =>
        if Ascii.eqb c "0" then
          match json_fraction r with
          | Some r' => json_exponent r'
          | None => None
          end
        else if is_digit c then
          match json_fraction (skip_digits r) with
          | Some r' => json_exponent r'
          | None => None
          end
        else None
    | EmptyString => None
    end in
  match s with
  | String c r => if Ascii.eqb c "-" then unsigned r else unsigned s
  | EmptyString => None
  end.

(** A string literal after its opening quote: the text after its
    closing quote. *)
Fixpoint json_chars (s : string) : option string :=
  match s with
  | EmptyString => None
  | String c r =>
      if Ascii.eqb c quot then Some r
      else if Ascii.eqb c bsl then
        match r with
        | String e r1 =>
            if Ascii.eqb e "u" then
              match r1 with
              | String h1 (String h2 (String h3 (String h4 r2))) =>
                  match hex_val h1, hex_val h2, hex_val h3, hex_val h4 with
                  | Some _, Some _, Some _, Some _ => json_chars r2
                  | _, _, _, _ => None
                  end
              | _ => None
              end
            else
              match unescape e with
              | Some _ => json_chars r1
              | None => None
              end
        | EmptyString => None
        end
      else if (code c <? 32)%N then None
      else json_chars r
  end.

Fixpoint json_value (fuel : nat) (s : string) : option string :=
  match fuel with
  | O => None
  | S fuel' =>
      match skip_ws s with
      | EmptyString => None
      | String c r =>
          if Ascii.eqb c "n" then strip_prefix "ull" r
          else if Ascii.eqb c "t" then strip_prefix "rue" r
          else if Ascii.eqb c "f" then strip_prefix "alse" r
          else if Ascii.eqb c quot then json_chars r
          else if Ascii.eqb c "[" then
            match strip_prefix "]" (skip_ws r) with
            | Some r' => Some r'
            | None => json_items fuel' r
            end
          else if Ascii.eqb c "{" then
            match strip_prefix "}" (skip_ws r) with
            | Some r' => Some r'
            | None => json_members fuel' r
            end
          else json_number (String c r)
      end
  end
with json_items (fuel : nat) (s : string) : option string :=
  match fuel with
  | O => None
  | S fuel' =>
      match json_value fuel' s with
      | None => None
      | Some r =>
          match skip_ws r with
          | String c r' =>
              if Ascii.eqb c "," then json_items fuel' r'
              else if Ascii.eqb c "]" then Some r'
              else None
          | EmptyString => None
          end
      end
  end
with json_members (fuel : nat) (s : string) : option string :=
  match fuel with
  | O => None
  | S fuel' =>
      match skip_ws s with
      | String q r =>
          if Ascii.eqb q quot then
            match json_chars r with
            | None => None
            | Some r1 =>
                match strip_prefix ":" (skip_ws r1) with
                | None => None
                | Some r2 =>
                    match json_value fuel' r2 with
                    | None => None
                    | Some r3 =>
                        match skip_ws r3 with
                        | String c r4 =>
                            if Ascii.eqb c "," then json_members fuel' r4
                            else if Ascii.eqb c "}" then Some r4
                            else None
                        | EmptyString => None
                        end
                    end
                end
            end
          else None
      | EmptyString => None
      end
  end.

Definition is_json (s : string) : bool :=
  match json_value (String.length s) s with
  | Some rest => is_empty (skip_ws rest)
  | None => false
  end.

(** *** Predicates of the statements about [parse] and [ser] *)

(** Objects whose keys are pairwise distinct and are no array indices,
    at every depth. *)
Inductive wf : value -> Prop :=
| wf_null : wf Null
| wf_bool b : wf (Bool b)
| wf_str s : wf (Str s)
| wf_arr l : Forall wf l -> wf (Arr l)
| wf_obj fs :
    NoDup (List.map fst fs) ->
    Forall (fun kv => is_index_key (fst kv) = false) fs ->
    Forall (fun kv => wf (snd kv)) fs -> wf (Obj fs).

Fixpoint all_ws (s : string) : bool :=
  match s with
  | EmptyString => true
  | String c r => is_ws c && all_ws r
  end.

(** A bound on the fuel [parse_value] needs to read a value back. *)
Fixpoint jsize (v : value) : nat :=
  match v with
  | Arr l => S (list_sum (List.map (fun x => S (jsize x)) l))
  | Obj fs => S (list_sum (List.map (fun kv => S (jsize (snd kv))) fs))
  | _ => 1
  end.

Definition starts_value (s : string) : bool :=
  match s with
  | String c _ =>
      Ascii.eqb c "n" || Ascii.eqb c "t" || Ascii.eqb c "f" || Ascii.eqb c quot
      || Ascii.eqb c "[" || Ascii.eqb c "{"
  | EmptyString => false
  end.

(** The round trip of one value, at any indentation and before any
    continuation. *)
Definition round_trips (v : value) : Prop :=
  forall gap ind rest fuel,
    all_ws gap = true -> all_ws ind = true -> jsize v <= fuel ->
    parse_value fuel (ser gap ind v +:+ rest) = Some (v, rest).

End JSON.

(** ** The file system and the console *)

Module FS.

(** [files]: path to content.  [readonly]: the paths a write to which
    is refused by the system.  [writes]: the paths written so far,
    oldest first.  [console]: the lines printed so far, oldest first. *)
Record state := State {
  files : gmap string string;
  readonly : gset string;
  writes : list string;
  console : list string
}.

(** [fs.readFile(p, 'utf-8')]; [None] when it throws.  The files are
    text files: the content of a path is UTF-8 text and is read as it
    is.  A file that is not UTF-8 text, whose ill-formed bytes the
    decoder of [fs.readFile] replaces by U+FFFD, is outside the
    model. *)
Definition readFile (p : string) (s : state) : option string := files s !! p.

(** [fs.writeFile(p, c)]; [None] when it throws. *)
Definition writeFile (p c : string) (s : state) : option state :=
  if decide (p ∈ readonly s) then None
  else Some (State (<[p := c]> (files s)) (readonly s) (writes s ++ [p]) (console s)).

(** [fs.writeFile(p, c, { flag: 'wx' })]: fails if the path exists. *)
Definition writeFile_wx (p c : string) (s : state) : option state :=
  match files s !! p with
  | Some _ => None
  | None => writeFile p c s
  end.

(** [fs.access(p)]: [false] when it throws. *)
Definition access (p : string) (s : state) : bool :=
  match files s !! p with Some _ => true | None => false end.

(** [console.log], [console.error] and [process.stdout.write]. *)
Definition print (line : string) (s : state) : state :=
  State (files s) (readonly s) (writes s) (console s ++ [line]).

(** [path.join(dir, name)] for a [name] that is a plain file name. *)
Definition path_join (dir name : string) : string := dir +:+ "/" +:+ name.

End FS.

(** ** [String.prototype.trim] on UTF-8 text *)

Module Trim.

Definition bytes (l : list nat) : string :=
  string_of_list_ascii (List.map ascii_of_nat l).

(** WhiteSpace and LineTerminator of ECMAScript, UTF-8 encoded: TAB, LF,
    VT, FF, CR, SP, U+00A0, U+1680, U+2000 to U+200A, U+2028, U+2029,
    U+202F, U+205F, U+3000 and U+FEFF. *)
Definition ws_tokens : list string :=
  List.map bytes
    [ [9]; [10]; [11]; [12]; [13]; [32]; [194; 160]; [225; 154; 128];
      [226; 128; 128]; [226; 128; 129]; [226; 128; 130]; [226; 128; 131];
      [226; 128; 132]; [226; 128; 133]; [226; 128; 134]; [226; 128; 135];
      [226; 128; 136]; [226; 128; 137]; [226; 128; 138];
      [226; 128; 168]; [226; 128; 169]; [226; 128; 175];
      [226; 129; 159]; [227; 128; 128]; [239; 187; 191] ].

Fixpoint srev_app (s acc : string) : string :=
  match s with
  | EmptyString => acc
  | String c r => srev_app r (String c acc)
  end.

Definition srev (s : string) : string := srev_app s EmptyString.

Fixpoint first_strip (toks : list string) (s : string) : option string :=
  match toks with
  | [] => None
  | t :: toks' =>
      match JSON.strip_prefix t s with
      | Some r => Some r
      | None => first_strip toks' s
      end
  end.

Fixpoint strip_all (fuel : nat) (toks : list string) (s : string) : string :=
  match fuel with
  | O => s
  | S fuel' =>
      match first_strip toks s with
      | Some r => strip_all fuel' toks r
      | None => s
      end
  end.

Definition trimStart (s : string) : string :=
  strip_all (String.length s) ws_tokens s.

Definition trimEnd (s : string) : string :=
  srev (strip_all (String.length s) (List.map srev ws_tokens) (srev s)).

Definition trim (s : string) : string := trimEnd (trimStart s).

(** A text made of white space only. *)
Inductive only_ws : string -> Prop :=
| only_ws_nil : only_ws EmptyString
| only_ws_tok t s : In t ws_tokens -> only_ws s -> only_ws (t +:+ s).

(** A text that starts, or ends, with a white space character. *)
Definition starts_ws (s : string) : Prop :=
  exists t r, In t ws_tokens /\ s = t +:+ r.

Definition ends_ws (s : string) : Prop :=
  exists t r, In t ws_tokens /\ s = r +:+ t.

(** A concatenation of tokens of [toks]. *)
Inductive tok_concat (toks : list string) : string -> Prop :=
| tok_concat_nil : tok_concat toks EmptyString
| tok_concat_cons t s : In t toks -> tok_concat toks s -> tok_concat toks (t +:+ s).

Definition hex_char (c : ascii) : bool :=
  let n := JSON.code c in
  ((48 <=? n) && (n <=? 57) || (97 <=? n) && (n <=? 102))%N.

Fixpoint all_hex (s : string) : bool :=
  match s with
  | EmptyString => true
  | String c r => hex_char c && all_hex r
  end.

End Trim.

(** ** The line diff of the [diff] package *)

Module Diff.

Inductive kind := Equal | Inserted | Removed.

Record part := Part { pkind : kind; text : string }.

Definition kind_eqb (a b : kind) : bool :=
  match a, b with
  | Equal, Equal | Inserted, Inserted | Removed, Removed => true
  | _, _ => false
  end.

(** The lines of a text, each with its line feed; the last one may
    have none. *)
Fixpoint tokenize (s : string) : list string :=
  match s with
  | EmptyString => []
  | String c r =>
      if Ascii.eqb c (ascii_of_nat 10) then String c EmptyString :: tokenize r
      else
        match tokenize r with
        | [] => [String c EmptyString]
        | t :: ts => String c t :: ts
        end
  end.

(** Length of a longest common subsequence. *)
Fixpoint lcs_len (a : list string) : list string -> nat :=
  fix inner (b : list string) : nat :=
    match a, b with
    | x :: a', y :: b' =>
        if String.eqb x y then S (lcs_len a' b')
        else Nat.max (lcs_len a' b) (inner b')
    | _, _ => O
    end.

(** An edit script that keeps a longest common subsequence. *)
Fixpoint script (a : list string) : list string -> list part :=
  fix inner (b : list string) : list part :=
    match a, b with
    | [], _ => List.map (Part Inserted) b
    | _, [] => List.map (Part Removed) a
    | x :: a', y :: b' =>
        if String.eqb x y then Part Equal x :: script a' b'
        else if (lcs_len a b' <=? lcs_len a' b)%nat
             then Part Removed x :: script a' b
             else Part Inserted y :: inner b'
    end.

(** Neighbouring parts of one kind become one part. *)
Fixpoint merge (ps : list part) : list part :=
  match ps with
  | [] => []
  | p :: ps' =>
      match merge ps' with
      | q :: qs =>
          if kind_eqb (pkind p) (pkind q)
          then Part (pkind p) (text p +:+ text q) :: qs
          else p :: q :: qs
      | [] => [p]
      end
  end.

(** Modelled from the spec: [diffLines] is imported from the [diff]
    package and is not part of the sources.  Section 4.4 describes it
    as a line-oriented edit script from [oldText] to [newText], built
    on a longest common subsequence of lines, whose parts are equal,
    inserted or removed, with unchanged runs reported as equal. *)
Definition diffLines (oldText newText : string) : list part :=
  merge (script (tokenize oldText) (tokenize newText)).

(** The text of the parts whose kind satisfies [keep], in order. *)
Fixpoint concat_parts (keep : kind -> bool) (ps : list part) : string :=
  match ps with
  | [] => EmptyString
  | p :: ps' =>
      if keep (pkind p) then text p +:+ concat_parts keep ps'
      else concat_parts keep ps'
  end.

Fixpoint sconcat (l : list string) : string :=
  match l with
  | [] => EmptyString
  | x :: l' => x +:+ sconcat l'
  end.

Definition in_new (k : kind) : bool :=
  match k with Removed => false | _ => true end.

Definition in_old (k : kind) : bool :=
  match k with Inserted => false | _ => true end.

End Diff.

(** ** The class [Zit] *)

Module Zit.
Import FS.
Import JSON.

(** [new Zit()] is always built with the default [repoPath = "."]. *)
Definition repoPath : string := ".zit".
Definition objectsPath : string := path_join repoPath "objects".
Definition headPath : string := path_join repoPath "HEAD".
Definition indexPath : string := path_join repoPath "index".

(** *** JavaScript values read from parsed JSON

    A JavaScript value is [None] for [undefined] and [Some v] for a JSON
    value. *)

Fixpoint lookup_field (k : string) (fs : list (string * value)) : option value :=
  match fs with
  | [] => None
  | (k', v) :: fs' => if String.eqb k' k then Some v else lookup_field k fs'
  end.

(** [v.k] for one of the keys the program reads ([path], [hash],
    [files], [parent], [timeStamp], [message]); the outer [None] is the
    TypeError of a read on [null]. *)
Definition get_prop (k : string) (v : value) : option (option value) :=
  match v with
  | Null => None
  | Obj fs => Some (lookup_field k fs)
  | _ => Some None
  end.

Definition truthy (v : option value) : bool :=
  match v with
  | None | Some Null => false
  | Some (Bool b) => b
  | Some (Str s) => negb (is_empty s)
  | Some (Arr _) | Some (Obj _) => true
  end.

(** [a === b] where the two sides never are the same object. *)
Definition strict_eq (a b : option value) : bool :=
  match a, b with
  | None, None => true
  | Some Null, Some Null => true
  | Some (Bool x), Some (Bool y) => Bool.eqb x y
  | Some (Str x), Some (Str y) => String.eqb x y
  | _, _ => false
  end.

(** The text a template literal gives for a value: an array is the
    texts of its elements between commas, [null] among them giving the
    empty text. *)
Fixpoint text_of (v : value) : string :=
  match v with
  | Null => "null"
  | Bool true => "true"
  | Bool false => "false"
  | Str s => s
  | Arr l =>
      join "," (List.map (fun e => match e with
                                   | Null => EmptyString
                                   | _ => text_of e
                                   end) l)
  | Obj _ => "[object Object]"
  end.

Definition to_string (v : option value) : string :=
  match v with
  | None => "undefined"
  | Some v => text_of v
  end.

(** [items.find(entry => entry.path === target)]: the position of the
    first match.  The outer [None] is the TypeError of [entry.path] on a
    [null] entry met before any match. *)
Fixpoint find_path (target : option value) (items : list value) (i : nat)
  : option (option nat) :=
  match items with
  | [] => Some None
  | e :: items' =>
      match get_prop "path" e with
      | None => None
      | Some p =>
          if strict_eq p target then Some (Some i)
          else find_path target items' (S i)
      end
  end.

(** [e.hash = h] *)
Definition set_hash (h : string) (e : value) : value :=
  match e with
  | Obj fs => Obj (set_field "hash" (Str h) fs)
  | _ => e
  end.

Definition entry (p h : string) : value := Obj [("path", Str p); ("hash", Str h)].

Definition empty_index : string := stringify2 (Arr []).

(** *** Methods *)

(** [init()].  The directory of the objects needs no model: a path of
    the map has its directories. *)
Definition init (s : state) : state :=
  match writeFile_wx headPath EmptyString s with
  | None => print "Already initialized .zit folder" s
  | Some s1 =>
      match writeFile_wx indexPath empty_index s1 with
      | None => print "Already initialized .zit folder" s1
      | Some s2 => s2
      end
  end.

Definition hashObject (content : string) : string := SHA1.sha1_hex content.

Definition updateStagingArea (filePath fileHash : string) (s : state) : state :=
  let failed := print "Failed to update staging area:" in
  match readFile indexPath s with
  | None => failed s
  | Some indexRaw =>
      match parse indexRaw with
      | Some (Arr index) =>
          match find_path (Some (Str filePath)) index 0 with
          | None => failed s
          | Some existingIndex =>
              let index' :=
                match existingIndex with
                | Some i => alter (set_hash fileHash) i index
                | None => index ++ [entry filePath fileHash]
                end in
              match writeFile indexPath (stringify2 (Arr index')) s with
              | Some s' => s'
              | None => failed s
              end
          end
      | _ => failed s
      end
  end.

(** [add(fileToBeAdded)].  The first component is the value the call
    returns: the method has no [return], so it is [undefined] whatever
    happens. *)
Definition add (fileToBeAdded : string) (s : state) : option value * state :=
  (None,
   let failed := print ("Failed to add file " +:+ fileToBeAdded +:+ ":") in
   match readFile fileToBeAdded s with
   | None => failed s
   | Some fileData =>
       let fileHash := hashObject fileData in
       let s1 := print ("File Hash: " +:+ fileHash) s in
       let newHashedObjectPath := path_join objectsPath fileHash in
       let stored :=
         if access newHashedObjectPath s1
         then Some (print "File content already stored." s1)
         else writeFile newHashedObjectPath fileData s1 in
       match stored with
       | None => failed s1
       | Some s2 =>
           let s3 := updateStagingArea fileToBeAdded fileHash s2 in
           print ("Added " +:+ fileToBeAdded +:+ " to staging area.") s3
       end
   end).

Definition getCurrentHead (s : state) : option string :=
  match readFile headPath s with
  | None => None
  | Some head =>
      let t := Trim.trim head in
      if is_empty t then None else Some t
  end.

(** [index.length === 0] on a parsed index. *)
Inductive length_test := LengthThrows | LengthZero | LengthOther.

Definition length_is_zero (index : value) : length_test :=
  match index with
  | Null => LengthThrows
  | Arr [] => LengthZero
  | Str EmptyString => LengthZero
  | _ => LengthOther
  end.

Definition commitData (now message : string) (index : value)
    (parentCommit : option string) : value :=
  Obj [("timeStamp", Str now); ("message", Str message); ("files", index);
       ("parent", match parentCommit with Some h => Str h | None => Null end)].

(** [commit(message)], with the value of [new Date().toISOString()] as
    the parameter [now].  The first component is the value the call
    returns: every path of the method returns [undefined]. *)
Definition commit (message now : string) (s : state) : option value * state :=
  let failed := print "Failed to create commit:" in
  match readFile indexPath s with
  | None => (None, failed s)
  | Some indexRaw =>
      match parse indexRaw with
      | None => (None, failed s)
      | Some index =>
          match length_is_zero index with
          | LengthThrows => (None, failed s)
          | LengthZero => (None, print "Nothing to commit. Staging area is empty." s)
          | LengthOther =>
              let parentCommit := getCurrentHead s in
              let data := commitData now message index parentCommit in
              let commitHash := hashObject (stringify data) in
              let commitPath := path_join objectsPath commitHash in
              match writeFile commitPath (stringify2 data) s with
              | None => (None, failed s)
              | Some s1 =>
                  match writeFile headPath commitHash s1 with
                  | None => (None, failed s1)
                  | Some s2 =>
                      match writeFile indexPath empty_index s2 with
                      | None => (None, failed s2)
                      | Some s3 =>
                          (None,
                           print ("Commit successfully created: " +:+ commitHash) s3)
                      end
                  end
              end
          end
      end
  end.

Definition getCommitData (commitHash : string) (s : state) : option string * state :=
  match readFile (path_join objectsPath commitHash) s with
  | Some data => (Some data, s)
  | None =>
      (None, print ("Failed to read the commit data for " +:+ commitHash +:+ ":") s)
  end.

Definition getFileContent (fileHash : string) (s : state) : option string * state :=
  match readFile (path_join objectsPath fileHash) s with
  | Some content => (Some content, s)
  | None =>
      (None, print ("Failed to read file content for hash " +:+ fileHash +:+ ":") s)
  end.

(** [!raw] for a string or [null]. *)
Definition missing (raw : option string) : bool :=
  match raw with
  | None => true
  | Some r => is_empty r
  end.

(** The [while] loop of [log]; [None] when [fuel] iterations do not
    finish it. *)
Fixpoint log_loop (fuel : nat) (currentCommitHash : option value) (s : state)
  : option state :=
  let failed := print "Failed to display log:" in
  if truthy currentCommitHash then
    match fuel with
    | O => None
    | S fuel' =>
        match currentCommitHash with
        | Some (Str h) =>
            let (commitDataRaw, s1) := getCommitData h s in
            if missing commitDataRaw
            then Some (print ("Commit data for " +:+ h +:+ " not found.") s1)
            else
              match parse (default EmptyString commitDataRaw) with
              | None => Some (failed s1)
              | Some data =>
                  let s2 := print ("-------------------" +:+ nl) s1 in
                  let s3 := print ("Commit: " +:+ h) s2 in
                  match get_prop "timeStamp" data, get_prop "message" data,
                        get_prop "parent" data with
                  | Some ts, Some msg, Some parent =>
                      let s4 := print ("Date: " +:+ to_string ts) s3 in
                      let s5 := print (nl +:+ String (ascii_of_nat 9) (to_string msg) +:+ nl) s4 in
                      log_loop fuel' parent s5
                  | _, _, _ => Some (failed s3)
                  end
              end
        | _ => Some (failed s)
        end
    end
  else Some s.

Definition log (fuel : nat) (s : state) : option state :=
  match getCurrentHead s with
  | None => Some (print "No commits yet." s)
  | Some h => log_loop fuel (Some (Str h)) s
  end.

(** A call that returns, or an exception that leaves the method. *)
Inductive outcome := Returned (s : state) | Threw (s : state).

(** The result is [None] for [undefined], [Some None] for [null]. *)
Definition getParentFileContent (parentCommitData : value) (filePath : option value)
    (s : state) : option (option (option string) * state) :=
  match get_prop "files" parentCommitData with
  | Some (Some (Arr files)) =>
      match find_path filePath files 0 with
      | None => None
      | Some None => Some (None, s)
      | Some (Some i) =>
          let parentFile := files !! i in
          if truthy parentFile then
            match parentFile with
            | Some (Obj fs) =>
                match lookup_field "hash" fs with
                | Some (Str h) =>
                    let (c, s') := getFileContent h s in Some (Some c, s')
                | _ => None
                end
            | _ => None
            end
          else Some (None, s)
      end
  | _ => None
  end.

Definition render (p : Diff.part) : string :=
  match Diff.pkind p with
  | Diff.Inserted => "++" +:+ Diff.text p
  | Diff.Removed => "--" +:+ Diff.text p
  | Diff.Equal => Diff.text p
  end.

(** The body of the [for] loop of [showCommitDiff]. *)
Definition show_file (data file : value) (s : state) : outcome :=
  match get_prop "path" file, get_prop "hash" file with
  | Some fpath, Some (Some (Str h)) =>
      let s1 := print (nl +:+ "File: " +:+ to_string fpath) s in
      let (fileContent, s2) := getFileContent h s1 in
      let s3 := print (default "null" fileContent) s2 in
      match get_prop "parent" data with
      | None => Threw s3
      | Some parent =>
          if truthy parent then
            match parent with
            | Some (Str ph) =>
                let (parentCommitDataRaw, s4) := getCommitData ph s3 in
                if missing parentCommitDataRaw
                then Returned (print "Parent commit data not found" s4)
                else
                  match parse (default EmptyString parentCommitDataRaw) with
                  | None => Threw s4
                  | Some parentCommitData =>
                      match getParentFileContent parentCommitData fpath s4 with
                      | None => Threw s4
                      | Some (None, s5) =>
                          Returned (print "New file in this commit" s5)
                      | Some (Some (Some parentFileContent), s5) =>
                          match fileContent with
                          | Some content =>
                              let diff := Diff.diffLines parentFileContent content in
                              let s6 := fold_left (fun st p => print (render p) st) diff s5 in
                              Returned (print EmptyString s6)
                          | None => Threw s5
                          end
                      | Some (Some None, s5) => Threw s5
                      end
                  end
            | _ => Threw s3
            end
          else Returned (print "First commit" s3)
      end
  | Some fpath, _ => Threw (print (nl +:+ "File: " +:+ to_string fpath) s)
  | None, _ => Threw s
  end.

Fixpoint show_files (data : value) (files : list value) (s : state) : outcome :=
  match files with
  | [] => Returned s
  | file :: files' =>
      match show_file data file s with
      | Returned s' => show_files data files' s'
      | Threw s' => Threw s'
      end
  end.

Definition showCommitDiff (commitHash : string) (s : state) : outcome :=
  let (commitDataRaw, s1) := getCommitData commitHash s in
  if missing commitDataRaw then Returned (print "Commit not found" s1)
  else
    match parse (default EmptyString commitDataRaw) with
    | None => Threw s1
    | Some data =>
        let s2 := print "Changes in the commit are:" s1 in
        match get_prop "files" data with
        | Some (Some (Arr files)) => show_files data files s2
        | Some (Some (Str EmptyString)) => Returned s2
        | Some (Some (Str _)) => Threw (print (nl +:+ "File: undefined") s2)
        | _ => Threw s2
        end
    end.

(** *** Vocabulary of the statements *)

Definition obj_path (h : string) : string := path_join objectsPath h.

Definition success_line (commitHash : string) : string :=
  "Commit successfully created: " +:+ commitHash.

(** The ways [commit] ends before a write of its own went through: the
    index file cannot be read, its text is not JSON, it holds [null]
    (the read of [length] throws), it holds an empty list or an empty
    text ([length] is 0), or the write of the commit object is
    refused. *)
Inductive stops_early (message now : string) (s : state) : Prop :=
| index_missing : readFile indexPath s = None -> stops_early message now s
| index_not_json raw :
    readFile indexPath s = Some raw -> is_json raw = false ->
    stops_early message now s
| index_null raw :
    readFile indexPath s = Some raw -> parse raw = Some Null ->
    stops_early message now s
| index_no_entry raw :
    readFile indexPath s = Some raw -> parse raw = Some (Arr []) ->
    stops_early message now s
| index_no_text raw :
    readFile indexPath s = Some raw -> parse raw = Some (Str EmptyString) ->
    stops_early message now s
| object_refused raw index :
    readFile indexPath s = Some raw -> parse raw = Some index ->
    obj_path (hashObject (stringify (commitData now message index (getCurrentHead s))))
      ∈ readonly s ->
    stops_early message now s.

Definition is_object_path (p : string) : bool :=
  String.prefix (objectsPath +:+ "/") p.

(** The number of files in [.zit/objects]. *)
Definition object_count (s : state) : nat :=
  size (filter (fun kv : string * string => is_object_path (fst kv) = true) (files s)).

(** A line that reports the digest computed by [add]. *)
Definition hash_line (d : string) : string := "File Hash: " +:+ d.

Definition is_hash_line (l : string) : bool := String.prefix "File Hash: " l.

(** A staging entry as the pair of its path and its digest. *)
Definition entry_of (e : string * string) : value := entry (fst e) (snd e).

(** The index file holds the entries [es], in this order. *)
Definition index_holds (s : state) (es : list (string * string)) : Prop :=
  exists raw,
    readFile indexPath s = Some raw /\ parse raw = Some (Arr (List.map entry_of es)).

(** The staging operation in the words of the specification: if an
    entry for the path exists its digest is replaced, otherwise a new
    entry is appended. *)
Fixpoint stage_spec (p d : string) (es : list (string * string))
  : list (string * string) :=
  match es with
  | [] => [(p, d)]
  | (p', d') :: es' =>
      if String.eqb p' p then (p, d) :: es' else (p', d') :: stage_spec p d es'
  end.

Definition stage_all (ops : list (string * string)) (s : state) : state :=
  fold_left (fun st op => updateStagingArea (fst op) (snd op) st) ops s.

Definition adds (fs : list string) (s : state) : state :=
  fold_left (fun st f => snd (add f st)) fs s.

(** *** Runs of the commands *)

(** A command of the tool, or an edit of the working tree by the user
    between two commands. *)
Inductive op :=
| Add (file : string)
| Commit (message now : string)
| Edit (path content : string).

Definition is_repo_path (p : string) : bool := String.prefix (repoPath +:+ "/") p.

(** The user leaves the files of [.zit] alone. *)
Definition step (o : op) (s : state) : state :=
  match o with
  | Add f => snd (add f s)
  | Commit m t => snd (commit m t s)
  | Edit p c =>
      if is_repo_path p then s
      else State (<[p := c]> (files s)) (readonly s) (writes s) (console s)
  end.

Fixpoint run (ops : list op) (s : state) : state :=
  match ops with
  | [] => s
  | o :: ops' => run ops' (step o s)
  end.

(** The id of the commit that [commit] creates in [s], when the call
    goes through: when it prints the success line of that id. *)
Definition committed (message now : string) (s : state) : option string :=
  match readFile indexPath s with
  | Some raw =>
      match parse raw with
      | Some index =>
          let id := hashObject (stringify (commitData now message index (getCurrentHead s))) in
          if decide (console (snd (commit message now s)) = console s ++ [success_line id])
          then Some id else None
      | None => None
      end
  | None => None
  end.

(** The ids of the successful commits of a run, oldest first. *)
Fixpoint run_ids (ops : list op) (s : state) : list string :=
  match ops with
  | [] => []
  | o :: ops' =>
      match o with
      | Commit m t =>
          match committed m t s with
          | Some id => id :: run_ids ops' (step o s)
          | None => run_ids ops' (step o s)
          end
      | _ => run_ids ops' (step o s)
      end
  end.

(** [recs] is the chain of commits from the pointer [h]: each record is
    stored under its id, the id is the digest of the compact
    serialization of the record, and the parent of a record is the id
    of the next one, or [null] for the last one. *)
Fixpoint is_chain (s : state) (h : option string) (recs : list (string * value)) : Prop :=
  match recs with
  | [] => h = None
  | (id, data) :: rest =>
      let parent := head (List.map fst rest) in
      h = Some id
      /\ readFile (obj_path id) s = Some (stringify2 data)
      /\ id = hashObject (stringify data)
      /\ (exists now message index,
             wf index /\ data = commitData now message index parent)
      /\ get_prop "parent" data = Some (Some (from_option Str Null parent))
      /\ is_chain s parent rest
  end.

(** The lines [log] prints for one commit. *)
Definition log_lines (rec : string * value) : list string :=
  [ "-------------------" +:+ nl;
    "Commit: " +:+ fst rec;
    "Date: " +:+ to_string (default None (get_prop "timeStamp" (snd rec)));
    nl +:+ String (ascii_of_nat 9)
             (to_string (default None (get_prop "message" (snd rec)))) +:+ nl ].

(** *** Commits as [showCommitDiff] reads them *)

(** The digest staged for a path, if any. *)
Fixpoint digest_at (p : string) (es : list (string * string)) : option string :=
  match es with
  | [] => None
  | (p', h) :: es' => if String.eqb p' p then Some h else digest_at p es'
  end.

(** Every entry of [es] names an object of the store. *)
Definition stored_entries (s : state) (es : list (string * string)) : Prop :=
  forall p h, In (p, h) es -> exists content, readFile (obj_path h) s = Some content.

(** [data] is a record written by [commit] for the entries [es]; the
    objects of its entries are in the store and so is its parent
    commit, when it has one: [parent] is the id of the parent and the
    entries of its record. *)
Definition stored_commit (s : state) (data : value) (es : list (string * string))
    (parent : option (string * list (string * string))) : Prop :=
  (exists now message,
      data = commitData now message (Arr (List.map entry_of es)) (fst <$> parent))
  /\ stored_entries s es
  /\ match parent with
     | None => True
     | Some (ph, pes) =>
         is_empty ph = false
         /\ stored_entries s pes
         /\ exists pnow pmessage pparent,
              readFile (obj_path ph) s
              = Some (stringify2 (commitData pnow pmessage (Arr (List.map entry_of pes)) pparent))
     end.

(** The parent of the first record of a chain, as [stored_commit]
    takes it: the id of the next record and its entries. *)
Definition parent_info (rest : list (string * value))
    (ess : list (list (string * string))) : option (string * list (string * string)) :=
  match rest, ess with
  | (ph, _) :: _, pes :: _ => Some (ph, pes)
  | _, _ => None
  end.

(** Every record of the chain [recs] is a stored commit; [ess] gives
    the entries of each. *)
Fixpoint history (s : state) (recs : list (string * value))
    (ess : list (list (string * string))) : Prop :=
  match recs, ess with
  | [], [] => True
  | (id, data) :: rest, es :: ess' =>
      stored_commit s data es (parent_info rest ess') /\ history s rest ess'
  | _, _ => False
  end.

(** A working tree in which no repository was initialized. *)
Definition fresh (w : state) : Prop :=
  readFile headPath w = None /\ readFile indexPath w = None /\ readonly w = ∅.

(** The state a call of [showCommitDiff] leaves, however it ends. *)
Definition state_of (o : outcome) : state :=
  match o with
  | Returned s => s
  | Threw s => s
  end.

(** [s'] is [s] with more lines printed, and nothing else changed. *)
Definition printed (s s' : state) : Prop :=
  files s' = files s /\ readonly s' = readonly s /\ writes s' = writes s
  /\ exists lines, console s' = console s ++ lines.

(** The line [add] prints when it gives up. *)
Definition add_failure_line (fileToBeAdded : string) : string :=
  "Failed to add file " +:+ fileToBeAdded +:+ ":".

End Zit.

(** ** A small repository, used to run the model *)

Module Scenario.
Import FS.
Import Zit.

(** A working tree with two files and no [.zit] directory. *)
Definition worktree : state :=
  State {[ "a.txt" := "hello"; "b.txt" := "new" ]} ∅ [] [].

Definition t1 : string := "2024-01-01T00:00:00.000Z".
Definition t2 : string := "2024-01-02T00:00:00.000Z".

Definition s_init : state := init worktree.
Definition s_staged : state := snd (add "a.txt" s_init).
Definition s_first : state := snd (commit "first" t1 s_staged).

(** The same files, with a write-protected path. *)
Definition protect (p : string) (s : state) : state :=
  State (files s) {[ p ]} (writes s) (console s).

(** The user edits a file of the working tree. *)
Definition edit (p c : string) (s : state) : state :=
  State (<[p := c]> (files s)) (readonly s) (writes s) (console s).

(** The record of the first commit. *)
Definition first_record : JSON.value :=
  commitData t1 "first"
    (JSON.Arr [entry "a.txt" "aaf4c61ddcc5e8a2dabede0f3b482cd9aea9434d"]) None.

(** Two commits, with an edit of [a.txt] and a new file between them. *)
Definition two_commits : list op :=
  [ Add "a.txt"; Commit "first" t1; Edit "a.txt" "hello world";
    Add "a.txt"; Add "b.txt"; Commit "second" t2 ].

Definition s_second : state := run two_commits s_init.

End Scenario.
(** The three test vectors of the standard's appendix and of RFC 3174. *)
Example sha1_abc :
  SHA1.sha1_hex "abc" = "a9993e364706816aba3e25717850c26c9cd0d89d".
Proof. vm_compute. reflexivity. Qed.

Example sha1_empty :
  SHA1.sha1_hex "" = "da39a3ee5e6b4b0d3255bfef95601890afd80709".
Proof. vm_compute. reflexivity. Qed.

Example sha1_two_blocks :
  SHA1.sha1_hex "abcdbcdecdefdefgefghfghighijhijkijkljklmklmnlmnomnopnopq"
  = "84983e441c3bd26ebaae4aa1f95129e5e54670f1".
Proof. vm_compute. reflexivity. Qed.


(** * Facts *)

#[local] Arguments String.append !_ _ : simpl nomatch.
#[local] Set Warnings "-register-all".

(** ** [JSON.parse] reads back what [JSON.stringify] writes *)

Module JSONFacts.
Import JSON.

Lemma sapp_assoc (s t u : string) : (s +:+ t) +:+ u = s +:+ (t +:+ u).
Proof. induction s as [|c s IH]; simpl; [reflexivity | now rewrite IH]. Qed.

Lemma sapp_nil_r (s : string) : s +:+ EmptyString = s.
Proof. induction s as [|c s IH]; simpl; [reflexivity | now rewrite IH]. Qed.

Lemma slength_app (s t : string) :
  String.length (s +:+ t) = String.length s + String.length t.
Proof. induction s as [|c s IH]; simpl; [reflexivity | now rewrite IH]. Qed.

Lemma all_ws_app (s t : string) :
  all_ws s = true -> all_ws t = true -> all_ws (s +:+ t) = true.
Proof.
  induction s as [|c s IH]; simpl; [tauto|].
  intros [Hc Hs]%andb_true_iff Ht. rewrite Hc. simpl. auto.
Qed.

Lemma skip_ws_app (w s : string) :
  all_ws w = true -> skip_ws (w +:+ s) = skip_ws s.
Proof.
  induction w as [|c w IH]; simpl; [reflexivity|].
  intros [Hc Hw]%andb_true_iff. rewrite Hc. auto.
Qed.


Ltac eval_quote_char :=
  match goal with
  | |- context [quote_char ?c] =>
      let q := eval vm_compute in (quote_char c) in
      change (quote_char c) with q
  end.

Lemma parse_chars_quote_char (c : ascii) (t : string) :
  parse_chars (quote_char c +:+ t)
  = match parse_chars t with
    | Some (u, rest) => Some (String c u, rest)
    | None => None
    end.
Proof.
  destruct c as [[] [] [] [] [] [] [] []]; eval_quote_char; simpl;
    destruct (parse_chars t) as [[u r]|]; reflexivity.
Qed.

Lemma parse_chars_quote_body (s rest : string) :
  parse_chars (quote_body s +:+ String quot rest) = Some (s, rest).
Proof.
  induction s as [|c s IH]; [reflexivity|].
  simpl. rewrite sapp_assoc, parse_chars_quote_char, IH. reflexivity.
Qed.

(** An induction principle that reaches the values nested in arrays and
    objects. *)
Lemma value_nested_ind (P : value -> Prop) :
  P Null -> (forall b, P (Bool b)) -> (forall s, P (Str s)) ->
  (forall l, Forall P l -> P (Arr l)) ->
  (forall fs, Forall (fun kv => P (snd kv)) fs -> P (Obj fs)) ->
  forall v, P v.
Proof.
  intros HNull HBool HStr HArr HObj. fix IH 1. intros [|b|s|l|fs].
  - exact HNull.
  - apply HBool.
  - apply HStr.
  - apply HArr. induction l as [|x l IHl]; constructor; [apply IH | exact IHl].
  - apply HObj. induction fs as [|[k x] fs IHfs]; constructor; [apply IH | exact IHfs].
Qed.

Lemma ser_starts gap ind v rest : starts_value (ser gap ind v +:+ rest) = true.
Proof.
  destruct v as [|[]|s|[|x l]|[|kv fs]]; try reflexivity;
    simpl; unfold wrap; reflexivity.
Qed.

Lemma starts_value_inv s :
  starts_value s = true ->
  skip_ws s = s /\ strip_prefix "]" s = None /\ strip_prefix "}" s = None.
Proof.
  destruct s as [|c r]; [discriminate|]. simpl.
  destruct c as [[] [] [] [] [] [] [] []]; try discriminate; intros _; repeat split; reflexivity.
Qed.


Lemma parse_value_ws fuel w s :
  all_ws w = true -> parse_value fuel (w +:+ s) = parse_value fuel s.
Proof.
  intros Hw. destruct fuel; [reflexivity|]. simpl. now rewrite skip_ws_app.
Qed.

Lemma join_one sep x : join sep [x] = x.
Proof. reflexivity. Qed.

Lemma join_cons sep x y l : join sep (x :: y :: l) = x +:+ sep +:+ join sep (y :: l).
Proof. reflexivity. Qed.

Lemma parse_items_join (l : list value) :
  l <> [] -> Forall round_trips l ->
  forall gap ind pre post rest fuel,
    all_ws gap = true -> all_ws ind = true ->
    all_ws pre = true -> all_ws post = true ->
    list_sum (List.map (fun x => S (jsize x)) l) <= fuel ->
    parse_items fuel
      (pre +:+ join ("," +:+ pre) (List.map (ser gap ind) l) +:+ post +:+ "]" +:+ rest)
    = Some (l, rest).
Proof.
  induction l as [|x l IH]; [congruence|].
  intros _ HF gap ind pre post rest fuel Hgap Hind Hpre Hpost Hfuel.
  inversion HF as [|? ? Hx Hl]; subst.
  simpl in Hfuel. destruct fuel as [|fuel]; [lia|].
  cbn [parse_items]. rewrite parse_value_ws by assumption.
  destruct l as [|y l'].
  - simpl. rewrite (Hx gap ind _ fuel Hgap Hind) by lia.
    rewrite skip_ws_app by assumption. reflexivity.
  - cbn [List.map]. rewrite join_cons.
    specialize (IH ltac:(congruence) Hl gap ind pre post rest fuel Hgap Hind Hpre Hpost
                  ltac:(simpl in *; lia)).
    cbn [List.map] in IH.
    remember (join ("," +:+ pre) (ser gap ind y :: List.map (ser gap ind) l')) as J.
    rewrite !sapp_assoc.
    rewrite (Hx gap ind _ fuel Hgap Hind) by lia.
    simpl in IH |- *. rewrite IH. reflexivity.
Qed.

Lemma set_field_fresh (k : string) (v : value) (fs : list (string * value)) :
  k ∉ List.map fst fs -> set_field k v fs = fs ++ [(k, v)].
Proof.
  induction fs as [|[k' v'] fs IH]; simpl; [reflexivity|].
  intros [Hne Hk]%not_elem_of_cons. destruct (String.eqb_spec k' k) as [->|_].
  - congruence.
  - now rewrite IH.
Qed.

Lemma fold_set_field (ms acc : list (string * value)) :
  NoDup (List.map fst (acc ++ ms)) ->
  fold_left (fun a kv => set_field (fst kv) (snd kv) a) ms acc = acc ++ ms.
Proof.
  revert acc. induction ms as [|[k v] ms IH]; intros acc Hnd; simpl.
  - now rewrite app_nil_r.
  - rewrite set_field_fresh.
    + rewrite IH; rewrite <- app_assoc; [reflexivity | exact Hnd].
    + rewrite map_app in Hnd. simpl in Hnd.
      apply NoDup_app in Hnd as (_ & Hdisj & _).
      intros Hin. apply (Hdisj k Hin). left.
Qed.

Lemma obj_of_members_nodup (ms : list (string * value)) :
  NoDup (List.map fst ms) -> obj_of_members ms = Obj ms.
Proof.
  intros Hnd. unfold obj_of_members. now rewrite (fold_set_field ms []).
Qed.

Lemma quote_app (k R : string) :
  quote k +:+ R = String quot (quote_body k +:+ String quot R).
Proof. unfold quote. simpl. now rewrite sapp_assoc. Qed.

Lemma parse_members_quote fuel k R :
  is_index_key k = false ->
  parse_members (S fuel) (quote k +:+ R)
  = match strip_prefix ":" (skip_ws R) with
    | None => None
    | Some r2 =>
        match parse_value fuel r2 with
        | None => None
        | Some (v, r3) =>
            match skip_ws r3 with
            | String c r4 =>
                if Ascii.eqb c ","
                then match parse_members fuel r4 with
                     | Some (ms, r5) => Some ((k, v) :: ms, r5)
                     | None => None
                     end
                else if Ascii.eqb c "}" then Some ([(k, v)], r4) else None
            | EmptyString => None
            end
        end
    end.
Proof.
  intros Hk. rewrite quote_app. cbn [parse_members].
  change (skip_ws (String quot ?x)) with (String quot x).
  cbv iota beta. rewrite Ascii.eqb_refl, parse_chars_quote_body, Hk. reflexivity.
Qed.

Lemma parse_colon_value fuel gap ind v R :
  round_trips v -> all_ws gap = true -> all_ws ind = true -> jsize v <= fuel ->
  exists r2,
    strip_prefix ":" (skip_ws (colon gap +:+ ser gap ind v +:+ R)) = Some r2
    /\ parse_value fuel r2 = Some (v, R).
Proof.
  intros Hv Hgap Hind Hfuel. unfold colon. destruct (is_empty gap); simpl.
  - eexists; split; [reflexivity|]. now apply Hv.
  - eexists; split; [reflexivity|].
    etransitivity; [exact (parse_value_ws fuel " " _ eq_refl)|]. now apply Hv.
Qed.

Lemma parse_members_join (fs : list (string * value)) :
  fs <> [] -> Forall (fun kv => round_trips (snd kv)) fs ->
  Forall (fun kv => is_index_key (fst kv) = false) fs ->
  forall gap ind pre post rest fuel,
    all_ws gap = true -> all_ws ind = true ->
    all_ws pre = true -> all_ws post = true ->
    list_sum (List.map (fun kv => S (jsize (snd kv))) fs) <= fuel ->
    parse_members fuel
      (pre +:+ join ("," +:+ pre)
                 (List.map (fun kv => quote (fst kv) +:+ colon gap
                                        +:+ ser gap ind (snd kv)) fs)
           +:+ post +:+ "}" +:+ rest)
    = Some (fs, rest).
Proof.
  induction fs as [|[k v] fs IH]; [congruence|].
  intros _ HF HK gap ind pre post rest fuel Hgap Hind Hpre Hpost Hfuel.
  inversion HF as [|? ? Hx Hl]; subst. simpl in Hx.
  inversion HK as [|? ? Hk Hks]; subst. simpl in Hk.
  simpl in Hfuel. destruct fuel as [|fuel]; [lia|].
  assert (Hws : forall s, parse_members (S fuel) (pre +:+ s) = parse_members (S fuel) s).
  { intros s. cbn [parse_members]. now rewrite skip_ws_app. }
  rewrite Hws. clear Hws.
  destruct fs as [|kv' fs'].
  - cbn [List.map fst snd]. rewrite join_one, !sapp_assoc, parse_members_quote by exact Hk.
    destruct (parse_colon_value fuel gap ind v (post +:+ "}" +:+ rest))
      as (r2 & -> & ->); [assumption..|lia|].
    rewrite skip_ws_app by assumption. reflexivity.
  - cbn [List.map fst snd]. rewrite join_cons.
    specialize (IH ltac:(congruence) Hl Hks gap ind pre post rest fuel Hgap Hind Hpre Hpost
                  ltac:(simpl in *; lia)).
    cbn [List.map] in IH.
    remember (join ("," +:+ pre) _) as J.
    rewrite !sapp_assoc, parse_members_quote by exact Hk.
    destruct (parse_colon_value fuel gap ind v ("," +:+ pre +:+ J +:+ post +:+ "}" +:+ rest))
      as (r2 & -> & ->); [assumption..|lia|].
    simpl in IH |- *. rewrite IH. reflexivity.
Qed.

Lemma parse_value_quot fuel r :
  parse_value (S fuel) (String quot r)
  = match parse_chars r with
    | Some (t, r') => Some (Str t, r')
    | None => None
    end.
Proof. reflexivity. Qed.

Lemma parse_value_arr fuel r :
  parse_value (S fuel) (String "[" r)
  = match strip_prefix "]" (skip_ws r) with
    | Some r' => Some (Arr [], r')
    | None =>
        match parse_items fuel r with
        | Some (l, r') => Some (Arr l, r')
        | None => None
        end
    end.
Proof. reflexivity. Qed.

Lemma parse_value_obj fuel r :
  parse_value (S fuel) (String "{" r)
  = match strip_prefix "}" (skip_ws r) with
    | Some r' => Some (Obj [], r')
    | None =>
        match parse_members fuel r with
        | Some (ms, r') => Some (obj_of_members ms, r')
        | None => None
        end
    end.
Proof. reflexivity. Qed.

Lemma wrap_ws gap ind :
  all_ws gap = true -> all_ws ind = true ->
  all_ws (if is_empty gap then EmptyString else nl +:+ ind +:+ gap) = true
  /\ all_ws (if is_empty gap then EmptyString else nl +:+ ind) = true.
Proof.
  intros Hgap Hind. destruct (is_empty gap); simpl; [tauto|].
  split; [now apply all_ws_app | assumption].
Qed.

Lemma join_starts sep (f : value -> string) x l R :
  (forall R', starts_value (f x +:+ R') = true) ->
  starts_value (join sep (List.map f (x :: l)) +:+ R) = true.
Proof.
  intros Hf. destruct l as [|y l]; cbn [List.map].
  - rewrite join_one. apply Hf.
  - rewrite join_cons, sapp_assoc. apply Hf.
Qed.

Theorem parse_ser (v : value) : wf v -> round_trips v.
Proof.
  induction v as [| b | s | l IH | fs IH] using value_nested_ind;
    intros Hwf gap ind rest fuel Hgap Hind Hfuel;
    (destruct fuel as [|fuel]; [simpl in Hfuel; lia|]).
  - reflexivity.
  - destruct b; reflexivity.
  - cbn [ser]. rewrite quote_app, parse_value_quot, parse_chars_quote_body. reflexivity.
  - inversion Hwf as [| | | ? Hl |]; subst.
    destruct l as [|x l]; [reflexivity|].
    assert (Hround_trips : Forall round_trips (x :: l)).
    { clear -IH Hl. induction Hl; inversion IH; subst; constructor; auto. }
    change (ser gap ind (Arr (x :: l)))
      with (wrap gap ind "[" "]" (List.map (ser gap (ind +:+ gap)) (x :: l))).
    unfold wrap. destruct (wrap_ws gap ind Hgap Hind) as [Hpre Hpost].
    set (pre := if is_empty gap then EmptyString else nl +:+ ind +:+ gap) in *.
    set (post := if is_empty gap then EmptyString else nl +:+ ind) in *.
    rewrite !sapp_assoc.
    change ("[" +:+ ?x) with (String "[" x). rewrite parse_value_arr.
    rewrite skip_ws_app by assumption.
    destruct (starts_value_inv _ (join_starts ("," +:+ pre) (ser gap (ind +:+ gap)) x l
                (post +:+ "]" +:+ rest) (ser_starts gap (ind +:+ gap) x)))
      as (-> & -> & _).
    rewrite (parse_items_join (x :: l) ltac:(congruence) Hround_trips gap (ind +:+ gap)
               pre post rest fuel Hgap (all_ws_app _ _ Hind Hgap) Hpre Hpost
               ltac:(simpl in Hfuel |- *; lia)).
    reflexivity.
  - inversion Hwf as [| | | | ? Hnd Hkeys Hl]; subst.
    destruct fs as [|[k v] fs]; [reflexivity|].
    assert (Hround_trips : Forall (fun kv => round_trips (snd kv)) ((k, v) :: fs)).
    { clear -IH Hl. induction Hl; inversion IH; subst; constructor; auto. }
    change (ser gap ind (Obj ((k, v) :: fs)))
      with (wrap gap ind "{" "}"
              (List.map (fun kv => quote (fst kv) +:+ colon gap
                                     +:+ ser gap (ind +:+ gap) (snd kv)) ((k, v) :: fs))).
    unfold wrap. destruct (wrap_ws gap ind Hgap Hind) as [Hpre Hpost].
    set (pre := if is_empty gap then EmptyString else nl +:+ ind +:+ gap) in *.
    set (post := if is_empty gap then EmptyString else nl +:+ ind) in *.
    rewrite !sapp_assoc.
    change ("{" +:+ ?x) with (String "{" x). rewrite parse_value_obj.
    rewrite skip_ws_app by assumption.
    assert (Hst : strip_prefix "}"
              (skip_ws (join ("," +:+ pre)
                 (List.map (fun kv => quote (fst kv) +:+ colon gap
                                        +:+ ser gap (ind +:+ gap) (snd kv)) ((k, v) :: fs))
                 +:+ post +:+ "}" +:+ rest)) = None).
    { destruct fs as [|kv' fs']; cbn [List.map fst snd].
      - rewrite join_one, !sapp_assoc, quote_app. reflexivity.
      - rewrite join_cons, !sapp_assoc, quote_app. reflexivity. }
    rewrite Hst.
    rewrite (parse_members_join ((k, v) :: fs) ltac:(congruence) Hround_trips Hkeys gap (ind +:+ gap)
               pre post rest fuel Hgap (all_ws_app _ _ Hind Hgap) Hpre Hpost
               ltac:(simpl in Hfuel |- *; lia)).
    now rewrite obj_of_members_nodup.
Qed.

Lemma join_length {A} (sep : string) (g : A -> nat) (f : A -> string) (l : list A) :
  1 <= String.length sep ->
  Forall (fun x => g x <= String.length (f x)) l ->
  list_sum (List.map (fun x => S (g x)) l) <= S (String.length (join sep (List.map f l))).
Proof.
  intros Hsep HF. induction HF as [|x l Hx Hl IH]; [simpl; lia|].
  destruct l as [|y l'].
  - simpl. lia.
  - cbn [List.map] in *. rewrite join_cons, !slength_app.
    change (list_sum (S (g x) :: ?r)) with (S (g x) + list_sum r). lia.
Qed.

Lemma jsize_le (v : value) gap ind : jsize v <= String.length (ser gap ind v).
Proof.
  revert ind.
  induction v as [| b | s | l IH | fs IH] using value_nested_ind; intros ind.
  - simpl. lia.
  - destruct b; simpl; lia.
  - simpl. lia.
  - destruct l as [|x l]; [simpl; lia|].
    change (ser gap ind (Arr (x :: l)))
      with (wrap gap ind "[" "]" (List.map (ser gap (ind +:+ gap)) (x :: l))).
    unfold wrap. rewrite !slength_app. cbn [jsize].
    pose proof (join_length
      ("," +:+ (if is_empty gap then EmptyString else nl +:+ ind +:+ gap))
      jsize (ser gap (ind +:+ gap)) (x :: l) ltac:(simpl; lia)) as HJ.
    assert (Forall (fun x => jsize x <= String.length (ser gap (ind +:+ gap) x)) (x :: l))
      as HF by (eapply Forall_impl; [exact IH | intros ? H; apply H]).
    specialize (HJ HF).
    set (J := String.length (join _ _)) in *. set (sum := list_sum _) in *.
    simpl. lia.
  - destruct fs as [|kv fs]; [simpl; lia|].
    change (ser gap ind (Obj (kv :: fs)))
      with (wrap gap ind "{" "}"
              (List.map (fun kv => quote (fst kv) +:+ colon gap
                                     +:+ ser gap (ind +:+ gap) (snd kv)) (kv :: fs))).
    unfold wrap. rewrite !slength_app. cbn [jsize].
    pose proof (join_length
      ("," +:+ (if is_empty gap then EmptyString else nl +:+ ind +:+ gap))
      (fun kv => jsize (snd kv))
      (fun kv => quote (fst kv) +:+ colon gap +:+ ser gap (ind +:+ gap) (snd kv))
      (kv :: fs) ltac:(simpl; lia)) as HJ.
    assert (Forall (fun kv : string * value => jsize (snd kv)
              <= String.length (quote (fst kv) +:+ colon gap
                                  +:+ ser gap (ind +:+ gap) (snd kv))) (kv :: fs)) as HF.
    { eapply Forall_impl; [exact IH|]. intros ? H. simpl. rewrite !slength_app.
      specialize (H (ind +:+ gap)). lia. }
    specialize (HJ HF).
    set (J := String.length (join _ _)) in *. set (sum := list_sum _) in *.
    simpl. lia.
Qed.

(** [JSON.parse] inverts [JSON.stringify], with or without indentation. *)
Theorem parse_ser_top (v : value) (gap : string) :
  wf v -> all_ws gap = true -> parse (ser gap EmptyString v) = Some v.
Proof.
  intros Hwf Hgap. unfold parse.
  rewrite <- (sapp_nil_r (ser gap EmptyString v)) at 2.
  rewrite (parse_ser v Hwf gap EmptyString EmptyString _ Hgap eq_refl (jsize_le v gap _)).
  reflexivity.
Qed.

Corollary parse_stringify (v : value) : wf v -> parse (stringify v) = Some v.
Proof. intros H. now apply parse_ser_top. Qed.

Corollary parse_stringify2 (v : value) : wf v -> parse (stringify2 v) = Some v.
Proof. intros H. now apply parse_ser_top. Qed.

Lemma set_field_keys (k : string) (v : value) (fs : list (string * value)) :
  NoDup (List.map fst fs) -> NoDup (List.map fst (set_field k v fs)).
Proof.
  induction fs as [|[k' v'] fs IH]; simpl.
  - intros _. apply NoDup_singleton.
  - intros [Hk Hnd]%NoDup_cons. destruct (String.eqb_spec k' k) as [->|Hne]; simpl.
    + now apply NoDup_cons.
    + apply NoDup_cons. split; [|auto].
      clear -Hk Hne. induction fs as [|[k2 v2] fs IH]; simpl in *.
      * rewrite list_elem_of_singleton. congruence.
      * apply not_elem_of_cons in Hk as [? ?].
        destruct (String.eqb_spec k2 k); simpl; apply not_elem_of_cons; auto.
Qed.

Lemma set_field_Forall (P : string * value -> Prop) k v (fs : list (string * value)) :
  P (k, v) -> Forall P fs -> Forall P (set_field k v fs).
Proof.
  intros Hv. induction 1 as [|[k' v'] fs Hx Hfs IH]; simpl.
  - now constructor.
  - destruct (String.eqb k' k); constructor; auto.
Qed.

Lemma obj_of_members_wf (ms : list (string * value)) :
  Forall (fun kv => is_index_key (fst kv) = false /\ wf (snd kv)) ms ->
  wf (obj_of_members ms).
Proof.
  intros HF. unfold obj_of_members.
  assert (H : forall acc,
    NoDup (List.map fst acc) ->
    Forall (fun kv => is_index_key (fst kv) = false /\ wf (snd kv)) acc ->
    let r := fold_left (fun a kv => set_field (fst kv) (snd kv) a) ms acc in
    NoDup (List.map fst r)
    /\ Forall (fun kv => is_index_key (fst kv) = false /\ wf (snd kv)) r).
  { induction HF as [|[k v] ms Hv Hms IH]; intros acc Hnd Hacc; simpl; [tauto|].
    apply IH; [now apply set_field_keys | now apply set_field_Forall]. }
  destruct (H [] (NoDup_nil_2) (Forall_nil_2 _)) as [Hnd Hall].
  constructor; [exact Hnd | |]; eapply Forall_impl; try exact Hall; cbn; tauto.
Qed.

Lemma parse_value_wf (fuel : nat) :
  (forall s v r, parse_value fuel s = Some (v, r) -> wf v)
  /\ (forall s l r, parse_items fuel s = Some (l, r) -> Forall wf l)
  /\ (forall s ms r, parse_members fuel s = Some (ms, r) ->
        Forall (fun kv => is_index_key (fst kv) = false /\ wf (snd kv)) ms).
Proof.
  induction fuel as [|fuel (IHv & IHi & IHm)]; [repeat split; discriminate|].
  repeat split.
  - intros s v r. cbn [parse_value]. intros H.
    repeat case_match; simplify_eq;
      first [ apply obj_of_members_wf; eauto
            | constructor; simpl; first [ eauto; fail | constructor ] ].
  - intros s l r. cbn [parse_items]. intros H.
    repeat case_match; simplify_eq; constructor; eauto.
  - intros s ms r. cbn [parse_members]. intros H.
    repeat case_match; simplify_eq; constructor; simpl; eauto.
Qed.

Theorem parse_wf (s : string) (v : value) : parse s = Some v -> wf v.
Proof.
  unfold parse. intros H. repeat case_match; simplify_eq.
  eapply (proj1 (parse_value_wf _)); eassumption.
Qed.

(** *** [parse] accepts JSON texts only *)

Lemma json_chars_of_parse_chars (n : nat) :
  forall s t rest,
    String.length s <= n -> parse_chars s = Some (t, rest) -> json_chars s = Some rest.
Proof.
  induction n as [|n IH]; intros s t rest Hn.
  - destruct s; [discriminate | cbn in Hn; lia].
  - destruct s as [|c r]; [discriminate|]. cbn [parse_chars json_chars].
    destruct (Ascii.eqb c quot); [congruence|].
    destruct (Ascii.eqb c bsl).
    + destruct r as [|e r1]; [discriminate|].
      destruct (Ascii.eqb e "u").
      * destruct r1 as [|h1 [|h2 [|h3 [|h4 r2]]]]; try discriminate.
        destruct (hex_val h1), (hex_val h2), (hex_val h3), (hex_val h4); try discriminate.
        destruct (utf8 _); [|discriminate].
        destruct (parse_chars r2) as [[t' rest']|] eqn:E; [|discriminate].
        intros [= _ <-]. apply (IH r2 t' rest'); [cbn in Hn; lia | exact E].
      * destruct (unescape e); [|discriminate].
        destruct (parse_chars r1) as [[t' rest']|] eqn:E; [|discriminate].
        intros [= _ <-]. apply (IH r1 t' rest'); [cbn in Hn; lia | exact E].
    + destruct (code c <? 32)%N; [discriminate|].
      destruct (parse_chars r) as [[t' rest']|] eqn:E; [|discriminate].
      intros [= _ <-]. apply (IH r t' rest'); [cbn in Hn; lia | exact E].
Qed.

Lemma json_of_parse (fuel : nat) :
  (forall s v rest, parse_value fuel s = Some (v, rest) -> json_value fuel s = Some rest)
  /\ (forall s l rest, parse_items fuel s = Some (l, rest) -> json_items fuel s = Some rest)
  /\ (forall s ms rest,
        parse_members fuel s = Some (ms, rest) -> json_members fuel s = Some rest).
Proof.
  induction fuel as [|fuel (IHv & IHi & IHm)]; [split_and!; discriminate|].
  split_and!.
  - intros s v rest. cbn [parse_value json_value].
    destruct (skip_ws s) as [|c r]; [discriminate|].
    destruct (Ascii.eqb c "n");
      [destruct (strip_prefix "ull" r); [congruence | discriminate]|].
    destruct (Ascii.eqb c "t");
      [destruct (strip_prefix "rue" r); [congruence | discriminate]|].
    destruct (Ascii.eqb c "f");
      [destruct (strip_prefix "alse" r); [congruence | discriminate]|].
    destruct (Ascii.eqb c quot).
    { destruct (parse_chars r) as [[t r']|] eqn:E; [|discriminate].
      intros [= _ <-]. exact (json_chars_of_parse_chars _ r t r' (le_n _) E). }
    destruct (Ascii.eqb c "[").
    { destruct (strip_prefix "]" (skip_ws r)); [congruence|].
      destruct (parse_items fuel r) as [[l r']|] eqn:E; [|discriminate].
      intros [= _ <-]. exact (IHi _ _ _ E). }
    destruct (Ascii.eqb c "{"); [|discriminate].
    destruct (strip_prefix "}" (skip_ws r)); [congruence|].
    destruct (parse_members fuel r) as [[ms r']|] eqn:E; [|discriminate].
    intros [= _ <-]. exact (IHm _ _ _ E).
  - intros s l rest. cbn [parse_items json_items].
    destruct (parse_value fuel s) as [[v r]|] eqn:E; [|discriminate].
    rewrite (IHv _ _ _ E).
    destruct (skip_ws r) as [|c r']; [discriminate|].
    destruct (Ascii.eqb c ",").
    { destruct (parse_items fuel r') as [[l' r'']|] eqn:E'; [|discriminate].
      intros [= _ <-]. exact (IHi _ _ _ E'). }
    destruct (Ascii.eqb c "]"); [congruence | discriminate].
  - intros s ms rest. cbn [parse_members json_members].
    destruct (skip_ws s) as [|q r]; [discriminate|].
    destruct (Ascii.eqb q quot); [|discriminate].
    destruct (parse_chars r) as [[k r1]|] eqn:Ek; [|discriminate].
    rewrite (json_chars_of_parse_chars _ r k r1 (le_n _) Ek).
    destruct (is_index_key k); [discriminate|].
    destruct (strip_prefix ":" (skip_ws r1)) as [r2|]; [|discriminate].
    destruct (parse_value fuel r2) as [[v r3]|] eqn:Ev; [|discriminate].
    rewrite (IHv _ _ _ Ev).
    destruct (skip_ws r3) as [|c r4]; [discriminate|].
    destruct (Ascii.eqb c ",").
    { destruct (parse_members fuel r4) as [[ms' r5]|] eqn:E'; [|discriminate].
      intros [= _ <-]. exact (IHm _ _ _ E'). }
    destruct (Ascii.eqb c "}"); [congruence | discriminate].
Qed.

(** What [parse] accepts is JSON: a text that is not JSON has no
    parse. *)
Lemma parse_is_json (s : string) (v : value) : parse s = Some v -> is_json s = true.
Proof.
  unfold parse, is_json.
  destruct (parse_value (String.length s) s) as [[v' rest]|] eqn:E; [|discriminate].
  rewrite (proj1 (json_of_parse _) _ _ _ E).
  destruct (is_empty (skip_ws rest)); [reflexivity | discriminate].
Qed.

Lemma not_json_no_parse (s : string) : is_json s = false -> parse s = None.
Proof.
  intros H. destruct (parse s) as [v|] eqn:E; [|reflexivity].
  rewrite (parse_is_json s v E) in H. discriminate.
Qed.

Example is_json_numbers :
  is_json "[1, -0.5e+3, {}]" = true /\ parse "[1, -0.5e+3, {}]" = None
  /\ is_json "[01]" = false /\ is_json "[1,]" = false /\ is_json "" = false
  /\ is_json "{'a': 1}" = false /\ is_json "nul" = false.
Proof. vm_compute. repeat split; reflexivity. Qed.

End JSONFacts.

(** ** The reconstruction laws of the line diff *)

Module DiffFacts.
Import Diff.
Import JSONFacts.

Lemma tokenize_concat (s : string) : sconcat (tokenize s) = s.
Proof.
  induction s as [|c s IH]; [reflexivity|].
  cbn [tokenize]. destruct (Ascii.eqb c (ascii_of_nat 10)).
  - cbn [sconcat]. rewrite IH. reflexivity.
  - destruct (tokenize s) as [|t ts]; cbn [sconcat] in *.
    + now rewrite <- IH.
    + now rewrite <- IH.
Qed.

Lemma concat_inserted keep (b : list string) :
  concat_parts keep (List.map (Part Inserted) b)
  = if keep Inserted then sconcat b else EmptyString.
Proof.
  induction b as [|y b IH]; simpl; [now destruct (keep Inserted)|].
  rewrite IH. now destruct (keep Inserted).
Qed.

Lemma concat_removed keep (a : list string) :
  concat_parts keep (List.map (Part Removed) a)
  = if keep Removed then sconcat a else EmptyString.
Proof.
  induction a as [|x a IH]; simpl; [now destruct (keep Removed)|].
  rewrite IH. now destruct (keep Removed).
Qed.

Lemma script_cons (x y : string) (a b : list string) :
  script (x :: a) (y :: b)
  = if String.eqb x y then Part Equal x :: script a b
    else if (lcs_len (x :: a) b <=? lcs_len a (y :: b))%nat
         then Part Removed x :: script a (y :: b)
         else Part Inserted y :: script (x :: a) b.
Proof. reflexivity. Qed.

Lemma script_nil_r (a : list string) : script a [] = List.map (Part Removed) a.
Proof. destruct a; reflexivity. Qed.

Lemma script_concat (a b : list string) :
  concat_parts in_new (script a b) = sconcat b
  /\ concat_parts in_old (script a b) = sconcat a.
Proof.
  revert b. induction a as [|x a IHa]; intros b.
  - cbn [script]. destruct b; rewrite !concat_inserted; now split.
  - induction b as [|y b IHb]; [rewrite script_nil_r, !concat_removed; now split|].
    rewrite script_cons. destruct (IHa b) as [Hn Ho], (IHa (y :: b)) as [Hn' Ho'].
    destruct IHb as [Hn'' Ho''].
    destruct (String.eqb_spec x y) as [->|Hne];
      [|destruct (lcs_len (x :: a) b <=? lcs_len a (y :: b))%nat];
      cbn [concat_parts pkind text in_new in_old sconcat] in *; split; congruence.
Qed.

Lemma merge_concat keep (ps : list part) :
  concat_parts keep (merge ps) = concat_parts keep ps.
Proof.
  induction ps as [|p ps IH]; [reflexivity|].
  cbn [merge]. destruct (merge ps) as [|q qs] eqn:Hm.
  - simpl in *. now rewrite <- IH.
  - cbn [concat_parts] in IH |- *. rewrite <- IH.
    destruct (kind_eqb (pkind p) (pkind q)) eqn:Hk.
    + assert (pkind q = pkind p) as ->
        by (destruct (pkind p), (pkind q); simpl in Hk; congruence).
      cbn [concat_parts pkind text]. destruct (keep (pkind p)); [|reflexivity].
      now rewrite sapp_assoc.
    + reflexivity.
Qed.

(** C8: for all texts [oldText] and [newText], the equal and inserted
    parts of [diffLines oldText newText], concatenated in order, are
    [newText], and the equal and removed parts are [oldText]. *)
Theorem diffLines_reconstructs (oldText newText : string) :
  concat_parts in_new (diffLines oldText newText) = newText
  /\ concat_parts in_old (diffLines oldText newText) = oldText.
Proof.
  unfold diffLines. rewrite !merge_concat.
  destruct (script_concat (tokenize oldText) (tokenize newText)) as [-> ->].
  now rewrite !tokenize_concat.
Qed.

End DiffFacts.

(** ** [trim] and the digests *)

Module TrimFacts.
Import Trim.
Import JSONFacts.

Lemma strip_prefix_app (t s r : string) :
  JSON.strip_prefix t s = Some r -> s = t +:+ r.
Proof.
  revert s. induction t as [|a t IH]; intros s; simpl.
  - congruence.
  - destruct s as [|b s]; [discriminate|].
    destruct (Ascii.eqb_spec a b) as [->|]; [|discriminate].
    intros H. now rewrite (IH _ H).
Qed.

Lemma first_strip_app (toks : list string) (s r : string) :
  first_strip toks s = Some r -> exists t, In t toks /\ s = t +:+ r.
Proof.
  induction toks as [|t toks IH]; simpl; [discriminate|].
  destruct (JSON.strip_prefix t s) as [r'|] eqn:E.
  - intros [= ->]. exists t. split; [now left | now apply strip_prefix_app].
  - intros H. destruct (IH H) as (t' & Hin & ->). exists t'. split; [now right | reflexivity].
Qed.

Lemma strip_all_split (fuel : nat) (toks : list string) (s : string) :
  exists w, tok_concat toks w /\ s = w +:+ strip_all fuel toks s.
Proof.
  revert s. induction fuel as [|fuel IH]; intros s; simpl.
  - exists EmptyString. split; [constructor | reflexivity].
  - destruct (first_strip toks s) as [r|] eqn:E.
    + destruct (first_strip_app _ _ _ E) as (t & Hin & ->).
      destruct (IH r) as (w & Hw & Hr).
      exists (t +:+ w). split; [now constructor|].
      rewrite sapp_assoc. now rewrite <- Hr.
    + exists EmptyString. split; [constructor | reflexivity].
Qed.

Lemma first_strip_token (t s : string) :
  In t ws_tokens -> first_strip ws_tokens (t +:+ s) = Some s.
Proof.
  intros Hin. simpl in Hin.
  repeat (destruct Hin as [<-|Hin]; [reflexivity|]). contradiction.
Qed.

Lemma token_length (t : string) : In t ws_tokens -> 1 <= String.length t.
Proof.
  intros Hin. simpl in Hin.
  repeat (destruct Hin as [<-|Hin]; [simpl; lia|]). contradiction.
Qed.

Lemma strip_all_only_ws (s : string) :
  only_ws s -> forall fuel, String.length s <= fuel -> strip_all fuel ws_tokens s = EmptyString.
Proof.
  induction 1 as [|t s Hin Hs IH]; intros fuel Hfuel.
  - destruct fuel; reflexivity.
  - rewrite slength_app in Hfuel. pose proof (token_length t Hin).
    destruct fuel as [|fuel]; [lia|]. cbn [strip_all].
    rewrite (first_strip_token t s Hin). apply IH. lia.
Qed.

Lemma only_ws_app (a b : string) : only_ws a -> only_ws b -> only_ws (a +:+ b).
Proof.
  induction 1 as [|t s Hin Hs IH]; intros Hb; [exact Hb|].
  rewrite sapp_assoc. constructor; auto.
Qed.

Lemma srev_app_spec (s acc : string) : srev_app s acc = srev s +:+ acc.
Proof.
  unfold srev. revert acc. induction s as [|c s IH]; intros acc; simpl; [reflexivity|].
  rewrite IH, (IH (String c EmptyString)), sapp_assoc. reflexivity.
Qed.

Lemma srev_app_distr (a b : string) : srev (a +:+ b) = srev b +:+ srev a.
Proof.
  induction a as [|c a IH]; simpl.
  - now rewrite sapp_nil_r.
  - unfold srev in *. simpl. rewrite !(srev_app_spec _ (String c EmptyString)).
    unfold srev. now rewrite IH, sapp_assoc.
Qed.

Lemma srev_involutive (s : string) : srev (srev s) = s.
Proof.
  induction s as [|c s IH]; [reflexivity|].
  unfold srev at 2. simpl. rewrite srev_app_spec, srev_app_distr, IH. reflexivity.
Qed.

Lemma token_srev (t : string) :
  In t (List.map srev ws_tokens) -> In (srev t) ws_tokens.
Proof.
  intros Hin. apply in_map_iff in Hin as (t' & <- & Hin).
  now rewrite srev_involutive.
Qed.

Lemma tok_concat_srev (w : string) :
  tok_concat (List.map srev ws_tokens) w -> only_ws (srev w).
Proof.
  induction 1 as [|t s Hin Hs IH]; [constructor|].
  rewrite srev_app_distr. apply only_ws_app; [exact IH|].
  rewrite <- (sapp_nil_r (srev t)). constructor; [now apply token_srev | constructor].
Qed.

Lemma tok_concat_only_ws (w : string) : tok_concat ws_tokens w -> only_ws w.
Proof. induction 1; now constructor. Qed.

Lemma srev_empty (s : string) : srev s = EmptyString -> s = EmptyString.
Proof. intros H. rewrite <- (srev_involutive s), H. reflexivity. Qed.

(** [trim] gives the empty text exactly on the texts of white space. *)
Theorem trim_empty_iff (s : string) : trim s = EmptyString <-> only_ws s.
Proof.
  split.
  - unfold trim, trimStart, trimEnd. intros H.
    destruct (strip_all_split (String.length s) ws_tokens s) as (w & Hw & Hs).
    set (u := strip_all (String.length s) ws_tokens s) in *.
    apply srev_empty in H.
    destruct (strip_all_split (String.length u) (List.map srev ws_tokens) (srev u))
      as (w' & Hw' & Hu).
    rewrite H, sapp_nil_r in Hu.
    rewrite Hs. apply only_ws_app; [now apply tok_concat_only_ws|].
    rewrite <- (srev_involutive u), Hu. now apply tok_concat_srev.
  - intros H. unfold trim, trimStart.
    rewrite (strip_all_only_ws s H _ (le_n _)). reflexivity.
Qed.

Lemma first_strip_hex (c : ascii) (r : string) :
  hex_char c = true ->
  first_strip ws_tokens (String c r) = None
  /\ first_strip (List.map srev ws_tokens) (String c r) = None.
Proof.
  destruct c as [[] [] [] [] [] [] [] []]; try discriminate; intros _; split; reflexivity.
Qed.

Lemma strip_all_hex (fuel : nat) (s : string) :
  all_hex s = true ->
  strip_all fuel ws_tokens s = s /\ strip_all fuel (List.map srev ws_tokens) s = s.
Proof.
  intros H. destruct fuel; [now split|]. destruct s as [|c r]; [now split|].
  simpl in H. apply andb_true_iff in H as [Hc _].
  destruct (first_strip_hex c r Hc) as [H1 H2].
  cbn [strip_all]. now rewrite H1, H2.
Qed.

Lemma all_hex_app (a b : string) : all_hex (a +:+ b) = all_hex a && all_hex b.
Proof. induction a as [|c a IH]; simpl; [reflexivity|]. now rewrite IH, andb_assoc. Qed.

Lemma all_hex_srev (s : string) : all_hex (srev s) = all_hex s.
Proof.
  induction s as [|c s IH]; [reflexivity|].
  unfold srev. simpl. rewrite srev_app_spec, all_hex_app, IH. simpl.
  rewrite andb_true_r. apply andb_comm.
Qed.

(** [trim] leaves a text of hexadecimal digits as it is. *)
Lemma trim_hex (s : string) : all_hex s = true -> trim s = s.
Proof.
  intros H. unfold trim, trimStart, trimEnd.
  rewrite (proj1 (strip_all_hex _ s H)).
  rewrite (proj2 (strip_all_hex _ (srev s) ltac:(now rewrite all_hex_srev))).
  apply srev_involutive.
Qed.

(** *** What [trim] removes and what it keeps *)

Lemma first_strip_token_rev (t s : string) :
  In t ws_tokens -> first_strip (List.map srev ws_tokens) (srev t +:+ s) = Some s.
Proof.
  intros Hin. simpl in Hin.
  repeat (destruct Hin as [<-|Hin]; [reflexivity|]). contradiction.
Qed.

Lemma token_length_rev (t : string) :
  In t (List.map srev ws_tokens) -> 1 <= String.length t.
Proof.
  intros Hin. simpl in Hin.
  repeat (destruct Hin as [<-|Hin]; [simpl; lia|]). contradiction.
Qed.

(** With fuel for the whole text, [strip_all] stops on a text that
    starts with no token. *)
Lemma strip_all_done (toks : list string) :
  (forall t, In t toks -> 1 <= String.length t) ->
  forall fuel s,
    String.length s <= fuel -> first_strip toks (strip_all fuel toks s) = None.
Proof.
  intros Hlen. induction fuel as [|fuel IH]; intros s Hs; cbn [strip_all].
  - destruct s; [|cbn in Hs; lia].
    destruct (first_strip toks EmptyString) as [r|] eqn:E; [|reflexivity].
    destruct (first_strip_app _ _ _ E) as (t & Hin & Ht).
    pose proof (Hlen t Hin). apply (f_equal String.length) in Ht.
    rewrite slength_app in Ht. cbn in Ht. lia.
  - destruct (first_strip toks s) as [r|] eqn:E; [|exact E].
    destruct (first_strip_app _ _ _ E) as (t & Hin & ->).
    pose proof (Hlen t Hin). rewrite slength_app in Hs. apply IH. lia.
Qed.

(** A prefix of tokens is stripped whole, up to a text that starts
    with no token. *)
Lemma strip_all_prefix (toks : list string) (w x : string) :
  (forall t, In t toks -> 1 <= String.length t) ->
  (forall t s, In t toks -> first_strip toks (t +:+ s) = Some s) ->
  tok_concat toks w -> first_strip toks x = None ->
  forall fuel, String.length w <= fuel -> strip_all fuel toks (w +:+ x) = x.
Proof.
  intros Hlen Htok Hw Hx. induction Hw as [|t s Hin Hs IH]; intros fuel Hfuel.
  - cbn [String.append]. destruct fuel; cbn [strip_all]; [reflexivity | now rewrite Hx].
  - rewrite slength_app in Hfuel. pose proof (Hlen t Hin).
    destruct fuel as [|fuel]; [lia|]. cbn [strip_all].
    rewrite sapp_assoc, (Htok t _ Hin). apply IH. lia.
Qed.

Lemma only_ws_tok_concat (w : string) : only_ws w -> tok_concat ws_tokens w.
Proof. induction 1; now constructor. Qed.

Lemma tok_concat_app (toks : list string) (a b : string) :
  tok_concat toks a -> tok_concat toks b -> tok_concat toks (a +:+ b).
Proof.
  induction 1 as [|t s Hin Hs IH]; intros Hb; [exact Hb|].
  rewrite sapp_assoc. constructor; auto.
Qed.

Lemma only_ws_srev (w : string) :
  only_ws w -> tok_concat (List.map srev ws_tokens) (srev w).
Proof.
  induction 1 as [|t s Hin Hs IH]; [constructor|].
  rewrite srev_app_distr. apply tok_concat_app; [exact IH|].
  rewrite <- (sapp_nil_r (srev t)). constructor; [now apply in_map | constructor].
Qed.

Lemma srev_length (s : string) : String.length (srev s) = String.length s.
Proof.
  induction s as [|c s IH]; [reflexivity|].
  unfold srev. simpl. rewrite srev_app_spec, slength_app, IH. simpl. lia.
Qed.

(** [trim s] is [s] without a prefix and a suffix of white space, and
    has no white space at either end. *)
Theorem trim_spec (s : string) :
  exists w1 w2,
    s = w1 +:+ trim s +:+ w2 /\ only_ws w1 /\ only_ws w2
    /\ ~ starts_ws (trim s) /\ ~ ends_ws (trim s).
Proof.
  unfold trim, trimStart, trimEnd.
  destruct (strip_all_split (String.length s) ws_tokens s) as (w1 & Hw1 & Hs).
  pose proof (strip_all_done ws_tokens token_length (String.length s) s (le_n _)) as Hdone.
  remember (strip_all (String.length s) ws_tokens s) as u eqn:Eu. clear Eu.
  destruct (strip_all_split (String.length u) (List.map srev ws_tokens) (srev u))
    as (w' & Hw' & Hu).
  assert (String.length (srev u) <= String.length u) as Hlu
    by (rewrite srev_length; lia).
  pose proof (strip_all_done (List.map srev ws_tokens) token_length_rev
                (String.length u) (srev u) Hlu) as Hdone'.
  remember (strip_all (String.length u) (List.map srev ws_tokens) (srev u)) as z eqn:Ez.
  clear Ez.
  assert (u = srev z +:+ srev w') as Hu'
    by (rewrite <- (srev_involutive u), Hu, srev_app_distr; reflexivity).
  exists w1, (srev w'). split_and!.
  - rewrite <- Hu'. exact Hs.
  - now apply tok_concat_only_ws.
  - now apply tok_concat_srev.
  - intros (t & r & Hin & E).
    rewrite Hu', E, sapp_assoc, (first_strip_token t _ Hin) in Hdone. discriminate Hdone.
  - intros (t & r & Hin & E).
    assert (z = srev t +:+ srev r) as Hz
      by (rewrite <- (srev_involutive z), E, srev_app_distr; reflexivity).
    rewrite Hz, (first_strip_token_rev t _ Hin) in Hdone'. discriminate Hdone'.
Qed.

(** White space around a text of hexadecimal digits is removed, and
    nothing else. *)
Theorem trim_around_hex (w1 id w2 : string) :
  only_ws w1 -> only_ws w2 -> all_hex id = true ->
  trim (w1 +:+ id +:+ w2) = id.
Proof.
  intros H1 H2 Hid.
  destruct id as [|c r].
  { cbn [String.append]. apply trim_empty_iff. now apply only_ws_app. }
  assert (hex_char c = true) as Hc
    by (cbn [all_hex] in Hid; apply andb_true_iff in Hid; tauto).
  unfold trim.
  assert (trimStart (w1 +:+ String c r +:+ w2) = String c r +:+ w2) as ->.
  { unfold trimStart.
    apply (strip_all_prefix ws_tokens w1 (String c r +:+ w2) token_length).
    - intros t s. apply first_strip_token.
    - now apply only_ws_tok_concat.
    - exact (proj1 (first_strip_hex c (r +:+ w2) Hc)).
    - rewrite slength_app. lia. }
  unfold trimEnd. rewrite srev_app_distr.
  assert (exists c' r', srev (String c r) = String c' r' /\ hex_char c' = true)
    as (c' & r' & Erev & Hc').
  { pose proof (all_hex_srev (String c r)) as Hrev. rewrite Hid in Hrev.
    pose proof (srev_length (String c r)) as Hl.
    destruct (srev (String c r)) as [|c' r']; [discriminate Hl|].
    exists c', r'. split; [reflexivity|].
    cbn [all_hex] in Hrev. apply andb_true_iff in Hrev. tauto. }
  rewrite (strip_all_prefix (List.map srev ws_tokens) (srev w2) (srev (String c r))
             token_length_rev).
  - apply srev_involutive.
  - intros t s Hin. apply in_map_iff in Hin as (t' & <- & Hin).
    apply first_strip_token_rev, Hin.
  - now apply only_ws_srev.
  - rewrite Erev. exact (proj2 (first_strip_hex c' r' Hc')).
  - rewrite srev_length. change (String c r +:+ w2) with (String c (r +:+ w2)).
    cbn [String.length]. rewrite slength_app. lia.
Qed.

End TrimFacts.

(** ** The shape of a digest *)

Module SHA1Facts.
Import Trim.

Lemma be_bytes_range (n : nat) (x : Z) :
  Forall (fun b => (0 <= b < 256)%Z) (SHA1.be_bytes n x).
Proof.
  induction n as [|n IH]; simpl; constructor; [|exact IH].
  change 255%Z with (Z.ones 8). rewrite Z.land_ones by lia.
  apply Z.mod_pos_bound. reflexivity.
Qed.

Lemma hex_digit_hex (x : Z) : (0 <= x < 16)%Z -> hex_char (SHA1.hex_digit x) = true.
Proof.
  intros H.
  assert (x = 0 \/ x = 1 \/ x = 2 \/ x = 3 \/ x = 4 \/ x = 5 \/ x = 6 \/ x = 7
          \/ x = 8 \/ x = 9 \/ x = 10 \/ x = 11 \/ x = 12 \/ x = 13 \/ x = 14
          \/ x = 15)%Z as Hx by lia.
  repeat (destruct Hx as [->|Hx]; [reflexivity|]). subst. reflexivity.
Qed.

Lemma hex_all_hex (bs : list Z) :
  Forall (fun b => (0 <= b < 256)%Z) bs -> all_hex (SHA1.hex bs) = true.
Proof.
  induction 1 as [|b bs Hb Hbs IH]; [reflexivity|].
  cbn [SHA1.hex all_hex]. rewrite IH, !hex_digit_hex; [reflexivity| |].
  - change 15%Z with (Z.ones 4). rewrite Z.land_ones by lia.
    apply Z.mod_pos_bound. reflexivity.
  - rewrite Z.shiftr_div_pow2 by lia. change (2 ^ 4)%Z with 16%Z.
    split; [apply Z.div_pos; lia | apply Z.div_lt_upper_bound; lia].
Qed.

Lemma sha1_hex_all_hex (s : string) : all_hex (SHA1.sha1_hex s) = true.
Proof.
  unfold SHA1.sha1_hex, SHA1.digest. apply hex_all_hex.
  repeat apply Forall_app_2; apply be_bytes_range.
Qed.

Lemma sha1_hex_nonempty (s : string) : JSON.is_empty (SHA1.sha1_hex s) = false.
Proof. reflexivity. Qed.

Lemma trim_sha1_hex (s : string) : trim (SHA1.sha1_hex s) = SHA1.sha1_hex s.
Proof. apply TrimFacts.trim_hex, sha1_hex_all_hex. Qed.

End SHA1Facts.

(** ** The repository *)

Module ZitFacts.
Import FS.
Import JSON.
Import Zit.
Import JSONFacts.

(** *** Paths *)

Lemma obj_path_inj (h h' : string) : obj_path h = obj_path h' -> h = h'.
Proof. unfold obj_path, path_join, objectsPath, repoPath, path_join. simpl. congruence. Qed.

Lemma obj_path_not_head (h : string) : obj_path h <> headPath.
Proof. discriminate. Qed.

Lemma obj_path_not_index (h : string) : obj_path h <> indexPath.
Proof. discriminate. Qed.

Lemma head_not_index : headPath <> indexPath.
Proof. discriminate. Qed.

Lemma is_object_path_obj (h : string) : is_object_path (obj_path h) = true.
Proof. destruct h; reflexivity. Qed.

(** *** Reading and writing *)

Lemma writeFile_ok (p c : string) (s : state) :
  p ∉ readonly s ->
  writeFile p c s
  = Some (State (<[p := c]> (files s)) (readonly s) (writes s ++ [p]) (console s)).
Proof. intros H. unfold writeFile. now rewrite decide_False. Qed.

Lemma writeFile_refused (p c : string) (s : state) :
  p ∈ readonly s -> writeFile p c s = None.
Proof. intros H. unfold writeFile. now rewrite decide_True. Qed.

(** *** The digest is a fixed point of [trim] *)

Lemma trim_hashObject (x : string) : Trim.trim (hashObject x) = hashObject x.
Proof. apply SHA1Facts.trim_sha1_hex. Qed.

Lemma hashObject_nonempty (x : string) : is_empty (hashObject x) = false.
Proof. reflexivity. Qed.

(** *** Commit records read back *)

Lemma commitData_wf now message index parent :
  wf index -> wf (commitData now message index parent).
Proof.
  intros Hi. unfold commitData. constructor.
  - apply (bool_decide_unpack _). vm_compute. exact I.
  - repeat constructor.
  - repeat constructor; simpl; [exact Hi | destruct parent; constructor].
Qed.

Lemma parse_commitData now message index parent :
  wf index ->
  parse (stringify2 (commitData now message index parent))
  = Some (commitData now message index parent).
Proof. intros Hi. apply parse_stringify2. now apply commitData_wf. Qed.

Lemma parse_empty_index : parse empty_index = Some (Arr []).
Proof. reflexivity. Qed.

(** *** The two outcomes of [commit] *)

Lemma getCurrentHead_spec (s : state) :
  getCurrentHead s
  = match readFile headPath s with
    | None => None
    | Some head => if is_empty (Trim.trim head) then None else Some (Trim.trim head)
    end.
Proof. reflexivity. Qed.

Lemma commit_success (message now raw : string) (index : value) (s : state) :
  readFile indexPath s = Some raw -> parse raw = Some index ->
  length_is_zero index = LengthOther ->
  let data := commitData now message index (getCurrentHead s) in
  let id := hashObject (stringify data) in
  obj_path id ∉ readonly s -> headPath ∉ readonly s -> indexPath ∉ readonly s ->
  commit message now s
  = (None,
     State (<[indexPath := empty_index]>
              (<[headPath := id]> (<[obj_path id := stringify2 data]> (files s))))
           (readonly s)
           (writes s ++ [obj_path id; headPath; indexPath])
           (console s ++ [success_line id])).
Proof.
  intros Hraw Hparse Hlen data id Ho Hh Hi. unfold commit.
  rewrite Hraw, Hparse, Hlen. fold data. fold id. fold (obj_path id).
  rewrite writeFile_ok by assumption.
  rewrite writeFile_ok by assumption.
  rewrite writeFile_ok by assumption.
  unfold print. cbn [files readonly writes console].
  rewrite <- !app_assoc. reflexivity.
Qed.

Lemma updateStagingArea_cases (p h : string) (s : state) :
  updateStagingArea p h s = print "Failed to update staging area:" s
  \/ exists index',
       (indexPath ∉ readonly s)
       /\ updateStagingArea p h s
          = State (<[indexPath := stringify2 (Arr index')]> (files s)) (readonly s)
                  (writes s ++ [indexPath]) (console s).
Proof.
  unfold updateStagingArea.
  destruct (readFile indexPath s) as [raw|]; [|now left].
  destruct (parse raw) as [[| | |index|]|]; try now left.
  destruct (find_path (Some (Str p)) index 0) as [found|]; [|now left].
  unfold writeFile. destruct (decide (indexPath ∈ readonly s)); [now left|].
  right. eexists. split; [assumption | reflexivity].
Qed.

Lemma updateStagingArea_frame (p h q : string) (s : state) :
  q <> indexPath -> files (updateStagingArea p h s) !! q = files s !! q.
Proof.
  intros Hq. destruct (updateStagingArea_cases p h s) as [-> | (index' & _ & ->)];
    [reflexivity|]. cbn [files]. now rewrite lookup_insert_ne.
Qed.

Lemma updateStagingArea_readonly (p h : string) (s : state) :
  readonly (updateStagingArea p h s) = readonly s.
Proof.
  destruct (updateStagingArea_cases p h s) as [-> | (index' & _ & ->)]; reflexivity.
Qed.

(** What [add] does to a readable file whose object can be stored. *)
Lemma add_readable (f T : string) (s : state) :
  readFile f s = Some T ->
  let o := obj_path (hashObject T) in
  access o s = true \/ o ∉ readonly s ->
  snd (add f s)
  = print ("Added " +:+ f +:+ " to staging area.")
      (updateStagingArea f (hashObject T)
         (State (if access o s then files s else <[o := T]> (files s))
                (readonly s)
                (writes s ++ (if access o s then [] else [o]))
                (console s ++ ("File Hash: " +:+ hashObject T)
                   :: (if access o s then ["File content already stored."] else [])))).
Proof.
  intros Hf o Ho. unfold add; cbn [snd]. rewrite Hf. fold (obj_path (hashObject T)). fold o.
  change (access o (print ?l s)) with (access o s).
  destruct (access o s) eqn:Hc.
  - unfold print. cbn [files readonly writes console].
    rewrite app_nil_r, <- app_assoc. reflexivity.
  - destruct Ho as [Ho|Ho]; [congruence|].
    unfold writeFile, print. cbn [files readonly writes console].
    rewrite decide_False by assumption. reflexivity.
Qed.

Lemma add_unreadable (f : string) (s : state) :
  readFile f s = None -> snd (add f s) = print ("Failed to add file " +:+ f +:+ ":") s.
Proof. intros Hf. unfold add; cbn [snd]. now rewrite Hf. Qed.


(** *** The staging index *)

Lemma entries_wf (es : list (string * string)) : wf (Arr (List.map entry_of es)).
Proof.
  constructor. induction es as [|[p d] es IH]; constructor; [|exact IH].
  constructor; [apply (bool_decide_unpack _); vm_compute; exact I | repeat constructor..].
Qed.

Lemma find_path_entries (p d : string) (es : list (string * string)) (i : nat) :
  match find_path (Some (Str p)) (List.map entry_of es) i with
  | Some (Some j) =>
      i <= j
      /\ alter (set_hash d) (j - i) (List.map entry_of es)
         = List.map entry_of (stage_spec p d es)
  | Some None =>
      List.map entry_of es ++ [entry p d] = List.map entry_of (stage_spec p d es)
  | None => False
  end.
Proof.
  revert i. induction es as [|[p' d'] es IH]; intros i; [reflexivity|].
  cbn [List.map find_path stage_spec]. cbn.
  destruct (String.eqb_spec p' p) as [->|Hne].
  - split; [lia|]. rewrite Nat.sub_diag. reflexivity.
  - specialize (IH (S i)).
    destruct (find_path (Some (Str p)) (List.map entry_of es) (S i)) as [[j|]|];
      [|cbn; now rewrite <- IH | contradiction].
    destruct IH as [Hle IH]. split; [lia|].
    replace (j - i) with (S (j - S i)) by lia. cbn. now rewrite <- IH.
Qed.

Lemma updateStagingArea_holds (p d : string) (s : state) (es : list (string * string)) :
  index_holds s es -> indexPath ∉ readonly s ->
  updateStagingArea p d s
  = State (<[indexPath := stringify2 (Arr (List.map entry_of (stage_spec p d es)))]> (files s))
          (readonly s) (writes s ++ [indexPath]) (console s).
Proof.
  intros (raw & Hraw & Hparse) Hw. unfold updateStagingArea.
  rewrite Hraw, Hparse. pose proof (find_path_entries p d es 0) as Hfind.
  destruct (find_path (Some (Str p)) (List.map entry_of es) 0) as [[j|]|];
    [| |contradiction].
  - destruct Hfind as [_ Hfind]. rewrite Nat.sub_0_r in Hfind.
    rewrite Hfind. now rewrite writeFile_ok.
  - rewrite Hfind. now rewrite writeFile_ok.
Qed.

Lemma stage_spec_present (p d : string) (es : list (string * string)) :
  In p (List.map fst es) ->
  List.map fst (stage_spec p d es) = List.map fst es
  /\ In (p, d) (stage_spec p d es)
  /\ length (stage_spec p d es) = length es.
Proof.
  induction es as [|[p' d'] es IH]; [contradiction|].
  intros Hin. cbn [stage_spec]. destruct (String.eqb_spec p' p) as [->|Hne].
  - repeat split. now left.
  - destruct Hin as [Hin|Hin]; [simpl in Hin; congruence|].
    destruct (IH Hin) as (Hk & Hi & Hl). cbn. repeat split; [congruence | now right | congruence].
Qed.

Lemma stage_spec_absent (p d : string) (es : list (string * string)) :
  ~ In p (List.map fst es) -> stage_spec p d es = es ++ [(p, d)].
Proof.
  induction es as [|[p' d'] es IH]; [reflexivity|].
  intros Hin. cbn [stage_spec]. destruct (String.eqb_spec p' p) as [->|Hne].
  - exfalso. apply Hin. now left.
  - cbn. rewrite IH; [reflexivity|]. intros H. apply Hin. now right.
Qed.

Lemma stage_spec_NoDup (p d : string) (es : list (string * string)) :
  NoDup (List.map fst es) -> NoDup (List.map fst (stage_spec p d es)).
Proof.
  intros Hnd. destruct (in_dec string_dec p (List.map fst es)) as [Hin|Hin].
  - now rewrite (proj1 (stage_spec_present p d es Hin)).
  - rewrite (stage_spec_absent p d es Hin), map_app. cbn.
    apply NoDup_app. repeat split; [exact Hnd | | apply NoDup_singleton].
    intros x Hx ->%list_elem_of_singleton. apply Hin. now apply list_elem_of_In.
Qed.

Lemma index_holds_after (p d : string) (s : state) (es : list (string * string)) :
  index_holds s es -> indexPath ∉ readonly s ->
  index_holds (updateStagingArea p d s) (stage_spec p d es).
Proof.
  intros Hh Hw. rewrite (updateStagingArea_holds p d s es Hh Hw).
  eexists. split; [apply lookup_insert_eq|]. apply parse_stringify2, entries_wf.
Qed.

(** C4: staging is an upsert.  On an index that holds the entries
    [es], [updateStagingArea p d] leaves the index holding
    [stage_spec p d es]: when an entry for [p] exists, the paths and
    their order are unchanged and the entry of [p] carries [d];
    otherwise [(p, d)] is appended at the end.  Consequently, after
    any sequence of staging operations on an index without two entries
    of one path, the index still has no two entries of one path. *)
Theorem staging_upsert (s : state) (es : list (string * string)) :
  index_holds s es -> indexPath ∉ readonly s ->
  (forall p d, index_holds (updateStagingArea p d s) (stage_spec p d es))
  /\ (forall p d, In p (List.map fst es) ->
        List.map fst (stage_spec p d es) = List.map fst es
        /\ In (p, d) (stage_spec p d es)
        /\ length (stage_spec p d es) = length es)
  /\ (forall p d, ~ In p (List.map fst es) -> stage_spec p d es = es ++ [(p, d)])
  /\ (forall ops, NoDup (List.map fst es) ->
        exists es', index_holds (stage_all ops s) es' /\ NoDup (List.map fst es')).
Proof.
  intros Hh Hw. repeat split.
  - intros p d. now apply index_holds_after.
  - now apply stage_spec_present.
  - now apply stage_spec_present.
  - now apply stage_spec_present.
  - intros p d. apply stage_spec_absent.
  - intros ops. revert s es Hh Hw. induction ops as [|[p d] ops IH]; intros s es Hh Hw Hnd.
    + exists es. now split.
    + cbn. apply (IH _ (stage_spec p d es)).
      * now apply index_holds_after.
      * now rewrite updateStagingArea_readonly.
      * now apply stage_spec_NoDup.
Qed.

Lemma staging_upsert_witness :
  index_holds (updateStagingArea "a.txt" "0a" Scenario.s_staged)
    (stage_spec "a.txt" "0a" [("a.txt", "aaf4c61ddcc5e8a2dabede0f3b482cd9aea9434d")]).
Proof.
  refine (proj1 (staging_upsert Scenario.s_staged
                   [("a.txt", "aaf4c61ddcc5e8a2dabede0f3b482cd9aea9434d")] _ _) _ _).
  - eexists. split; vm_compute; reflexivity.
  - vm_compute. intros H. exact (not_elem_of_empty (C := gset string) indexPath H).
Defined.

(** *** Storing and staging a file *)

Lemma add_frame (f q : string) (s : state) :
  q <> indexPath ->
  (forall T, readFile f s = Some T -> q <> obj_path (hashObject T)) ->
  files (snd (add f s)) !! q = files s !! q.
Proof.
  intros Hqi Hqo. unfold add; cbn [snd]. destruct (readFile f s) as [T|]; [|reflexivity].
  specialize (Hqo T eq_refl). fold (obj_path (hashObject T)).
  change (access ?o (print ?l s)) with (access o s).
  destruct (access (obj_path (hashObject T)) s).
  - cbn [files print]. now rewrite updateStagingArea_frame.
  - unfold writeFile. cbn [readonly print].
    destruct (decide (obj_path (hashObject T) ∈ readonly s)); [reflexivity|].
    cbn [files print]. rewrite updateStagingArea_frame by assumption.
    cbn [files]. now rewrite lookup_insert_ne.
Qed.

Lemma add_readonly (f : string) (s : state) : readonly (snd (add f s)) = readonly s.
Proof.
  unfold add; cbn [snd]. destruct (readFile f s) as [T|]; [|reflexivity].
  change (access ?o (print ?l s)) with (access o s).
  destruct (access _ s).
  - cbn [readonly print]. now rewrite updateStagingArea_readonly.
  - unfold writeFile. cbn [readonly print].
    destruct (decide (_ ∈ readonly s)); [reflexivity|].
    cbn [readonly print]. now rewrite updateStagingArea_readonly.
Qed.

Lemma access_true (p : string) (s : state) :
  access p s = true <-> exists c, files s !! p = Some c.
Proof.
  unfold access. destruct (files s !! p); split; eauto; try discriminate.
  intros [c H]. discriminate.
Qed.

(** One call of [add] on a file of content [T]. *)
Lemma add_step (f T : string) (s : state) :
  readFile f s = Some T ->
  let d := hashObject T in
  let o := obj_path d in
  access o s = true \/ o ∉ readonly s ->
  readonly (snd (add f s)) = readonly s
  /\ files (snd (add f s)) !! o = (if access o s then files s !! o else Some T)
  /\ (forall q, q <> indexPath -> q <> o -> files (snd (add f s)) !! q = files s !! q)
  /\ (exists w, writes (snd (add f s)) = writes s ++ (if access o s then [] else [o]) ++ w
                /\ (w = [] \/ w = [indexPath]))
  /\ (exists l, console (snd (add f s)) = console s ++ hash_line d :: l
                /\ List.filter is_hash_line l = []).
Proof.
  intros Hf d o Ho. split_and!.
  - apply add_readonly.
  - rewrite (add_readable f T s Hf Ho). fold d. fold o. cbn [files print].
    rewrite updateStagingArea_frame by apply obj_path_not_index. cbn [files].
    destruct (access o s); [reflexivity | apply lookup_insert_eq].
  - intros q Hqi Hqo. apply add_frame; [assumption|].
    intros T' HT'. rewrite Hf in HT'. now injection HT' as <-.
  - rewrite (add_readable f T s Hf Ho). fold d. fold o. cbn [writes print].
    match goal with |- context [updateStagingArea f d ?st] =>
      destruct (updateStagingArea_cases f d st) as [-> | (index' & _ & ->)] end.
    + exists []. cbn [writes print]. rewrite app_nil_r. auto.
    + exists [indexPath]. cbn [writes]. rewrite <- app_assoc. auto.
  - rewrite (add_readable f T s Hf Ho). fold d. fold o. cbn [console print].
    match goal with |- context [updateStagingArea f d ?st] =>
      destruct (updateStagingArea_cases f d st) as [-> | (index' & _ & ->)] end.
    + cbn [console print]. eexists. split.
      * rewrite <- !app_assoc. cbn [app]. reflexivity.
      * destruct (access o s); reflexivity.
    + cbn [console]. eexists. split.
      * rewrite <- !app_assoc. cbn [app]. reflexivity.
      * destruct (access o s); reflexivity.
Qed.

Lemma is_hash_line_hash_line (d : string) : is_hash_line (hash_line d) = true.
Proof. destruct d; reflexivity. Qed.

Lemma object_count_insert_object (p c : string) (m : gmap string string) :
  is_object_path p = true ->
  size (filter (fun kv : string * string => is_object_path (fst kv) = true) (<[p := c]> m))
  = match m !! p with
    | Some _ => size (filter (fun kv : string * string => is_object_path (fst kv) = true) m)
    | None => S (size (filter (fun kv : string * string => is_object_path (fst kv) = true) m))
    end.
Proof.
  intros Hp. rewrite map_filter_insert_True by exact Hp.
  destruct (m !! p) as [c'|] eqn:Hm.
  - apply map_size_insert_Some. exists c'. now apply map_lookup_filter_Some.
  - apply map_size_insert_None. apply map_lookup_filter_None. left. exact Hm.
Qed.

Lemma object_count_insert_other (p c : string) (m : gmap string string) :
  is_object_path p = false ->
  size (filter (fun kv : string * string => is_object_path (fst kv) = true) (<[p := c]> m))
  = size (filter (fun kv : string * string => is_object_path (fst kv) = true) m).
Proof.
  intros Hp. rewrite map_filter_insert_False by (cbn [fst]; rewrite Hp; discriminate).
  rewrite map_filter_delete, delete_id; [reflexivity|].
  apply map_lookup_filter_None. right. intros x _. cbn [fst]. rewrite Hp. discriminate.
Qed.

(** Any number of calls of [add] on files of one content [T]. *)
Lemma adds_same_content (T : string) (fs : list string) :
  let d := hashObject T in
  let o := obj_path d in
  forall s : state,
    (forall f, In f fs -> readFile f s = Some T /\ f <> indexPath) ->
    access o s = true \/ o ∉ readonly s ->
    readonly (adds fs s) = readonly s
    /\ (fs <> [] ->
        files (adds fs s) !! o = (if access o s then files s !! o else Some T))
    /\ (forall q, q <> indexPath -> q <> o -> files (adds fs s) !! q = files s !! q)
    /\ (exists w, writes (adds fs s) = writes s ++ w
                  /\ count_occ string_dec w o <= 1
                  /\ (access o s = true -> count_occ string_dec w o = 0)
                  /\ Forall (fun p => p = o \/ p = indexPath) w)
    /\ (exists l, console (adds fs s) = console s ++ l
                  /\ List.filter is_hash_line l = repeat (hash_line d) (length fs)).
Proof.
  intros d o. induction fs as [|f fs IH]; intros s Hfs Ho.
  - cbn. split_and!; try reflexivity; try congruence.
    + exists []. rewrite app_nil_r. cbn. split_and!; auto.
    + exists []. now rewrite app_nil_r.
  - destruct (Hfs f (or_introl eq_refl)) as [Hf Hfi].
    destruct (add_step f T s Hf Ho) as (Hro & Hobj & Hframe & (w0 & Hw0 & Hw0') & (l0 & Hl0 & Hl0')).
    fold d in Hobj, Hframe, Hw0, Hl0. fold o in Hobj, Hframe, Hw0.
    assert (Hacc : access o (snd (add f s)) = true).
    { apply access_true. rewrite Hobj. destruct (access o s) eqn:Ha; [|eauto].
      now apply access_true in Ha. }
    assert (Hfs' : forall f', In f' fs -> readFile f' (snd (add f s)) = Some T /\ f' <> indexPath).
    { intros f' Hin. destruct (Hfs f' (or_intror Hin)) as [Hf' Hfi']. split; [|exact Hfi'].
      unfold readFile in *. destruct (decide (f' = o)) as [->|Hne].
      - rewrite Hobj. destruct (access o s); [exact Hf' | reflexivity].
      - rewrite Hframe by assumption. exact Hf'. }
    destruct (IH (snd (add f s)) Hfs' (or_introl Hacc))
      as (Hro' & Hobj' & Hframe' & (w & Hw & _ & Hw0c & HwF) & (l & Hl & Hl')).
    change (adds (f :: fs) s) with (adds fs (snd (add f s))).
    split_and!.
    + congruence.
    + intros _. destruct fs as [|f' fs'].
      * exact Hobj.
      * rewrite Hobj' by congruence. rewrite Hacc. exact Hobj.
    + intros q Hqi Hqo. rewrite Hframe' by assumption. now apply Hframe.
    + exists ((if access o s then [] else [o]) ++ w0 ++ w).
      rewrite Hw, Hw0, <- !app_assoc. split; [reflexivity|].
      rewrite !count_occ_app, (Hw0c Hacc).
      assert (count_occ string_dec w0 o = 0) as ->.
      { destruct Hw0' as [->| ->]; [reflexivity|]. cbn.
        destruct (string_dec indexPath o) as [E|]; [|reflexivity].
        exfalso. exact (obj_path_not_index d (eq_sym E)). }
      split_and!.
      * destruct (access o s); cbn [count_occ]; [lia|]. destruct (string_dec o o); [lia|congruence].
      * intros ->. reflexivity.
      * apply Forall_app. split; [destruct (access o s); auto|].
        apply Forall_app. split; [|exact HwF].
        destruct Hw0' as [->| ->]; auto.
    + exists (hash_line d :: l0 ++ l). rewrite Hl, Hl0, <- app_assoc. split; [reflexivity|].
      cbn [List.filter length repeat]. rewrite is_hash_line_hash_line.
      rewrite List.filter_app, Hl0', Hl'. reflexivity.
Qed.

Lemma is_object_path_index : is_object_path indexPath = false.
Proof. reflexivity. Qed.

(** C3, as amended: storage is idempotent and deduplicated.  After any
    positive number of calls of [add] on files of one content [T],
    with digest [d]: the object file of [d] exists, no other object
    file was created or changed, so the store holds one object more
    than before if [d] was not stored and as many otherwise; every call
    printed the same digest [d], and returned no value; and the calls
    together wrote the object file of [d] at most once, and no other
    file but the index. *)
Theorem adds_store_once (T : string) (fs : list string) (s : state) :
  fs <> [] ->
  (forall f, In f fs -> readFile f s = Some T /\ f <> indexPath) ->
  let d := hashObject T in
  let o := obj_path d in
  access o s = true \/ o ∉ readonly s ->
  let s' := adds fs s in
  (exists c, files s' !! o = Some c)
  /\ (forall q, is_object_path q = true -> q <> o -> files s' !! q = files s !! q)
  /\ object_count s' = (if access o s then object_count s else S (object_count s))
  /\ (exists w, writes s' = writes s ++ w
                /\ count_occ string_dec w o <= 1
                /\ Forall (fun p => p = o \/ p = indexPath) w)
  /\ (exists l, console s' = console s ++ l
                /\ List.filter is_hash_line l = repeat (hash_line d) (length fs))
  /\ (forall f st, fst (add f st) = None).
Proof.
  intros Hne Hfs d o Ho s'.
  destruct (adds_same_content T fs s Hfs Ho)
    as (_ & Hobj & Hframe & (w & Hw & Hc & _ & HF) & Hl).
  fold d in Hobj, Hframe, Hc, HF, Hl. fold o in Hobj, Hframe, Hc, HF. fold s' in Hobj, Hframe, Hw, Hl.
  specialize (Hobj Hne).
  assert (Hq : forall q, is_object_path q = true -> q <> o -> files s' !! q = files s !! q).
  { intros q Hq Hqo. apply Hframe; [|exact Hqo].
    intros ->. rewrite is_object_path_index in Hq. discriminate. }
  split_and!.
  - rewrite Hobj. destruct (access o s) eqn:Ha; [now apply access_true in Ha | eauto].
  - exact Hq.
  - unfold object_count.
    assert (Hext : filter (fun kv : string * string => is_object_path (fst kv) = true) (files s')
                   = filter (fun kv : string * string => is_object_path (fst kv) = true)
                       (if access o s then files s else <[o := T]> (files s))).
    { apply map_filter_strong_ext. intros i x. cbn [fst].
      assert (is_object_path i = true ->
              files s' !! i = (if access o s then files s else <[o := T]> (files s)) !! i) as Hi.
      { intros Hi. destruct (decide (i = o)) as [->|Hio].
        - rewrite Hobj. destruct (access o s); [reflexivity | now rewrite lookup_insert_eq].
        - rewrite (Hq i Hi Hio). destruct (access o s); [reflexivity | now rewrite lookup_insert_ne]. }
      split; intros [Hp Hx]; (split; [exact Hp|]); [rewrite <- Hi | rewrite Hi]; assumption. }
    rewrite Hext. destruct (access o s) eqn:Ha; [reflexivity|].
    rewrite object_count_insert_object by apply is_object_path_obj.
    unfold access in Ha. destruct (files s !! o); [discriminate | reflexivity].
  - exists w. auto.
  - exact Hl.
  - reflexivity.
Qed.

(** C3 fails as stated: a call of [add] prints the digest of the
    content and returns no value, so it does not return the digest. *)
Lemma add_returns_no_value :
  let r := add "a.txt" Scenario.s_init in
  let d := "aaf4c61ddcc5e8a2dabede0f3b482cd9aea9434d" in
  hashObject "hello" = d
  /\ console (snd r) = [hash_line d; "Added a.txt to staging area."]
  /\ fst r <> Some (Str d).
Proof. vm_compute. split_and!; [reflexivity | reflexivity | discriminate]. Qed.

Lemma adds_store_once_witness :
  object_count (adds ["a.txt"; "a.txt"; "a.txt"] Scenario.s_init)
  = S (object_count Scenario.s_init).
Proof.
  refine (proj1 (proj2 (proj2
            (adds_store_once "hello" ["a.txt"; "a.txt"; "a.txt"] Scenario.s_init _ _ _)))).
  - discriminate.
  - intros f [<-|[<-|[<-|[]]]]; split; first [vm_compute; reflexivity | discriminate].
  - right. vm_compute. discriminate.
Defined.

(** X18: the round trip of a text through the store.  When the store
    holds nothing under the digest of [T] and the object file can be
    written, or already holds [T] there, then after [add] has stored
    a file of content [T], [getFileContent] gives back exactly [T] for
    that digest. *)
Theorem add_then_getFileContent (f T : string) (s : state) :
  readFile f s = Some T ->
  let o := obj_path (hashObject T) in
  (files s !! o = None /\ o ∉ readonly s) \/ files s !! o = Some T ->
  fst (getFileContent (hashObject T) (snd (add f s))) = Some T.
Proof.
  intros Hf o Ho.
  assert (Ho' : access o s = true \/ o ∉ readonly s).
  { destruct Ho as [[_ Hw]|Hc]; [now right | left; apply access_true; eauto]. }
  destruct (add_step f T s Hf Ho') as (_ & Hobj & _).
  fold o in Hobj. unfold getFileContent, readFile. fold (obj_path (hashObject T)). fold o.
  rewrite Hobj. unfold access.
  destruct Ho as [[Hn _]|Hc]; [rewrite Hn | rewrite Hc]; reflexivity.
Qed.

Lemma add_then_getFileContent_witness :
  fst (getFileContent (hashObject "hello") (snd (add "a.txt" Scenario.s_init))) = Some "hello".
Proof.
  refine (add_then_getFileContent "a.txt" "hello" Scenario.s_init _ _).
  - vm_compute. reflexivity.
  - left. split; vm_compute; [reflexivity | discriminate].
Defined.

(** C2 fails on the code.  Once the first commit is stored, the
    object under the commit id holds the indented serialization of the
    record, while the id is the digest of the compact one.  For a file
    whose text [T] is that compact serialization, [add] finds an
    object under the digest of [T]: it prints
    "File content already stored." for a content that is not stored,
    writes no object, and [getFileContent] gives back the indented
    text, not [T]. *)
Lemma round_trip_fails_on_a_commit_text :
  let T := stringify Scenario.first_record in
  let s := Scenario.edit "c.json" T Scenario.s_first in
  let s' := snd (add "c.json" s) in
  readFile "c.json" s = Some T
  /\ getCurrentHead s = Some (hashObject T)
  /\ readFile (obj_path (hashObject T)) s = Some (stringify2 Scenario.first_record)
  /\ console s'
     = console s ++ [ hash_line (hashObject T); "File content already stored.";
                      "Added c.json to staging area." ]
  /\ object_count s' = object_count s
  /\ fst (getFileContent (hashObject T) s') = Some (stringify2 Scenario.first_record)
  /\ stringify2 Scenario.first_record <> T.
Proof. vm_compute. split_and!; try reflexivity. discriminate. Qed.

(** The text [commit] writes is never the text it hashed. *)
Lemma commit_texts_differ (now message : string) (index : value) (parent : option string) :
  stringify2 (commitData now message index parent)
  <> stringify (commitData now message index parent).
Proof.
  unfold stringify2, stringify, commitData.
  change (ser ?gap EmptyString (Obj (?x :: ?fs)))
    with (wrap gap EmptyString "{" "}"
            (List.map (fun kv => quote (fst kv) +:+ colon gap
                                   +:+ ser gap (EmptyString +:+ gap) (snd kv)) (x :: fs))).
  unfold wrap. cbn [is_empty List.map fst snd]. rewrite !join_cons.
  rewrite !quote_app. cbn [String.append]. unfold nl, quot. discriminate.
Qed.

(** C1 fails on the code: after the first commit of the scenario, the
    object stored under the commit id read from HEAD is the indented
    serialization of the record, and its digest is not the commit id,
    which is the digest of the compact serialization. *)
Lemma commit_object_not_under_its_digest :
  let s := Scenario.s_first in
  let id := hashObject (stringify Scenario.first_record) in
  getCurrentHead s = Some id
  /\ readFile (obj_path id) s = Some (stringify2 Scenario.first_record)
  /\ hashObject (stringify2 Scenario.first_record) <> id.
Proof. vm_compute. split_and!; [reflexivity | reflexivity | discriminate]. Qed.

(** *** Commit *)

Lemma commit_first_write (message now raw : string) (index : value) (s : state) :
  readFile indexPath s = Some raw -> parse raw = Some index ->
  ~ stops_early message now s ->
  let id := hashObject (stringify (commitData now message index (getCurrentHead s))) in
  exists more,
    writes (snd (commit message now s)) = writes s ++ obj_path id :: more
    /\ (exists text, readFile (obj_path id) (snd (commit message now s)) = Some text).
Proof.
  intros Hraw Hparse Hnot id.
  assert (length_is_zero index = LengthOther) as Hlen.
  { destruct index as [|b|[|c t]|[|v l]|fs]; try reflexivity; exfalso; apply Hnot.
    - exact (index_null _ _ _ raw Hraw Hparse).
    - exact (index_no_text _ _ _ raw Hraw Hparse).
    - exact (index_no_entry _ _ _ raw Hraw Hparse). }
  assert (obj_path id ∉ readonly s) as Ho.
  { intros Hin. apply Hnot. exact (object_refused _ _ _ raw index Hraw Hparse Hin). }
  unfold commit. rewrite Hraw, Hparse, Hlen.
  change (path_join objectsPath
            (hashObject (stringify (commitData now message index (getCurrentHead s)))))
    with (obj_path id).
  remember (stringify2 (commitData now message index (getCurrentHead s))) as text.
  assert (obj_path id <> headPath) as Hoh by apply obj_path_not_head.
  assert (obj_path id <> indexPath) as Hoi by apply obj_path_not_index.
  remember (obj_path id) as o eqn:Eo. clear Eo.
  rewrite (writeFile_ok _ _ _ Ho). unfold writeFile.
  cbn [readonly files writes console].
  destruct (decide (headPath ∈ readonly s));
    [cbn [snd print writes files]; exists []; split;
       [reflexivity | exists text; unfold readFile; cbn [files print]; apply lookup_insert_eq]|].
  cbn [readonly files writes console].
  destruct (decide (indexPath ∈ readonly s)); cbn [snd print writes files].
  - exists [headPath]. split; [now rewrite <- app_assoc|].
    exists text. unfold readFile; cbn [files print].
    rewrite lookup_insert_ne by congruence. apply lookup_insert_eq.
  - exists [headPath; indexPath]. split; [now rewrite <- !app_assoc|].
    exists text. unfold readFile; cbn [files print].
    rewrite !lookup_insert_ne by congruence. apply lookup_insert_eq.
Qed.

Lemma commit_stops_early (message now : string) (s : state) :
  stops_early message now s ->
  exists line,
    commit message now s = (None, print line s)
    /\ (line = "Nothing to commit. Staging area is empty."
        \/ line = "Failed to create commit:")
    /\ (forall raw index, readFile indexPath s = Some raw -> parse raw = Some index ->
        index = Arr [] \/ index = Str EmptyString ->
        line = "Nothing to commit. Staging area is empty.").
Proof.
  intros Hs. unfold commit.
  destruct (readFile indexPath s) as [raw|] eqn:Hraw.
  2:{ exists "Failed to create commit:". split_and!; [reflexivity | now right | discriminate]. }
  destruct (parse raw) as [index|] eqn:Hparse.
  2:{ exists "Failed to create commit:". split_and!; [reflexivity | now right |].
      intros raw' index' [= <-]. congruence. }
  destruct (length_is_zero index) eqn:Hlen.
  - exists "Failed to create commit:". split_and!; [reflexivity | now right |].
    intros raw' index' [= <-] E Hi. rewrite Hparse in E. injection E as <-.
    destruct Hi as [-> | ->]; discriminate Hlen.
  - exists "Nothing to commit. Staging area is empty.".
    split_and!; [reflexivity | now left | reflexivity].
  - assert (obj_path (hashObject (stringify (commitData now message index (getCurrentHead s))))
            ∈ readonly s) as Hin.
    { destruct Hs as [H|raw' H Hj|raw' H Hp|raw' H Hp|raw' H Hp|raw' index' H Hp Hin].
      - congruence.
      - rewrite H in Hraw. injection Hraw as ->.
        rewrite (not_json_no_parse _ Hj) in Hparse. discriminate.
      - rewrite H in Hraw. injection Hraw as ->. rewrite Hp in Hparse.
        injection Hparse as <-. discriminate.
      - rewrite H in Hraw. injection Hraw as ->. rewrite Hp in Hparse.
        injection Hparse as <-. discriminate.
      - rewrite H in Hraw. injection Hraw as ->. rewrite Hp in Hparse.
        injection Hparse as <-. discriminate.
      - rewrite H in Hraw. injection Hraw as ->. rewrite Hp in Hparse.
        injection Hparse as <-. exact Hin. }
    fold (obj_path (hashObject (stringify (commitData now message index (getCurrentHead s))))).
    rewrite (writeFile_refused _ _ _ Hin).
    exists "Failed to create commit:". split_and!; [reflexivity | now right |].
    intros raw' index' [= <-] E Hi. rewrite Hparse in E. injection E as <-.
    destruct Hi as [-> | ->]; discriminate Hlen.
Qed.




(** C6, as amended: on an index that holds at least one entry, and
    when the three files can be written, [commit] builds the record
    from the timestamp, the message, the staged entries and the HEAD
    read at the start ([null] when there is none), takes as commit id
    the digest of the serialized record, writes the record into the
    store under that id (the object parses back to the record), sets
    HEAD to the id, clears the index, and prints the id in its success
    line; the call itself returns no value. *)
Theorem commit_effects (message now raw : string) (e : value) (es : list value)
    (s : state) :
  readFile indexPath s = Some raw -> parse raw = Some (Arr (e :: es)) ->
  let parent := getCurrentHead s in
  let data := commitData now message (Arr (e :: es)) parent in
  let id := hashObject (stringify data) in
  obj_path id ∉ readonly s -> headPath ∉ readonly s -> indexPath ∉ readonly s ->
  let r := commit message now s in
  fst r = None
  /\ get_prop "parent" data = Some (Some (from_option Str Null parent))
  /\ get_prop "files" data = Some (Some (Arr (e :: es)))
  /\ (exists text, readFile (obj_path id) (snd r) = Some text /\ parse text = Some data)
  /\ readFile headPath (snd r) = Some id
  /\ getCurrentHead (snd r) = Some id
  /\ readFile indexPath (snd r) = Some empty_index
  /\ parse empty_index = Some (Arr [])
  /\ console (snd r) = console s ++ [success_line id]
  /\ writes (snd r) = writes s ++ [obj_path id; headPath; indexPath].
Proof.
  intros Hraw Hparse parent data id Ho Hh Hi r.
  assert (Hr : r = _) by (exact (commit_success message now raw _ s Hraw Hparse eq_refl Ho Hh Hi)).
  fold parent in Hr. fold data in Hr. fold id in Hr. rewrite Hr. cbn [fst snd].
  assert (Hhead : readFile headPath
            (State (<[indexPath:=empty_index]>
                      (<[headPath:=id]> (<[obj_path id:=stringify2 data]> (files s))))
                   (readonly s) (writes s ++ [obj_path id; headPath; indexPath])
                   (console s ++ [success_line id])) = Some id).
  { unfold readFile. cbn [files].
    rewrite lookup_insert_ne by (intros E; exact (head_not_index (eq_sym E))).
    apply lookup_insert_eq. }
  split_and!.
  - reflexivity.
  - unfold data, commitData. cbn. now destruct parent.
  - reflexivity.
  - exists (stringify2 data). split.
    + unfold readFile. cbn [files].
      rewrite lookup_insert_ne by (intros E; exact (obj_path_not_index _ (eq_sym E))).
      rewrite lookup_insert_ne by (intros E; exact (obj_path_not_head _ (eq_sym E))).
      apply lookup_insert_eq.
    + apply parse_commitData. apply (parse_wf raw). exact Hparse.
  - exact Hhead.
  - rewrite getCurrentHead_spec, Hhead. unfold id.
    rewrite trim_hashObject. reflexivity.
  - unfold readFile. cbn [files]. apply lookup_insert_eq.
  - reflexivity.
  - reflexivity.
  - reflexivity.
Qed.

Lemma commit_effects_witness :
  getCurrentHead (snd (commit "first" Scenario.t1 Scenario.s_staged))
  = Some (hashObject (stringify
            (commitData Scenario.t1 "first"
               (Arr [entry "a.txt" "aaf4c61ddcc5e8a2dabede0f3b482cd9aea9434d"])
               (getCurrentHead Scenario.s_staged)))).
Proof.
  refine (proj1 (proj2 (proj2 (proj2 (proj2 (proj2
            (commit_effects "first" Scenario.t1 _ _ [] Scenario.s_staged _ _ _ _ _))))))).
  - vm_compute. reflexivity.
  - vm_compute. reflexivity.
  - vm_compute. discriminate.
  - vm_compute. discriminate.
  - vm_compute. discriminate.
Defined.

(** C6 fails as stated: the call of [commit] that creates the commit
    returns no value, so it does not return the commit id. *)
Lemma commit_returns_no_value :
  let r := commit "first" Scenario.t1 Scenario.s_staged in
  getCurrentHead (snd r) = Some "da5387147ca9f7ffdba502c06ead871e78a5a319"
  /\ fst r <> Some (Str "da5387147ca9f7ffdba502c06ead871e78a5a319").
Proof. vm_compute. split; [reflexivity | discriminate]. Qed.

(** *** HEAD *)

Lemma getCurrentHead_ext (s s' : state) :
  files s' !! headPath = files s !! headPath -> getCurrentHead s' = getCurrentHead s.
Proof. intros H. unfold getCurrentHead, readFile. now rewrite H. Qed.

Lemma init_head (s : state) :
  files s !! headPath = None ->
  files (init s) !! headPath = None \/ files (init s) !! headPath = Some EmptyString.
Proof.
  intros Hh. unfold init, writeFile_wx. rewrite Hh. unfold writeFile.
  destruct (decide (headPath ∈ readonly s)); [now left|]. cbn [files readonly].
  rewrite lookup_insert_ne by apply head_not_index.
  destruct (files s !! indexPath); [right; apply lookup_insert_eq|].
  destruct (decide (indexPath ∈ readonly s)); cbn [files print];
    [right; apply lookup_insert_eq|].
  right. rewrite lookup_insert_ne by (intros E; exact (head_not_index (eq_sym E))).
  apply lookup_insert_eq.
Qed.

Lemma adds_head (fs : list string) (s : state) :
  files (adds fs s) !! headPath = files s !! headPath.
Proof.
  revert s. induction fs as [|f fs IH]; intros s; [reflexivity|].
  change (adds (f :: fs) s) with (adds fs (snd (add f s))). rewrite IH.
  apply add_frame; [apply head_not_index|].
  intros T _ E. exact (obj_path_not_head _ (eq_sym E)).
Qed.

(** C10: [getCurrentHead] gives [null] when the HEAD file is missing,
    empty or made of white space only.  Otherwise it gives the content
    of the file without the white space around it: the content is a
    prefix of white space, the text returned and a suffix of white
    space, and the text returned is not empty and has no white space at
    either end; in particular, for an id written as hexadecimal digits
    with white space around it, the id.  Consequently, in a repository
    initialized where no HEAD file was, the first commit that goes
    through after any number of calls of [add] stores a record whose
    parent is [null]. *)
Theorem getCurrentHead_normalizes (s : state) :
  (readFile headPath s = None -> getCurrentHead s = None)
  /\ (forall head, readFile headPath s = Some head -> Trim.only_ws head ->
      getCurrentHead s = None)
  /\ (forall head, readFile headPath s = Some head -> ~ Trim.only_ws head ->
      getCurrentHead s = Some (Trim.trim head)
      /\ exists w1 core w2,
           head = w1 +:+ core +:+ w2
           /\ Trim.only_ws w1 /\ Trim.only_ws w2
           /\ core <> EmptyString
           /\ ~ Trim.starts_ws core /\ ~ Trim.ends_ws core
           /\ getCurrentHead s = Some core)
  /\ (forall w1 id w2,
        readFile headPath s = Some (w1 +:+ id +:+ w2) ->
        Trim.only_ws w1 -> Trim.only_ws w2 ->
        Trim.all_hex id = true -> id <> EmptyString ->
        getCurrentHead s = Some id)
  /\ (readFile headPath s = None ->
      forall fs message now raw e es,
        let s1 := adds fs (init s) in
        readFile indexPath s1 = Some raw -> parse raw = Some (Arr (e :: es)) ->
        let data := commitData now message (Arr (e :: es)) None in
        let id := hashObject (stringify data) in
        obj_path id ∉ readonly s1 -> headPath ∉ readonly s1 -> indexPath ∉ readonly s1 ->
        readFile (obj_path id) (snd (commit message now s1)) = Some (stringify2 data)
        /\ get_prop "parent" data = Some (Some Null)).
Proof.
  split_and!.
  - intros H. rewrite getCurrentHead_spec. now rewrite H.
  - intros head H Hws. rewrite getCurrentHead_spec, H.
    now rewrite (proj2 (TrimFacts.trim_empty_iff head) Hws).
  - intros head H Hws.
    assert (getCurrentHead s = Some (Trim.trim head)) as Hhead.
    { rewrite getCurrentHead_spec, H.
      destruct (Trim.trim head) as [|c r] eqn:E; [|reflexivity].
      exfalso. apply Hws. now apply TrimFacts.trim_empty_iff. }
    split; [exact Hhead|].
    destruct (TrimFacts.trim_spec head) as (w1 & w2 & Hsplit & Hw1 & Hw2 & Hstart & Hend).
    exists w1, (Trim.trim head), w2. split_and!; try assumption.
    intros E. apply Hws. now apply TrimFacts.trim_empty_iff.
  - intros w1 id w2 H Hw1 Hw2 Hid Hne. rewrite getCurrentHead_spec, H.
    rewrite (TrimFacts.trim_around_hex w1 id w2 Hw1 Hw2 Hid).
    destruct id; [contradiction | reflexivity].
  - intros Hh fs message now raw e es s1 Hraw Hparse data id Ho Hhw Hi.
    assert (Hnone : getCurrentHead s1 = None).
    { rewrite (getCurrentHead_ext (init s) s1) by apply adds_head.
      rewrite getCurrentHead_spec. unfold readFile.
      destruct (init_head s Hh) as [-> | ->]; reflexivity. }
    pose proof (commit_success message now raw _ s1 Hraw Hparse eq_refl) as E.
    cbv zeta in E. rewrite Hnone in E. fold data in E. fold id in E.
    rewrite (E Ho Hhw Hi). split; [|reflexivity].
    unfold readFile. cbn [snd files].
    rewrite lookup_insert_ne by (intros H; exact (obj_path_not_index _ (eq_sym H))).
    rewrite lookup_insert_ne by (intros H; exact (obj_path_not_head _ (eq_sym H))).
    apply lookup_insert_eq.
Qed.

Lemma getCurrentHead_normalizes_witness :
  getCurrentHead (Scenario.edit headPath (" " +:+ hashObject "x" +:+ JSON.nl) Scenario.s_init)
  = Some (hashObject "x").
Proof.
  refine (proj1 (proj2 (proj2 (proj2 (getCurrentHead_normalizes _))))
            " " (hashObject "x") JSON.nl _ _ _ _ _).
  - unfold readFile, Scenario.edit. cbn [files]. apply lookup_insert_eq.
  - apply (Trim.only_ws_tok " " EmptyString); [|constructor].
    do 5 right. left. reflexivity.
  - apply (Trim.only_ws_tok JSON.nl EmptyString); [|constructor].
    right. left. reflexivity.
  - apply SHA1Facts.sha1_hex_all_hex.
  - intros E. pose proof (hashObject_nonempty "x") as H. rewrite E in H. discriminate H.
Defined.

(** *** The chain of commits *)

Lemma writable_of_empty (p : string) (s : state) : readonly s = ∅ -> p ∉ readonly s.
Proof. intros ->. apply not_elem_of_empty. Qed.

(** With no write-protected path, [commit] either stops before its
    first write or goes through. *)
Lemma commit_outcome (message now : string) (s : state) :
  readonly s = ∅ ->
  (exists line,
      commit message now s = (None, print line s)
      /\ (forall id, line <> success_line id))
  \/ (exists raw index,
         readFile indexPath s = Some raw /\ parse raw = Some index
         /\ let data := commitData now message index (getCurrentHead s) in
            let id := hashObject (stringify data) in
            commit message now s
            = (None,
               State (<[indexPath := empty_index]>
                        (<[headPath := id]> (<[obj_path id := stringify2 data]> (files s))))
                     (readonly s)
                     (writes s ++ [obj_path id; headPath; indexPath])
                     (console s ++ [success_line id]))).
Proof.
  intros Hro.
  destruct (readFile indexPath s) as [raw|] eqn:Hraw;
    [|left; unfold commit; rewrite Hraw; eexists; split; [reflexivity | discriminate]].
  destruct (parse raw) as [index|] eqn:Hparse;
    [|left; unfold commit; rewrite Hraw, Hparse; eexists; split; [reflexivity | discriminate]].
  destruct (length_is_zero index) eqn:Hlen.
  - left. unfold commit. rewrite Hraw, Hparse, Hlen. eexists; split; [reflexivity | discriminate].
  - left. unfold commit. rewrite Hraw, Hparse, Hlen. eexists; split; [reflexivity | discriminate].
  - right. exists raw, index.
    split; [first [reflexivity | assumption]|]. split; [first [reflexivity | assumption]|].
    apply (commit_success message now raw index s Hraw Hparse Hlen);
      now apply writable_of_empty.
Qed.

Lemma committed_stopped (message now line : string) (s : state) :
  commit message now s = (None, print line s) ->
  (forall id, line <> success_line id) ->
  committed message now s = None.
Proof.
  intros Hc Hne. unfold committed.
  destruct (readFile indexPath s) as [raw|]; [|reflexivity].
  destruct (parse raw) as [index|]; [|reflexivity].
  rewrite Hc. cbn [snd print console].
  destruct (decide _) as [E|]; [|reflexivity].
  apply app_inv_head in E. injection E as E. now apply Hne in E.
Qed.

Lemma committed_through (message now raw : string) (index : value) (s s' : state) :
  readFile indexPath s = Some raw -> parse raw = Some index ->
  let id := hashObject (stringify (commitData now message index (getCurrentHead s))) in
  commit message now s = (None, s') ->
  console s' = console s ++ [success_line id] ->
  committed message now s = Some id.
Proof.
  intros Hraw Hparse id Hc Hcon. unfold committed. rewrite Hraw, Hparse, Hc.
  cbn [snd]. fold id. now rewrite decide_True.
Qed.

Lemma is_chain_frame (s s' : state) (recs : list (string * value)) (h : option string) :
  (forall id, In id (List.map fst recs) ->
     files s' !! obj_path id = files s !! obj_path id) ->
  is_chain s h recs -> is_chain s' h recs.
Proof.
  revert h. induction recs as [|[id data] rest IH]; intros h Hsame; [exact id|].
  cbn [is_chain]. intros (Hh & Hobj & Hid & Hdata & Hparent & Hrest).
  split_and!; try assumption.
  - unfold readFile in *. rewrite Hsame; [assumption | now left].
  - apply IH; [|assumption]. intros id' Hin. apply Hsame. now right.
Qed.

Lemma is_chain_stored (s : state) (recs : list (string * value)) (h : option string) :
  is_chain s h recs ->
  forall id, In id (List.map fst recs) -> access (obj_path id) s = true.
Proof.
  revert h. induction recs as [|[id data] rest IH]; intros h Hc id' Hin; [destruct Hin|].
  destruct Hc as (_ & Hobj & _ & _ & _ & Hrest).
  destruct Hin as [<-|Hin].
  - apply access_true. eauto.
  - eapply IH; eassumption.
Qed.

Lemma is_chain_head (s : state) (recs : list (string * value)) (h : option string) :
  is_chain s h recs -> h = head (List.map fst recs).
Proof. destruct recs as [|[id data] rest]; [auto | now intros (-> & _)]. Qed.

Lemma add_keeps_stored (f q : string) (s : state) :
  readonly s = ∅ -> q <> indexPath -> access q s = true ->
  files (snd (add f s)) !! q = files s !! q.
Proof.
  intros Hro Hqi Hacc. destruct (readFile f s) as [T|] eqn:Hf.
  - destruct (add_step f T s Hf (or_intror (writable_of_empty _ s Hro)))
      as (_ & Hobj & Hframe & _).
    destruct (decide (q = obj_path (hashObject T))) as [->|Hne].
    + rewrite Hobj, Hacc. reflexivity.
    + now apply Hframe.
  - now rewrite add_unreadable.
Qed.

Lemma is_repo_path_obj (h : string) : is_repo_path (obj_path h) = true.
Proof. destruct h; reflexivity. Qed.

Lemma step_readonly (o : op) (s : state) : readonly s = ∅ -> readonly (step o s) = ∅.
Proof.
  intros Hro. destruct o as [f|m t|p c]; cbn [step].
  - now rewrite add_readonly.
  - destruct (commit_outcome m t s Hro) as [(line & -> & _)|(raw & index & _ & _ & ->)];
      exact Hro.
  - destruct (is_repo_path p); exact Hro.
Qed.

Lemma is_chain_parent (s : state) (h : option string) (recs : list (string * value)) :
  is_chain s h recs -> truthy (Some (from_option Str Null h)) = negb (bool_decide (h = None)).
Proof.
  destruct recs as [|[id data] rest]; cbn [is_chain].
  - intros ->. reflexivity.
  - intros (-> & _ & -> & _). reflexivity.
Qed.

(** The loop of [log] prints the records of a chain, newest first, and
    stops, within as many iterations as the chain has records. *)
Lemma log_loop_chain (recs : list (string * value)) :
  forall (s : state) (h : option string) (fuel : nat),
    is_chain s h recs -> length recs <= fuel ->
    log_loop fuel (Some (from_option Str Null h)) s
    = Some (State (files s) (readonly s) (writes s)
                  (console s ++ flat_map log_lines recs)).
Proof.
  induction recs as [|[id data] rest IH]; intros s h fuel Hc Hfuel.
  - cbn [is_chain] in Hc. subst h. cbn [flat_map]. rewrite app_nil_r.
    destruct fuel, s; reflexivity.
  - destruct fuel as [|fuel]; [cbn in Hfuel; lia|].
    pose proof Hc as (-> & Hobj & Hid & (now & message & index & Hwf & Hdata) & Hparent & Hrest).
    cbn [from_option log_loop].
    replace (truthy (Some (Str id))) with true by (rewrite Hid; reflexivity).
    unfold getCommitData. fold (obj_path id). rewrite Hobj.
    set (parent := head (List.map fst rest)) in *.
    assert (Hts : get_prop "timeStamp" data = Some (Some (Str now))) by now subst data.
    assert (Hmsg : get_prop "message" data = Some (Some (Str message))) by now subst data.
    assert (Hparse : parse (stringify2 data) = Some data)
      by (subst data; now apply parse_commitData).
    assert (Hmiss : missing (Some (stringify2 data)) = false) by now subst data.
    rewrite Hmiss. cbn [default from_option Datatypes.id]. rewrite Hparse, Hts, Hmsg, Hparent.
    rewrite (IH _ parent fuel).
    + unfold print. cbn [files readonly writes console flat_map].
      rewrite <- !app_assoc. unfold log_lines at 2. cbn [fst snd app].
      rewrite Hts, Hmsg. reflexivity.
    + eapply is_chain_frame; [|exact Hrest]. reflexivity.
    + cbn in Hfuel. lia.
Qed.

Lemma success_state_chain (message now raw : string) (index : value) (s : state)
    (recs : list (string * value)) :
  parse raw = Some index ->
  is_chain s (getCurrentHead s) recs ->
  let data := commitData now message index (getCurrentHead s) in
  let id := hashObject (stringify data) in
  ~ In id (List.map fst recs) ->
  let s1 := State (<[indexPath := empty_index]>
                     (<[headPath := id]> (<[obj_path id := stringify2 data]> (files s))))
                  (readonly s)
                  (writes s ++ [obj_path id; headPath; indexPath])
                  (console s ++ [success_line id]) in
  getCurrentHead s1 = Some id /\ is_chain s1 (Some id) ((id, data) :: recs).
Proof.
  intros Hparse Hc data id Hnew s1.
  assert (Hhead : getCurrentHead s1 = Some id).
  { rewrite getCurrentHead_spec. unfold readFile, s1. cbn [files].
    rewrite lookup_insert_ne by (intros E; exact (head_not_index (eq_sym E))).
    rewrite lookup_insert_eq. unfold id. now rewrite trim_hashObject. }
  split; [exact Hhead|].
  pose proof (is_chain_head _ _ _ Hc) as Hp.
  cbn [is_chain]. rewrite <- Hp. split_and!.
  - reflexivity.
  - unfold readFile, s1. cbn [files].
    rewrite lookup_insert_ne by (intros E; exact (obj_path_not_index _ (eq_sym E))).
    rewrite lookup_insert_ne by (intros E; exact (obj_path_not_head _ (eq_sym E))).
    apply lookup_insert_eq.
  - reflexivity.
  - exists now, message, index. split; [now apply (parse_wf raw) | reflexivity].
  - unfold data, commitData. cbn. now destruct (getCurrentHead s).
  - eapply is_chain_frame; [|exact Hc].
    intros id' Hin. unfold s1. cbn [files].
    rewrite lookup_insert_ne by (intros E; exact (obj_path_not_index _ (eq_sym E))).
    rewrite lookup_insert_ne by (intros E; exact (obj_path_not_head _ (eq_sym E))).
    apply lookup_insert_ne. intros E. apply obj_path_inj in E. congruence.
Qed.


(** *** The files of a commit against its parent *)

Lemma digest_at_none (p : string) (es : list (string * string)) :
  digest_at p es = None <-> ~ In p (List.map fst es).
Proof.
  induction es as [|[p' h] es IH]; cbn; [tauto|].
  destruct (String.eqb_spec p' p) as [->|Hne].
  - split; [discriminate | intros H; exfalso; apply H; now left].
  - rewrite IH. split; [intros H [E|Hin]; [congruence | contradiction] | tauto].
Qed.

Lemma find_path_digest (p : string) (es : list (string * string)) (i : nat) :
  match digest_at p es with
  | None => find_path (Some (Str p)) (List.map entry_of es) i = Some None
  | Some h' =>
      exists j, find_path (Some (Str p)) (List.map entry_of es) i = Some (Some (i + j))
                /\ List.map entry_of es !! j = Some (entry p h')
  end.
Proof.
  revert i. induction es as [|[p' h] es IH]; intros i; [reflexivity|].
  cbn [digest_at List.map find_path]. cbn.
  destruct (String.eqb_spec p' p) as [->|Hne].
  - exists 0. rewrite Nat.add_0_r. split; reflexivity.
  - specialize (IH (S i)). destruct (digest_at p es) as [h'|]; [|exact IH].
    destruct IH as (j & Hj & Hl). exists (S j). rewrite <- Nat.add_succ_comm. split; assumption.
Qed.

Lemma readFile_print (p l : string) (s : state) : readFile p (print l s) = readFile p s.
Proof. reflexivity. Qed.

Lemma print_parts (parts : list Diff.part) (s : state) :
  fold_left (fun st p => print (render p) st) parts s
  = State (files s) (readonly s) (writes s) (console s ++ List.map render parts).
Proof.
  revert s. induction parts as [|x parts IH]; intros s; cbn [fold_left List.map].
  - rewrite app_nil_r. now destruct s.
  - rewrite IH. unfold print. cbn [files readonly writes console].
    now rewrite <- app_assoc.
Qed.

(** C9: the classification of a file of a commit.  For a record written
    by [commit] whose objects and parent commit are in the store, and a
    path [p] with digest [h] among its entries, the loop body of
    [showCommitDiff] prints the path and the content, and then: the
    line of the first commit when the record has no parent; the line of
    a new file when the parent has no entry for [p]; and otherwise,
    and only then, the parts of the line diff between the content the
    parent has for [p] and the content of the commit. *)
Theorem show_file_classifies (s : state) (data : value) (es : list (string * string))
    (parent : option (string * list (string * string))) (p h : string) :
  stored_commit s data es parent -> In (p, h) es ->
  exists content tail,
    readFile (obj_path h) s = Some content
    /\ show_file data (entry_of (p, h)) s
       = Returned (State (files s) (readonly s) (writes s)
                     (console s ++ [nl +:+ "File: " +:+ p; content] ++ tail))
    /\ match parent with
       | None => tail = ["First commit"]
       | Some (ph, pes) =>
           match digest_at p pes with
           | None => ~ In p (List.map fst pes) /\ tail = ["New file in this commit"]
           | Some h' =>
               In p (List.map fst pes)
               /\ exists parentContent,
                    readFile (obj_path h') s = Some parentContent
                    /\ tail = List.map render (Diff.diffLines parentContent content)
                                ++ [EmptyString]
           end
       end.
Proof.
  intros ((now & message & Hdata) & Hes & Hparent) Hin.
  destruct (Hes p h Hin) as [content Hcontent].
  unfold show_file, entry_of, entry. cbn [fst snd].
  cbn -[parse stringify2 Diff.diffLines getParentFileContent getCommitData
        getFileContent print nl String.append].
  unfold getFileContent at 1. fold (obj_path h). rewrite !readFile_print.
  rewrite Hcontent. cbn [default from_option Datatypes.id to_string text_of].
  assert (Hp : get_prop "parent" data = Some (Some (from_option Str Null (fst <$> parent))))
    by (subst data; cbn; now destruct parent).
  rewrite Hp. destruct parent as [[ph pes]|]; cbn [fmap option_fmap option_map fst from_option].
  - destruct Hparent as (Hph & Hpes & pnow & pmessage & pparent & Hpobj).
    cbn [truthy]. rewrite Hph. cbn [negb].
    unfold getCommitData. fold (obj_path ph).
    rewrite !readFile_print. rewrite Hpobj.
    replace (missing (Some (stringify2 (commitData pnow pmessage (Arr (List.map entry_of pes)) pparent))))
      with false by reflexivity.
    cbn [default from_option Datatypes.id].
    rewrite (parse_commitData _ _ _ _ (entries_wf pes)).
    unfold getParentFileContent.
    change (get_prop "files" (commitData pnow pmessage (Arr (List.map entry_of pes)) pparent))
      with (Some (Some (Arr (List.map entry_of pes)))).
    cbn iota beta.
    pose proof (find_path_digest p pes 0) as Hfind.
    destruct (digest_at p pes) as [h'|] eqn:Hd.
    + destruct Hfind as (j & -> & Hj). cbn [Nat.add]. rewrite Hj.
      assert (Hin' : In (p, h') pes).
      { clear -Hd. induction pes as [|[p' h0] pes IH]; [discriminate|].
        cbn in Hd. destruct (String.eqb_spec p' p) as [->|Hne].
        - injection Hd as ->. now left.
        - right. auto. }
      destruct (Hpes p h' Hin') as [pc Hpc].
      cbn [truthy entry]. change (lookup_field "hash" [("path", Str p); ("hash", Str h')])
        with (Some (Str h')).
      cbn iota beta. unfold getFileContent. fold (obj_path h').
      rewrite !readFile_print.
      rewrite Hpc.
      exists content, (List.map render (Diff.diffLines pc content) ++ [EmptyString]).
      split; [reflexivity | split].
      * rewrite print_parts. unfold print. cbn [files readonly writes console].
        rewrite <- !app_assoc. reflexivity.
      * split; [|exists pc; split; reflexivity].
        destruct (in_dec string_dec p (List.map fst pes)) as [H|H]; [exact H|].
        apply digest_at_none in H. congruence.
    + rewrite Hfind. exists content, ["New file in this commit"].
      split; [reflexivity | split; [| split; [now apply digest_at_none | reflexivity]]].
      unfold print. cbn [files readonly writes console]. rewrite <- !app_assoc. reflexivity.
  - exists content, ["First commit"]. split; [reflexivity | split; [| reflexivity]].
    cbn [truthy]. unfold print. cbn [files readonly writes console].
    rewrite <- !app_assoc. reflexivity.
Qed.

Lemma show_file_classifies_witness :
  let s := Scenario.s_second in
  let id1 := "da5387147ca9f7ffdba502c06ead871e78a5a319" in
  let es := [("a.txt", hashObject "hello world"); ("b.txt", hashObject "new")] in
  let pes := [("a.txt", hashObject "hello")] in
  let data := commitData Scenario.t2 "second" (Arr (List.map entry_of es)) (Some id1) in
  exists content tail,
    readFile (obj_path (hashObject "new")) s = Some content
    /\ show_file data (entry_of ("b.txt", hashObject "new")) s
       = Returned (State (files s) (readonly s) (writes s)
                     (console s ++ [nl +:+ "File: " +:+ "b.txt"; content] ++ tail))
    /\ match Some (id1, pes) with
       | None => tail = ["First commit"]
       | Some (ph, pes) =>
           match digest_at "b.txt" pes with
           | None => ~ In "b.txt" (List.map fst pes) /\ tail = ["New file in this commit"]
           | Some h' =>
               In "b.txt" (List.map fst pes)
               /\ exists parentContent,
                    readFile (obj_path h') s = Some parentContent
                    /\ tail = List.map render (Diff.diffLines parentContent content)
                                ++ [EmptyString]
           end
       end.
Proof.
  intros s id1 es pes data.
  apply (show_file_classifies s data es (Some (id1, pes)) "b.txt" (hashObject "new")).
  - split; [exists Scenario.t2, "second"; reflexivity|]. split; [|split; [reflexivity|split]].
    + intros p h [[= <- <-]|[[= <- <-]|[]]]; eexists; vm_compute; reflexivity.
    + intros p h [[= <- <-]|[]]; eexists; vm_compute; reflexivity.
    + exists Scenario.t1, "first", None. vm_compute. reflexivity.
  - right. left. reflexivity.
Defined.

Example show_second_commit :
  match showCommitDiff (default EmptyString (getCurrentHead Scenario.s_second))
          Scenario.s_second with
  | Returned s' =>
      skipn (length (console Scenario.s_second)) (console s')
      = [ "Changes in the commit are:";
          nl +:+ "File: a.txt"; "hello world";
          "--hello"; "++hello world"; EmptyString;
          nl +:+ "File: b.txt"; "new";
          "New file in this commit" ]
  | Threw _ => False
  end.
Proof. vm_compute. reflexivity. Qed.

(** *** Every commit of a run is a stored commit *)

(** Objects are never removed. *)
Lemma step_keeps_objects (o : op) (s : state) (h c : string) :
  readonly s = ∅ ->
  readFile (obj_path h) s = Some c ->
  exists c', readFile (obj_path h) (step o s) = Some c'.
Proof.
  intros Hro Hc. unfold readFile in *. destruct o as [f|m t|p c0]; cbn [step].
  - rewrite add_keeps_stored; [eauto | exact Hro | apply obj_path_not_index|].
    apply access_true. eauto.
  - destruct (commit_outcome m t s Hro) as [(line & -> & _)|(raw & index & _ & _ & ->)];
      cbn [snd print files]; [eauto|].
    rewrite lookup_insert_ne by (intros E; exact (obj_path_not_index _ (eq_sym E))).
    rewrite lookup_insert_ne by (intros E; exact (obj_path_not_head _ (eq_sym E))).
    match goal with |- context [<[?k := ?v]> _ !! _] =>
      destruct (decide (k = obj_path h)) as [->|Hne] end.
    + rewrite lookup_insert_eq. eauto.
    + rewrite lookup_insert_ne by assumption. eauto.
  - destruct (is_repo_path p) eqn:Hp; [eauto|]. cbn [files].
    rewrite lookup_insert_ne; [eauto|]. intros ->. rewrite is_repo_path_obj in Hp. discriminate.
Qed.

Lemma stored_entries_mono (s s' : state) (es : list (string * string)) :
  (forall h c, readFile (obj_path h) s = Some c ->
     exists c', readFile (obj_path h) s' = Some c') ->
  stored_entries s es -> stored_entries s' es.
Proof. intros Hmono Hes p h Hin. destruct (Hes p h Hin) as [c Hc]. eauto. Qed.

Lemma history_frame (s s' : state) (recs : list (string * value))
    (ess : list (list (string * string))) :
  (forall id, In id (List.map fst recs) ->
     files s' !! obj_path id = files s !! obj_path id) ->
  (forall h c, readFile (obj_path h) s = Some c ->
     exists c', readFile (obj_path h) s' = Some c') ->
  history s recs ess -> history s' recs ess.
Proof.
  revert ess. induction recs as [|[id data] rest IH]; intros [|es ess] Hsame Hmono;
    cbn [history]; try tauto.
  intros [(Hdata & Hes & Hparent) Hrest]. split.
  - split; [exact Hdata|]. split; [eapply stored_entries_mono; eassumption|].
    destruct rest as [|[ph pdata] rest'], ess as [|pes ess']; cbn [parent_info] in *; try exact I.
    destruct Hparent as (Hph & Hpes & pnow & pmessage & pparent & Hpobj).
    split; [exact Hph|]. split; [eapply stored_entries_mono; eassumption|].
    exists pnow, pmessage, pparent. unfold readFile in *.
    rewrite Hsame; [exact Hpobj|]. right. now left.
  - apply IH; [|exact Hmono|exact Hrest]. intros id' Hin. apply Hsame. now right.
Qed.

Lemma history_length (s : state) (recs : list (string * value))
    (ess : list (list (string * string))) :
  history s recs ess -> length ess = length recs.
Proof.
  revert ess. induction recs as [|[id data] rest IH]; intros [|es ess]; cbn [history];
    try contradiction; [reflexivity|].
  intros [_ H]. cbn. now rewrite (IH _ H).
Qed.

Lemma parent_info_id (s : state) (recs : list (string * value))
    (ess : list (list (string * string))) :
  history s recs ess -> fst <$> parent_info recs ess = head (List.map fst recs).
Proof.
  destruct recs as [|[id data] rest], ess as [|es ess]; cbn [history]; tauto.
Qed.

Lemma stage_spec_in (f d p h : string) (es : list (string * string)) :
  In (p, h) (stage_spec f d es) -> In (p, h) es \/ (p, h) = (f, d).
Proof.
  induction es as [|[p' d'] es IH]; cbn [stage_spec].
  - intros [E|[]]. now right.
  - destruct (String.eqb p' f).
    + intros [E|Hin]; [now right | left; now right].
    + intros [E|Hin]; [left; now left|]. destruct (IH Hin); [left; now right | now right].
Qed.

(** [add] keeps the index an index of entries whose objects are stored. *)
Lemma add_index (f : string) (s : state) (es : list (string * string)) :
  readonly s = ∅ -> index_holds s es -> stored_entries s es ->
  exists es', index_holds (snd (add f s)) es' /\ stored_entries (snd (add f s)) es'.
Proof.
  intros Hro Hidx Hes.
  assert (Hmono : forall h c, readFile (obj_path h) s = Some c ->
            exists c', readFile (obj_path h) (snd (add f s)) = Some c').
  { intros h c Hc. exact (step_keeps_objects (Add f) s h c Hro Hc). }
  destruct (readFile f s) as [T|] eqn:Hf.
  - exists (stage_spec f (hashObject T) es). split.
    + rewrite (add_readable f T s Hf (or_intror (writable_of_empty _ s Hro))).
      match goal with |- index_holds (print _ (updateStagingArea _ _ ?s2)) _ =>
        assert (Hidx2 : index_holds s2 es) end.
      { destruct Hidx as (raw & Hraw & Hparse). exists raw. split; [|exact Hparse].
        unfold readFile in *. cbn [files].
        destruct (access _ s); [exact Hraw|].
        rewrite lookup_insert_ne by apply obj_path_not_index. exact Hraw. }
      pose proof (index_holds_after f (hashObject T) _ es Hidx2
                    ltac:(cbn [readonly]; now apply writable_of_empty)) as (raw & Hraw & Hparse).
      exists raw. split; [exact Hraw | exact Hparse].
    + intros p h Hin. apply stage_spec_in in Hin as [Hin|[= -> ->]].
      * destruct (Hes p h Hin) as [c Hc]. eauto.
      * destruct (add_step f T s Hf (or_intror (writable_of_empty _ s Hro))) as (_ & Hobj & _).
        unfold readFile. rewrite Hobj. unfold access.
        destruct (files s !! obj_path (hashObject T)); eauto.
  - exists es. rewrite add_unreadable by assumption. split; [exact Hidx|].
    eapply stored_entries_mono; [|exact Hes]. intros h c Hc. eauto.
Qed.

Lemma index_holds_ext (s s' : state) (es : list (string * string)) :
  files s' !! indexPath = files s !! indexPath -> index_holds s es -> index_holds s' es.
Proof.
  intros E (raw & Hraw & Hparse). exists raw. unfold readFile in *. now rewrite E.
Qed.

(** Along a run, the index holds entries whose objects are stored, and
    every record of the chain from HEAD is a stored commit. *)
Lemma run_history (ops : list op) :
  forall (s : state) (recs : list (string * value)) (ess : list (list (string * string)))
         (es : list (string * string)),
    readonly s = ∅ ->
    is_chain s (getCurrentHead s) recs ->
    history s recs ess ->
    index_holds s es -> stored_entries s es ->
    NoDup (run_ids ops s ++ List.map fst recs) ->
    exists recs' ess',
      is_chain (run ops s) (getCurrentHead (run ops s)) recs'
      /\ List.map fst recs' = rev (run_ids ops s) ++ List.map fst recs
      /\ history (run ops s) recs' ess'.
Proof.
  induction ops as [|o ops IH]; intros s recs ess es Hro Hc Hh Hidx Hes Hnd.
  - exists recs, ess. split_and!; [exact Hc | reflexivity | exact Hh].
  - pose proof (step_readonly o s Hro) as Hro'.
    assert (Hmono : forall h c, readFile (obj_path h) s = Some c ->
              exists c', readFile (obj_path h) (step o s) = Some c').
    { intros h c. now apply step_keeps_objects. }
    destruct o as [f|m t|p c]; cbn [run run_ids] in *.
    + assert (Hsame : forall id, In id (List.map fst recs) ->
                files (snd (add f s)) !! obj_path id = files s !! obj_path id).
      { intros id Hin. apply add_keeps_stored; [exact Hro | apply obj_path_not_index|].
        eapply is_chain_stored; eassumption. }
      destruct (add_index f s es Hro Hidx Hes) as (es' & Hidx' & Hes').
      apply (IH _ recs ess es');
        [exact Hro' | | | exact Hidx' | exact Hes' | exact Hnd].
      * cbn [step]. rewrite (getCurrentHead_ext s (snd (add f s))).
        -- eapply is_chain_frame; [exact Hsame | exact Hc].
        -- apply add_frame; [apply head_not_index|].
           intros T _ E. exact (obj_path_not_head _ (eq_sym E)).
      * eapply history_frame; [exact Hsame | exact Hmono | exact Hh].
    + destruct (commit_outcome m t s Hro)
        as [(line & Hcm & Hline)|(raw & index & Hraw & Hparse & Hcm)].
      * rewrite (committed_stopped m t line s Hcm Hline) in Hnd |- *.
        cbn [step] in *. rewrite Hcm in *. cbn [snd] in *.
        apply (IH _ recs ess es);
          [exact Hro' | | | exact Hidx | | exact Hnd].
        -- rewrite (getCurrentHead_ext s (print line s)) by reflexivity.
           eapply is_chain_frame; [|exact Hc]. reflexivity.
        -- eapply history_frame; [| |exact Hh]; [reflexivity | eauto].
        -- eapply stored_entries_mono; [|exact Hes]. eauto.
      * cbv zeta in Hcm.
        rewrite (committed_through m t raw index s _ Hraw Hparse Hcm eq_refl) in Hnd |- *.
        cbn [step] in *. rewrite Hcm in *. cbn [snd] in *.
        cbn [app] in Hnd. pose proof Hnd as [Hnew Hnd']%NoDup_cons.
        assert (Hnew' : ~ In (hashObject (stringify (commitData t m index (getCurrentHead s))))
                          (List.map fst recs)).
        { intros Hin. apply Hnew. apply elem_of_app. right. now apply list_elem_of_In. }
        destruct (success_state_chain m t raw index s recs Hparse Hc Hnew') as [Hhd Hc1].
        assert (Hindex : index = Arr (List.map entry_of es)).
        { destruct Hidx as (raw' & Hraw' & Hparse'). congruence. }
        match type of Hc1 with is_chain ?s1 _ _ =>
          assert (Hsame : forall id, In id (List.map fst recs) ->
                    files s1 !! obj_path id = files s !! obj_path id) end.
        { intros id Hin. cbn [files].
          rewrite lookup_insert_ne by (intros E; exact (obj_path_not_index _ (eq_sym E))).
          rewrite lookup_insert_ne by (intros E; exact (obj_path_not_head _ (eq_sym E))).
          apply lookup_insert_ne. intros E. apply obj_path_inj in E. congruence. }
        destruct (IH _ ((_, _) :: recs) (es :: ess) [] Hro'
                    ltac:(rewrite Hhd; exact Hc1)) as (recs' & ess' & Hc' & Hids & Hh').
        -- cbn [history]. split; [|eapply history_frame; [exact Hsame | exact Hmono | exact Hh]].
           split; [|split].
           ++ exists t, m. rewrite (parent_info_id s recs ess Hh), <- (is_chain_head _ _ _ Hc).
              now rewrite Hindex.
           ++ eapply stored_entries_mono; [exact Hmono | exact Hes].
           ++ destruct recs as [|[ph pdata] rest], ess as [|pes ess0];
                cbn [parent_info history] in *; try exact I; try contradiction.
              destruct Hh as [((pnow & pmessage & Hpdata) & Hpes & _) _].
              destruct Hc as (_ & Hpobj & Hpid & _).
              split; [rewrite Hpid; reflexivity|].
              split; [eapply stored_entries_mono; [exact Hmono | exact Hpes]|].
              exists pnow, pmessage, (fst <$> parent_info rest ess0).
              unfold readFile in *. rewrite Hsame by now left.
              now rewrite <- Hpdata.
        -- exists empty_index. split; [apply lookup_insert_eq | reflexivity].
        -- intros p h [].
        -- cbn [List.map fst]. now rewrite <- Permutation_middle.
        -- exists recs', ess'. split_and!; [exact Hc' | | exact Hh'].
           rewrite Hids. cbn [List.map fst rev]. rewrite <- app_assoc. reflexivity.
    + cbn [step] in *. destruct (is_repo_path p) eqn:Hp; [now apply (IH _ recs ess es)|].
      assert (Hsame : forall q, is_repo_path q = true ->
                <[p := c]> (files s) !! q = files s !! q).
      { intros q Hq. apply lookup_insert_ne. intros ->. congruence. }
      apply (IH _ recs ess es); [exact Hro' | | | | | exact Hnd].
      * rewrite (getCurrentHead_ext s) by (cbn [files]; now apply Hsame).
        eapply is_chain_frame; [|exact Hc]. intros id Hin. cbn [files].
        apply Hsame, is_repo_path_obj.
      * eapply history_frame; [| exact Hmono | exact Hh]. intros id Hin. cbn [files].
        apply Hsame, is_repo_path_obj.
      * eapply index_holds_ext; [|exact Hidx]. cbn [files]. now apply Hsame.
      * eapply stored_entries_mono; [exact Hmono | exact Hes].
Qed.

Lemma init_fresh (w : state) :
  fresh w ->
  init w = State (<[indexPath := empty_index]> (<[headPath := EmptyString]> (files w)))
                 (readonly w) (writes w ++ [headPath; indexPath]) (console w).
Proof.
  intros (Hh & Hi & Hro). unfold init, writeFile_wx, readFile in *. rewrite Hh.
  rewrite writeFile_ok by now apply writable_of_empty. cbn [files].
  rewrite lookup_insert_ne by apply head_not_index. rewrite Hi.
  rewrite writeFile_ok by (cbn [readonly]; now apply writable_of_empty).
  cbn [files readonly writes console]. now rewrite <- app_assoc.
Qed.

(** The hypothesis of the classification above holds for every commit
    the tool creates: after any run on a freshly initialized repository in
    which no two commits got the same id, the records of the chain
    from HEAD are stored commits. *)
Theorem commits_of_a_run_are_stored (w : state) (ops : list op) :
  fresh w ->
  NoDup (run_ids ops (init w)) ->
  let s := run ops (init w) in
  exists recs ess,
    List.map fst recs = rev (run_ids ops (init w))
    /\ is_chain s (getCurrentHead s) recs
    /\ history s recs ess.
Proof.
  intros Hw Hnd s. pose proof (init_fresh w Hw) as Hinit.
  destruct Hw as (Hh & Hi & Hro).
  assert (Hhead : getCurrentHead (init w) = None).
  { rewrite Hinit, getCurrentHead_spec. unfold readFile. cbn [files].
    rewrite lookup_insert_ne by (intros E; exact (head_not_index (eq_sym E))).
    now rewrite lookup_insert_eq. }
  destruct (run_history ops (init w) [] [] []) as (recs & ess & Hc & Hids & Hhist).
  - now rewrite Hinit.
  - now rewrite Hhead.
  - exact I.
  - exists empty_index. rewrite Hinit. split; [apply lookup_insert_eq | reflexivity].
  - intros p h [].
  - now rewrite app_nil_r.
  - exists recs, ess. cbn [List.map] in Hids. rewrite app_nil_r in Hids. auto.
Qed.

(** *** [log] *)

(** C7: parent-chain integrity.  Take any run of commands and edits of
    the working tree on a freshly initialized repository, with no
    write-protected path, in which no two created commits got the same
    id.  After it, HEAD leads a chain of exactly the commits created,
    newest first: each record is stored under its id, the parent of
    each is the id of the commit created before it, and the parent of
    the first one is [null].  [log] visits exactly these records, in
    this order, and stops, within as many iterations as commits were
    created. *)
Theorem log_walks_the_chain (ops : list op) (w : state) :
  fresh w ->
  let s := run ops (init w) in
  let ids := run_ids ops (init w) in
  NoDup ids ->
  exists recs,
    List.map fst recs = rev ids
    /\ length recs = length ids
    /\ is_chain s (getCurrentHead s) recs
    /\ forall fuel, length ids <= fuel ->
         log fuel s
         = Some (State (files s) (readonly s) (writes s)
                   (console s ++ match recs with
                                 | [] => ["No commits yet."]
                                 | _ => flat_map log_lines recs
                                 end)).
Proof.
  intros Hw s ids Hnd.
  destruct (commits_of_a_run_are_stored w ops Hw Hnd) as (recs & _ & Hids & Hc & _).
  fold s in Hc. fold ids in Hids.
  assert (Hlen : length recs = length ids).
  { rewrite <- (length_map fst recs), Hids. apply length_rev. }
  exists recs. split_and!; try assumption.
  intros fuel Hfuel. unfold log.
  destruct recs as [|[id data] rest].
  - cbn [is_chain] in Hc. rewrite Hc. reflexivity.
  - pose proof Hc as (Hh & _). rewrite Hh.
    rewrite Hh in Hc.
    apply (log_loop_chain ((id, data) :: rest) s (Some id) fuel Hc). lia.
Qed.

Lemma log_walks_the_chain_witness :
  exists recs,
    List.map fst recs = rev (run_ids Scenario.two_commits (init Scenario.worktree))
    /\ length recs = length (run_ids Scenario.two_commits (init Scenario.worktree))
    /\ is_chain Scenario.s_second (getCurrentHead Scenario.s_second) recs
    /\ forall fuel, length (run_ids Scenario.two_commits (init Scenario.worktree)) <= fuel ->
         log fuel Scenario.s_second
         = Some (State (files Scenario.s_second) (readonly Scenario.s_second)
                   (writes Scenario.s_second)
                   (console Scenario.s_second
                      ++ match recs with
                         | [] => ["No commits yet."]
                         | _ => flat_map log_lines recs
                         end)).
Proof.
  apply (log_walks_the_chain Scenario.two_commits Scenario.worktree).
  - split_and!; vm_compute; reflexivity.
  - apply (bool_decide_unpack _). vm_compute. exact I.
Defined.

Example run_ids_two_commits :
  run_ids Scenario.two_commits Scenario.s_init
  = ["da5387147ca9f7ffdba502c06ead871e78a5a319";
     hashObject (stringify
       (commitData Scenario.t2 "second"
          (Arr [entry "a.txt" (hashObject "hello world"); entry "b.txt" (hashObject "new")])
          (Some "da5387147ca9f7ffdba502c06ead871e78a5a319")))].
Proof. vm_compute. reflexivity. Qed.

(** ** Further properties of the methods *)

(** *** [init] *)

Lemma init_spec (s : state) :
  init s
  = let again := print "Already initialized .zit folder" in
    match files s !! headPath with
    | Some _ => again s
    | None =>
        if decide (headPath ∈ readonly s) then again s
        else
          let s1 := State (<[headPath := EmptyString]> (files s)) (readonly s)
                          (writes s ++ [headPath]) (console s) in
          match files s !! indexPath with
          | Some _ => again s1
          | None =>
              if decide (indexPath ∈ readonly s) then again s1
              else State (<[indexPath := empty_index]> (files s1)) (readonly s)
                         (writes s ++ [headPath; indexPath]) (console s)
          end
    end.
Proof.
  unfold init, writeFile_wx, writeFile.
  destruct (files s !! headPath); [reflexivity|].
  destruct (decide (headPath ∈ readonly s)); [reflexivity|].
  cbn [files readonly writes console].
  rewrite lookup_insert_ne by discriminate.
  destruct (files s !! indexPath); [reflexivity|].
  destruct (decide (indexPath ∈ readonly s)); [reflexivity|].
  cbn zeta. rewrite <- app_assoc. reflexivity.
Qed.

Lemma init_again (s : state) :
  files s !! headPath <> None \/ headPath ∈ readonly s ->
  init s = print "Already initialized .zit folder" s.
Proof.
  intros H. rewrite init_spec. cbn zeta.
  destruct (files s !! headPath); [reflexivity|].
  destruct H as [H|H]; [congruence|].
  destruct (decide (headPath ∈ readonly s)); [reflexivity | contradiction].
Qed.

Lemma init_done (s : state) :
  files (init s) !! headPath <> None \/ headPath ∈ readonly (init s).
Proof.
  rewrite init_spec. cbn zeta.
  destruct (files s !! headPath) eqn:Hh; [left; cbn [print files]; congruence|].
  destruct (decide (headPath ∈ readonly s)) as [Hr|Hr]; [right; exact Hr|].
  left.
  destruct (files s !! indexPath); [|destruct (decide (indexPath ∈ readonly s))];
    cbn [print files];
    rewrite ?(lookup_insert_ne _ indexPath headPath) by discriminate;
    rewrite lookup_insert_eq; discriminate.
Qed.

(** X1: [init] changes no file that exists and touches no path but
    HEAD and the index.  On a fresh working tree it creates an empty
    HEAD and an index holding the empty list, and prints nothing.  A
    second [init] changes no file and prints
    "Already initialized .zit folder". *)
Theorem init_keeps_files (s : state) :
  (forall p c, readFile p s = Some c -> readFile p (init s) = Some c)
  /\ (forall p, p <> headPath -> p <> indexPath -> readFile p (init s) = readFile p s)
  /\ (fresh s ->
      readFile headPath (init s) = Some EmptyString
      /\ readFile indexPath (init s) = Some empty_index
      /\ parse empty_index = Some (Arr [])
      /\ console (init s) = console s)
  /\ files (init (init s)) = files (init s)
  /\ console (init (init s)) = console (init s) ++ ["Already initialized .zit folder"].
Proof.
  split_and!.
  - intros p c Hp. unfold readFile in *. rewrite init_spec. cbn zeta.
    destruct (files s !! headPath) eqn:Hh; [exact Hp|].
    destruct (decide (headPath ∈ readonly s)); [exact Hp|].
    assert (p <> headPath) as Hph by congruence.
    destruct (files s !! indexPath) eqn:Hi.
    + cbn [print files]. rewrite lookup_insert_ne by congruence. exact Hp.
    + assert (p <> indexPath) as Hpi by congruence.
      destruct (decide (indexPath ∈ readonly s)); cbn [print files];
        rewrite !lookup_insert_ne by congruence; exact Hp.
  - intros p Hph Hpi. unfold readFile. rewrite init_spec. cbn zeta.
    destruct (files s !! headPath) eqn:Hh; [reflexivity|].
    destruct (decide (headPath ∈ readonly s)); [reflexivity|].
    destruct (files s !! indexPath) eqn:Hi;
      [|destruct (decide (indexPath ∈ readonly s))]; cbn [print files];
      rewrite !lookup_insert_ne by congruence; reflexivity.
  - intros Hf. rewrite (init_fresh s Hf). unfold readFile. cbn [files console].
    split_and!.
    + rewrite lookup_insert_ne by discriminate. apply lookup_insert_eq.
    + apply lookup_insert_eq.
    + exact parse_empty_index.
    + reflexivity.
  - rewrite (init_again _ (init_done s)). reflexivity.
  - rewrite (init_again _ (init_done s)). reflexivity.
Qed.

Lemma init_keeps_files_witness :
  readFile "a.txt" (init Scenario.worktree) = Some "hello"
  /\ readFile headPath (init Scenario.worktree) = Some EmptyString
  /\ files (init (init Scenario.worktree)) = files (init Scenario.worktree).
Proof.
  destruct (init_keeps_files Scenario.worktree) as (H1 & _ & H3 & H4 & _).
  split_and!.
  - apply H1. reflexivity.
  - apply H3. unfold fresh. split_and!; reflexivity.
  - exact H4.
Defined.
(** X2: when HEAD exists, [init] does nothing but print
    "Already initialized .zit folder", whatever the state of the index
    file.  A repository that lost its index is not repaired: the index
    is still missing after [init], and [commit] fails there with
    "Failed to create commit:" and writes nothing. *)
Theorem init_does_not_repair (s : state) (head : string) :
  readFile headPath s = Some head ->
  init s = print "Already initialized .zit folder" s
  /\ (readFile indexPath s = None ->
      readFile indexPath (init s) = None
      /\ forall message now,
           snd (commit message now (init s)) = print "Failed to create commit:" (init s)).
Proof.
  intros Hh.
  assert (init s = print "Already initialized .zit folder" s) as E.
  { apply init_again. left. unfold readFile in Hh. congruence. }
  split; [exact E|].
  intros Hi. rewrite E. split; [exact Hi|].
  intros message now. unfold commit.
  rewrite readFile_print, Hi. reflexivity.
Qed.

Lemma init_does_not_repair_witness :
  let s := State {[ headPath := EmptyString ]} ∅ [] [] in
  init s = print "Already initialized .zit folder" s
  /\ readFile indexPath (init s) = None
  /\ snd (commit "first" Scenario.t1 (init s)) = print "Failed to create commit:" (init s).
Proof.
  intros s.
  destruct (init_does_not_repair s EmptyString eq_refl) as [H1 H2].
  destruct (H2 eq_refl) as [H3 H4].
  split_and!; [exact H1 | exact H3 | apply H4].
Defined.

(** *** [hashObject] *)

Lemma be_bytes_length (n : nat) (x : Z) : length (SHA1.be_bytes n x) = n.
Proof. induction n as [|n IH]; simpl; [reflexivity | now rewrite IH]. Qed.

Lemma hex_length (bs : list Z) : String.length (SHA1.hex bs) = 2 * length bs.
Proof. induction bs as [|b bs IH]; simpl; [reflexivity | rewrite IH; lia]. Qed.

(** X3: the digest [hashObject] returns is, for every content, a text of
    40 characters among [0-9a-f]; it is never empty and [trim] leaves
    it as it is. *)
Theorem hashObject_shape (content : string) :
  String.length (hashObject content) = 40
  /\ Trim.all_hex (hashObject content) = true
  /\ is_empty (hashObject content) = false
  /\ Trim.trim (hashObject content) = hashObject content.
Proof.
  split_and!.
  - unfold hashObject, SHA1.sha1_hex, SHA1.digest.
    rewrite hex_length, !length_app, !be_bytes_length. reflexivity.
  - apply SHA1Facts.sha1_hex_all_hex.
  - apply hashObject_nonempty.
  - apply trim_hashObject.
Qed.
(** *** [add] *)

Lemma add_spec (f : string) (s : state) :
  snd (add f s)
  = match readFile f s with
    | None => print (add_failure_line f) s
    | Some T =>
        let d := hashObject T in
        let o := obj_path d in
        let s1 := print (hash_line d) s in
        if access o s
        then print ("Added " +:+ f +:+ " to staging area.")
               (updateStagingArea f d (print "File content already stored." s1))
        else if decide (o ∈ readonly s)
        then print (add_failure_line f) s1
        else print ("Added " +:+ f +:+ " to staging area.")
               (updateStagingArea f d
                  (State (<[o := T]> (files s)) (readonly s) (writes s ++ [o])
                         (console s1)))
    end.
Proof.
  unfold add, add_failure_line, hash_line, obj_path; cbn [snd].
  destruct (readFile f s) as [T|]; [|reflexivity].
  cbn zeta. unfold access, writeFile. cbn [print files readonly writes console].
  destruct (files s !! path_join objectsPath (hashObject T)); [reflexivity|].
  destruct (decide (path_join objectsPath (hashObject T) ∈ readonly s)); reflexivity.
Qed.

Lemma last_print (l : string) (s : state) : last (console (print l s)) = Some l.
Proof. unfold print; cbn [console]. apply last_snoc. Qed.

Lemma added_not_failure (f : string) :
  "Added " +:+ f +:+ " to staging area." <> add_failure_line f.
Proof. unfold add_failure_line. simpl. discriminate. Qed.

Lemma updateStagingArea_files (p h q : string) (s : state) :
  files (updateStagingArea p h s) !! q = files s !! q
  \/ (q = indexPath
      /\ exists raw index index',
           files s !! indexPath = Some raw /\ parse raw = Some (Arr index)
           /\ files (updateStagingArea p h s) !! q = Some (stringify2 (Arr index'))).
Proof.
  destruct (decide (q = indexPath)) as [->|Hq];
    [|left; apply updateStagingArea_frame; exact Hq].
  unfold updateStagingArea, readFile.
  destruct (files s !! indexPath) as [raw|] eqn:Hi; [|left; cbn; exact Hi].
  destruct (parse raw) as [[| | |index|]|] eqn:Hp; try (left; cbn; exact Hi).
  destruct (find_path (Some (Str p)) index 0) as [e|]; [|left; cbn; exact Hi].
  unfold writeFile.
  destruct (decide (indexPath ∈ readonly s)); [left; cbn; exact Hi|].
  right. split; [reflexivity|]. eexists raw, index, _.
  split_and!; [reflexivity | exact Hp |].
  cbn [files]. apply lookup_insert_eq.
Qed.

(** X4: [add] gives up, printing "Failed to add file f:", exactly when
    the file cannot be read or its object is neither stored nor
    writable; it has then written nothing.  In every other case it
    ends with "Added f to staging area." and the object of the content
    is in the store. *)
Theorem add_failure_writes_nothing (f : string) (s : state) :
  let s' := snd (add f s) in
  let gave_up := last (console s') = Some (add_failure_line f) in
  (gave_up
   <-> readFile f s = None
       \/ exists T, readFile f s = Some T
                    /\ readFile (obj_path (hashObject T)) s = None
                    /\ obj_path (hashObject T) ∈ readonly s)
  /\ (gave_up -> files s' = files s /\ writes s' = writes s)
  /\ (~ gave_up ->
      last (console s') = Some ("Added " +:+ f +:+ " to staging area.")
      /\ exists T c, readFile f s = Some T
                     /\ readFile (obj_path (hashObject T)) s' = Some c).
Proof.
  cbn zeta. rewrite add_spec.
  destruct (readFile f s) as [T|] eqn:Hf.
  2:{ rewrite last_print. split_and!.
      - split; [intros _; now left | reflexivity].
      - intros _. split; reflexivity.
      - intros H. exfalso. apply H. reflexivity. }
  cbn zeta. unfold access, readFile.
  destruct (files s !! obj_path (hashObject T)) as [c|] eqn:Ho.
  - rewrite last_print. split_and!.
    + split.
      * intros E. exfalso. apply (added_not_failure f); congruence.
      * intros [H|(T' & HT' & H & _)]; [congruence|].
        exfalso. unfold readFile in *. congruence.
    + intros E. exfalso. apply (added_not_failure f); congruence.
    + intros _. split; [reflexivity|]. exists T, c. split; [reflexivity|].
      cbn [print files].
      rewrite updateStagingArea_frame by apply obj_path_not_index. exact Ho.
  - destruct (decide (obj_path (hashObject T) ∈ readonly s)) as [Hr|Hr].
    + rewrite last_print. split_and!.
      * split; [|reflexivity]. intros _. right. exists T. split_and!; [reflexivity | exact Ho | exact Hr].
      * intros _. split; reflexivity.
      * intros H. exfalso. apply H. reflexivity.
    + rewrite last_print. split_and!.
      * split.
        -- intros E. exfalso. apply (added_not_failure f); congruence.
        -- intros [H|(T' & HT' & _ & H)]; [congruence|].
           exfalso. injection HT' as <-. contradiction.
      * intros E. exfalso. apply (added_not_failure f); congruence.
      * intros _. split; [reflexivity|]. exists T, T. split; [reflexivity|].
        cbn [print files].
        rewrite updateStagingArea_frame by apply obj_path_not_index.
        cbn [files]. apply lookup_insert_eq.
Qed.
Lemma updateStagingArea_fails (p h : string) (s : state) :
  readFile indexPath s = None
  \/ indexPath ∈ readonly s
  \/ (exists raw v, readFile indexPath s = Some raw /\ parse raw = Some v
                    /\ forall index, v <> Arr index) ->
  updateStagingArea p h s = print "Failed to update staging area:" s.
Proof.
  intros H. unfold updateStagingArea.
  destruct (readFile indexPath s) as [raw|] eqn:Hi; [|reflexivity].
  destruct (parse raw) as [[| | |index|]|] eqn:Hp; try reflexivity.
  destruct (find_path (Some (Str p)) index 0) as [e|]; [|reflexivity].
  destruct H as [H|[H|(raw' & v & Hr & Hv & Hn)]].
  - discriminate.
  - rewrite writeFile_refused by exact H. reflexivity.
  - exfalso. injection Hr as <-. rewrite Hp in Hv. injection Hv as <-.
    exact (Hn index eq_refl).
Qed.

(** X5: [add] does not notice a staging failure.  When the index file
    is missing, write-protected, or holds a JSON value that is not a
    list, [add] of a readable file still stores the object, prints
    "Failed to update staging area:" and then
    "Added f to staging area."; the index file is left as it was. *)
Theorem add_reports_success_without_staging (f T : string) (s : state) :
  readFile f s = Some T ->
  let d := hashObject T in
  access (obj_path d) s = true \/ obj_path d ∉ readonly s ->
  readFile indexPath s = None
  \/ indexPath ∈ readonly s
  \/ (exists raw v, readFile indexPath s = Some raw /\ parse raw = Some v
                    /\ forall index, v <> Arr index) ->
  let s' := snd (add f s) in
  readFile indexPath s' = readFile indexPath s
  /\ (exists c, readFile (obj_path d) s' = Some c)
  /\ console s'
     = console s
       ++ hash_line d
          :: (if access (obj_path d) s then ["File content already stored."] else [])
       ++ ["Failed to update staging area:"; "Added " +:+ f +:+ " to staging area."].
Proof.
  intros Hf d Ho Hi s'. subst s'. rewrite add_spec, Hf. cbn zeta. fold d.
  unfold access in *. unfold readFile.
  destruct (files s !! obj_path d) as [c|] eqn:Hc.
  - rewrite updateStagingArea_fails by exact Hi.
    cbn [print files console]. split_and!.
    + reflexivity.
    + exists c. exact Hc.
    + rewrite <- !app_assoc. reflexivity.
  - destruct Ho as [Ho|Ho]; [discriminate|].
    destruct (decide (obj_path d ∈ readonly s)); [contradiction|].
    rewrite updateStagingArea_fails.
    + cbn [print files console]. split_and!.
      * apply lookup_insert_ne, obj_path_not_index.
      * exists T. apply lookup_insert_eq.
      * rewrite <- !app_assoc. reflexivity.
    + unfold readFile. cbn [files readonly].
      rewrite lookup_insert_ne by apply obj_path_not_index. exact Hi.
Qed.

Lemma add_reports_success_without_staging_witness :
  let s := State {[ "a.txt" := "hello" ]} ∅ [] [] in
  readFile indexPath (snd (add "a.txt" s)) = None
  /\ console (snd (add "a.txt" s))
     = [ hash_line (hashObject "hello"); "Failed to update staging area:";
         "Added a.txt to staging area." ].
Proof.
  intros s.
  destruct (add_reports_success_without_staging "a.txt" "hello" s eq_refl) as (H1 & _ & H3).
  - right. intros H. exact (not_elem_of_empty _ H).
  - left. reflexivity.
  - split; [exact H1 | exact H3].
Defined.

(** X6: [add] overwrites no file but the index and creates no file but
    the object of what it read: every other file that exists keeps its
    content (HEAD, the files of the working tree, the objects already
    stored, whatever they hold), and a path that appears is the object
    path of the digest of the content of the file, holding that
    content. *)
Theorem add_overwrites_only_the_index (f : string) (s : state) :
  let s' := snd (add f s) in
  (forall q c, q <> indexPath -> readFile q s = Some c -> readFile q s' = Some c)
  /\ (forall q c, readFile q s = None -> readFile q s' = Some c ->
        readFile f s = Some c /\ q = obj_path (hashObject c))
  /\ readonly s' = readonly s.
Proof.
  cbn zeta. split_and!; [| |apply add_readonly].
  - intros q c Hq Hc. rewrite add_spec. unfold readFile in *.
    destruct (files s !! f) as [T|]; [|exact Hc]. cbn zeta. unfold access.
    destruct (files s !! obj_path (hashObject T)) as [c'|] eqn:Ho.
    + cbn [print files]. rewrite updateStagingArea_frame by exact Hq. exact Hc.
    + destruct (decide (obj_path (hashObject T) ∈ readonly s)); [exact Hc|].
      cbn [print files]. rewrite updateStagingArea_frame by exact Hq.
      cbn [files]. rewrite lookup_insert_ne by congruence. exact Hc.
  - intros q c Hq Hc. rewrite add_spec in Hc. unfold readFile in *.
    destruct (files s !! f) as [T|]; [|cbn in Hc; congruence].
    cbn zeta in Hc. unfold access in Hc.
    destruct (files s !! obj_path (hashObject T)) as [c'|] eqn:Ho.
    + cbn [print files] in Hc.
      destruct (updateStagingArea_files f (hashObject T) q
                  (print "File content already stored." (print (hash_line (hashObject T)) s)))
        as [E|(-> & raw & index & index' & Hi & _)].
      * rewrite E in Hc. cbn [print files] in Hc. congruence.
      * cbn [print files] in Hi. congruence.
    + destruct (decide (obj_path (hashObject T) ∈ readonly s));
        [cbn [print files] in Hc; congruence|].
      cbn [print files] in Hc.
      match type of Hc with
      | files (updateStagingArea _ _ ?st) !! _ = _ =>
          destruct (updateStagingArea_files f (hashObject T) q st)
            as [E|(-> & raw & index & index' & Hi & _)]
      end.
      * rewrite E in Hc. cbn [files] in Hc.
        destruct (decide (q = obj_path (hashObject T))) as [->|Hne].
        -- rewrite lookup_insert_eq in Hc. injection Hc as <-. split; reflexivity.
        -- rewrite lookup_insert_ne in Hc by congruence. congruence.
      * cbn [files] in Hi.
        rewrite lookup_insert_ne in Hi by apply obj_path_not_index. congruence.
Qed.

Lemma add_overwrites_only_the_index_witness :
  readFile "b.txt" (snd (add "a.txt" Scenario.s_init)) = Some "new"
  /\ readFile headPath (snd (add "a.txt" Scenario.s_init)) = Some EmptyString.
Proof.
  destruct (add_overwrites_only_the_index "a.txt" Scenario.s_init) as (H & _).
  split; apply H; first [discriminate | reflexivity].
Defined.
Lemma stage_spec_idem (p d : string) (es : list (string * string)) :
  stage_spec p d (stage_spec p d es) = stage_spec p d es.
Proof.
  induction es as [|[p' d'] es IH]; cbn.
  - rewrite String.eqb_refl. reflexivity.
  - destruct (String.eqb_spec p' p) as [->|Hne]; cbn.
    + rewrite String.eqb_refl. reflexivity.
    + destruct (String.eqb_spec p' p); [contradiction|]. now rewrite IH.
Qed.

Lemma add_staged (f T : string) (s : state) (es : list (string * string)) :
  readFile f s = Some T ->
  index_holds s es -> indexPath ∉ readonly s ->
  let d := hashObject T in
  let o := obj_path d in
  access o s = true \/ o ∉ readonly s ->
  snd (add f s)
  = State (<[indexPath := stringify2 (Arr (List.map entry_of (stage_spec f d es)))]>
             (if access o s then files s else <[o := T]> (files s)))
          (readonly s)
          ((writes s ++ (if access o s then [] else [o])) ++ [indexPath])
          ((console s ++ hash_line d
              :: (if access o s then ["File content already stored."] else []))
             ++ ["Added " +:+ f +:+ " to staging area."]).
Proof.
  intros Hf Hi Hw d o Ho.
  rewrite (add_readable f T s Hf Ho). fold d o.
  rewrite (updateStagingArea_holds f d _ es).
  - reflexivity.
  - destruct Hi as (raw & Hr & Hp). exists raw. split; [|exact Hp].
    unfold readFile in *. cbn [files].
    destruct (access o s); [exact Hr|].
    rewrite lookup_insert_ne by apply obj_path_not_index. exact Hr.
  - exact Hw.
Qed.

(** X7: [add] is idempotent on the disk.  In a repository with a
    usable index, adding a file a second time, unchanged, changes no
    file: the object is found in the store and is not written again
    ("File content already stored."), and the index is rewritten with
    the entries it had. *)
Theorem add_twice (f T : string) (s : state) (es : list (string * string)) :
  readFile f s = Some T -> f <> indexPath ->
  index_holds s es -> indexPath ∉ readonly s ->
  let d := hashObject T in
  access (obj_path d) s = true \/ obj_path d ∉ readonly s ->
  let s1 := snd (add f s) in
  let s2 := snd (add f s1) in
  index_holds s1 (stage_spec f d es)
  /\ files s2 = files s1
  /\ writes s2 = writes s1 ++ [indexPath]
  /\ console s2
     = console s1 ++ [ hash_line d; "File content already stored.";
                       "Added " +:+ f +:+ " to staging area." ].
Proof.
  intros Hf Hfi Hi Hw d Ho s1 s2.
  pose proof (add_staged f T s es Hf Hi Hw Ho) as E1. fold d s1 in E1.
  assert (index_holds s1 (stage_spec f d es)) as Hi1.
  { exists (stringify2 (Arr (List.map entry_of (stage_spec f d es)))).
    split.
    - rewrite E1. unfold readFile; cbn [files]. apply lookup_insert_eq.
    - apply parse_stringify2, entries_wf. }
  assert (readFile f s1 = Some T) as Hf1.
  { rewrite E1. unfold readFile in *; cbn [files].
    rewrite lookup_insert_ne by congruence.
    unfold access. destruct (files s !! obj_path d) eqn:Hc; [exact Hf|].
    rewrite lookup_insert_ne; [exact Hf|]. intros E. rewrite <- E in Hf. congruence. }
  assert (access (obj_path d) s1 = true) as Ho1.
  { apply access_true. rewrite E1. cbn [files].
    rewrite lookup_insert_ne by (intros E; exact (obj_path_not_index _ (eq_sym E))).
    unfold access. destruct (files s !! obj_path d) eqn:Hc; [eauto|].
    exists T. apply lookup_insert_eq. }
  assert (indexPath ∉ readonly s1) as Hw1 by (rewrite E1; exact Hw).
  pose proof (add_staged f T s1 _ Hf1 Hi1 Hw1 (or_introl Ho1)) as E2.
  fold d s2 in E2. rewrite Ho1, stage_spec_idem in E2.
  split; [exact Hi1|].
  rewrite E2. cbn [files writes console]. split_and!.
  - apply insert_id. rewrite E1. cbn [files]. apply lookup_insert_eq.
  - rewrite app_nil_r. reflexivity.
  - rewrite <- app_assoc. reflexivity.
Qed.

Lemma add_twice_witness :
  files (snd (add "a.txt" (snd (add "a.txt" Scenario.s_init))))
  = files (snd (add "a.txt" Scenario.s_init)).
Proof.
  refine (proj1 (proj2 (add_twice "a.txt" "hello" Scenario.s_init [] eq_refl _ _ _ _))).
  - discriminate.
  - exists empty_index. split; vm_compute; reflexivity.
  - vm_compute. discriminate.
  - right. vm_compute. discriminate.
Defined.
(** *** [log] and [showCommitDiff] *)

Lemma printed_refl (s : state) : printed s s.
Proof. unfold printed. split_and!; try reflexivity. exists []. now rewrite app_nil_r. Qed.

Lemma printed_print (l : string) (s s' : state) : printed s s' -> printed s (print l s').
Proof.
  intros (Hf & Hr & Hw & lines & Hc). unfold printed, print; cbn.
  split_and!; try assumption. exists (lines ++ [l]). rewrite Hc. now rewrite app_assoc.
Qed.

Lemma printed_trans (s s' s'' : state) : printed s s' -> printed s' s'' -> printed s s''.
Proof.
  intros (Hf & Hr & Hw & l & Hc) (Hf' & Hr' & Hw' & l' & Hc'). unfold printed.
  split_and!; try congruence. exists (l ++ l'). rewrite Hc', Hc. now rewrite app_assoc.
Qed.

Lemma printed_parts (parts : list Diff.part) (s s' : state) :
  printed s s' -> printed s (fold_left (fun st p => print (render p) st) parts s').
Proof.
  revert s'. induction parts as [|x parts IH]; intros s' H; cbn [fold_left]; [exact H|].
  apply IH, printed_print, H.
Qed.

Lemma show_file_printed (data file : value) (s : state) :
  printed s (state_of (show_file data file s)).
Proof.
  unfold show_file, getParentFileContent, getFileContent, getCommitData.
  repeat case_match; simplify_eq; cbn [state_of];
    repeat first [apply printed_print | apply printed_parts | apply printed_refl].
Qed.

Lemma show_files_printed (data : value) (l : list value) (s : state) :
  printed s (state_of (show_files data l s)).
Proof.
  revert s. induction l as [|file l IH]; intros s; cbn [show_files].
  - apply printed_refl.
  - pose proof (show_file_printed data file s) as H.
    destruct (show_file data file s) as [s'|s']; cbn [state_of] in *.
    + exact (printed_trans _ _ _ H (IH s')).
    + exact H.
Qed.

Lemma log_loop_printed (fuel : nat) :
  forall (h : option value) (s s' : state),
    log_loop fuel h s = Some s' -> printed s s'.
Proof.
  induction fuel as [|fuel IH]; intros h s s'; cbn [log_loop].
  - destruct (truthy h); [discriminate|]. intros [= <-]. apply printed_refl.
  - unfold getCommitData.
    repeat case_match; simplify_eq; intros E;
      try (injection E as <-;
           repeat first [apply printed_print | apply printed_refl]).
    apply IH in E. eapply printed_trans; [|exact E].
    repeat first [apply printed_print | apply printed_refl].
Qed.

(** X8: [log] and [showCommitDiff] only read.  Whatever they find in
    the store, and whether [showCommitDiff] returns or throws, no file,
    no protection and no recorded write has changed after the call;
    only lines were printed. *)
Theorem log_and_show_only_print (s : state) :
  (forall fuel s', log fuel s = Some s' -> printed s s')
  /\ (forall commitHash, printed s (state_of (showCommitDiff commitHash s))).
Proof.
  split.
  - intros fuel s'. unfold log.
    destruct (getCurrentHead s) as [h|].
    + apply log_loop_printed.
    + intros [= <-]. apply printed_print, printed_refl.
  - intros commitHash. unfold showCommitDiff, getCommitData.
    destruct (readFile (path_join objectsPath commitHash) s) as [raw|].
    + destruct (missing (Some raw)); cbn [state_of];
        [apply printed_print, printed_refl|].
      destruct (parse (default EmptyString (Some raw))) as [data|];
        [|apply printed_refl].
      destruct (get_prop "files" data) as [[[| |[|]|files|]|]|]; cbn [state_of];
        repeat first [apply printed_print | apply printed_refl].
      eapply printed_trans; [|apply show_files_printed].
      apply printed_print, printed_refl.
    + cbn [missing state_of]. repeat apply printed_print. apply printed_refl.
Qed.

Lemma log_and_show_only_print_witness :
  files (state_of (showCommitDiff "da5387147ca9f7ffdba502c06ead871e78a5a319" Scenario.s_first))
  = files Scenario.s_first
  /\ exists s', log 1 Scenario.s_first = Some s' /\ writes s' = writes Scenario.s_first.
Proof.
  destruct (log_and_show_only_print Scenario.s_first) as [Hlog Hshow].
  split.
  - exact (proj1 (Hshow _)).
  - assert (exists s', log 1 Scenario.s_first = Some s') as [s' E]
      by (vm_compute; eexists; reflexivity).
    exists s'. split; [exact E|]. exact (proj1 (proj2 (proj2 (Hlog 1 s' E)))).
Defined.
(** *** [commit] *)

(** X9: a commit leaves nothing staged.  After a [commit] that went
    through, the index holds the empty list: a second [commit] prints
    "Nothing to commit. Staging area is empty." and changes nothing,
    and the next [add] starts a new list with its file alone. *)
Theorem commit_leaves_nothing_staged (message now raw : string) (e : value)
    (es : list value) (s : state) :
  readFile indexPath s = Some raw -> parse raw = Some (Arr (e :: es)) ->
  let data := commitData now message (Arr (e :: es)) (getCurrentHead s) in
  let id := hashObject (stringify data) in
  obj_path id ∉ readonly s -> headPath ∉ readonly s -> indexPath ∉ readonly s ->
  let s1 := snd (commit message now s) in
  index_holds s1 []
  /\ (forall message' now',
        snd (commit message' now' s1)
        = print "Nothing to commit. Staging area is empty." s1)
  /\ (forall f T,
        readFile f s1 = Some T ->
        access (obj_path (hashObject T)) s1 = true
        \/ obj_path (hashObject T) ∉ readonly s1 ->
        index_holds (snd (add f s1)) [(f, hashObject T)]).
Proof.
  intros Hraw Hparse data id Ho Hh Hi s1.
  assert (length_is_zero (Arr (e :: es)) = LengthOther) as Hlen by reflexivity.
  pose proof (commit_success message now raw _ s Hraw Hparse Hlen Ho Hh Hi) as E.
  cbn zeta in E. fold data id in E.
  assert (readFile indexPath s1 = Some empty_index) as Hi1.
  { subst s1. rewrite E. unfold readFile; cbn [snd files]. apply lookup_insert_eq. }
  assert (index_holds s1 []) as Hholds.
  { exists empty_index. split; [exact Hi1 | exact parse_empty_index]. }
  assert (indexPath ∉ readonly s1) as Hw1 by (subst s1; rewrite E; exact Hi).
  split_and!.
  - exact Hholds.
  - intros message' now'. unfold commit. rewrite Hi1, parse_empty_index. reflexivity.
  - intros f T Hf Hacc.
    rewrite (add_staged f T s1 [] Hf Hholds Hw1 Hacc).
    exists (stringify2 (Arr (List.map entry_of (stage_spec f (hashObject T) [])))).
    split.
    + unfold readFile; cbn [files]. apply lookup_insert_eq.
    + cbn [stage_spec]. apply parse_stringify2, (entries_wf [(f, hashObject T)]).
Qed.

Lemma commit_leaves_nothing_staged_witness :
  snd (commit "again" Scenario.t2 Scenario.s_first)
  = print "Nothing to commit. Staging area is empty." Scenario.s_first.
Proof.
  refine (proj1 (proj2 (commit_leaves_nothing_staged "first" Scenario.t1
            (stringify2 (Arr [entry "a.txt" (hashObject "hello")]))
            (entry "a.txt" (hashObject "hello")) [] Scenario.s_staged _ _ _ _ _)) _ _).
  - vm_compute. reflexivity.
  - vm_compute. reflexivity.
  - vm_compute. discriminate.
  - vm_compute. discriminate.
  - vm_compute. discriminate.
Defined.

(** X10: [commit] reads the index, HEAD and nothing else.  In two
    states that agree on the index file, on HEAD and on the protected
    paths, whatever their working trees and stores hold, [commit]
    writes the same contents to the same paths in the same order and
    prints the same lines: a file edited after it was staged goes into
    the commit as it was staged. *)
Theorem commit_reads_only_the_repository (message now : string) (s s' : state) :
  readFile indexPath s' = readFile indexPath s ->
  readFile headPath s' = readFile headPath s ->
  readonly s' = readonly s ->
  let r := snd (commit message now s) in
  let r' := snd (commit message now s') in
  exists (written : list (string * string)) (lines : list string),
    files r = foldl (fun m pc => <[fst pc := snd pc]> m) (files s) written
    /\ files r' = foldl (fun m pc => <[fst pc := snd pc]> m) (files s') written
    /\ writes r = writes s ++ List.map fst written
    /\ writes r' = writes s' ++ List.map fst written
    /\ console r = console s ++ lines
    /\ console r' = console s' ++ lines.
Proof.
  intros Hi Hh Hr r r'. subst r r'. unfold commit.
  rewrite Hi. rewrite (getCurrentHead_ext s s') by exact Hh.
  destruct (readFile indexPath s) as [raw|];
    [|exists [], ["Failed to create commit:"]; cbn; rewrite !app_nil_r; split_and!; reflexivity].
  destruct (parse raw) as [index|];
    [|exists [], ["Failed to create commit:"]; cbn; rewrite !app_nil_r; split_and!; reflexivity].
  destruct (length_is_zero index);
    [exists [], ["Failed to create commit:"]; cbn; rewrite !app_nil_r; split_and!; reflexivity
    |exists [], ["Nothing to commit. Staging area is empty."]; cbn; rewrite !app_nil_r;
     split_and!; reflexivity|].
  remember (commitData now message index (getCurrentHead s)) as data eqn:Hdata.
  remember (hashObject (stringify data)) as id eqn:Hid.
  remember (stringify2 data) as text eqn:Htext.
  unfold writeFile. rewrite Hr.
  destruct (decide (path_join objectsPath id ∈ readonly s));
    [exists [], ["Failed to create commit:"]; cbn; rewrite !app_nil_r; split_and!; reflexivity|].
  cbn [readonly files writes console]. rewrite ?Hr.
  destruct (decide (headPath ∈ readonly s));
    [exists [(path_join objectsPath id, text)], ["Failed to create commit:"];
     cbn; split_and!; reflexivity|].
  cbn [readonly files writes console]. rewrite ?Hr.
  destruct (decide (indexPath ∈ readonly s)).
  - exists [(path_join objectsPath id, text); (headPath, id)],
           ["Failed to create commit:"].
    cbn. rewrite <- !app_assoc. split_and!; reflexivity.
  - exists [(path_join objectsPath id, text); (headPath, id);
            (indexPath, empty_index)],
           ["Commit successfully created: " +:+ id].
    cbn. rewrite <- !app_assoc. split_and!; reflexivity.
Qed.

Lemma commit_reads_only_the_repository_witness :
  let s := Scenario.s_staged in
  let s' := Scenario.edit "a.txt" "changed" s in
  let r := snd (commit "first" Scenario.t1 s) in
  let r' := snd (commit "first" Scenario.t1 s') in
  exists (written : list (string * string)) (lines : list string),
    files r = foldl (fun m pc => <[fst pc := snd pc]> m) (files s) written
    /\ files r' = foldl (fun m pc => <[fst pc := snd pc]> m) (files s') written
    /\ writes r = writes s ++ List.map fst written
    /\ writes r' = writes s' ++ List.map fst written
    /\ console r = console s ++ lines
    /\ console r' = console s' ++ lines.
Proof.
  apply (commit_reads_only_the_repository "first" Scenario.t1
           Scenario.s_staged (Scenario.edit "a.txt" "changed" Scenario.s_staged));
    vm_compute; reflexivity.
Defined.
(** *** Runs *)

Lemma step_keeps_staging (o : op) (s : state) :
  readonly s = ∅ ->
  (exists es, index_holds s es /\ NoDup (List.map fst es) /\ stored_entries s es) ->
  exists es, index_holds (step o s) es /\ NoDup (List.map fst es)
             /\ stored_entries (step o s) es.
Proof.
  intros Hro (es & Hi & Hnd & Hst).
  destruct o as [f|message now|p c]; cbn [step].
  - destruct (readFile f s) as [T|] eqn:Hf.
    + assert (indexPath ∉ readonly s) as Hw by (apply writable_of_empty, Hro).
      assert (access (obj_path (hashObject T)) s = true
              \/ obj_path (hashObject T) ∉ readonly s) as Ho
        by (right; apply writable_of_empty, Hro).
      rewrite (add_staged f T s es Hf Hi Hw Ho).
      exists (stage_spec f (hashObject T) es). split_and!.
      * exists (stringify2 (Arr (List.map entry_of (stage_spec f (hashObject T) es)))).
        split; [unfold readFile; cbn [files]; apply lookup_insert_eq|].
        apply parse_stringify2, entries_wf.
      * apply stage_spec_NoDup, Hnd.
      * intros p h Hin. unfold readFile. cbn [files].
        rewrite lookup_insert_ne
          by (intros E; exact (obj_path_not_index _ (eq_sym E))).
        destruct (stage_spec_in _ _ _ _ _ Hin) as [Hold|[= -> ->]].
        -- destruct (Hst p h Hold) as [content Hc]. unfold readFile in Hc.
           destruct (access (obj_path (hashObject T)) s); [eauto|].
           destruct (decide (obj_path h = obj_path (hashObject T))) as [->|Hne].
           ++ rewrite lookup_insert_eq. eauto.
           ++ rewrite lookup_insert_ne by congruence. eauto.
        -- destruct (access (obj_path (hashObject T)) s) eqn:Ha.
           ++ apply access_true. exact Ha.
           ++ rewrite lookup_insert_eq. eauto.
    + rewrite (add_unreadable f s Hf). exists es. split_and!; assumption.
  - destruct (commit_outcome message now s Hro)
      as [(line & E & _)|(raw & index & _ & _ & E)].
    + rewrite E. exists es. split_and!; assumption.
    + cbn zeta in E. rewrite E. exists []. split_and!.
      * exists empty_index. split; [|exact parse_empty_index].
        unfold readFile; cbn [snd files]. apply lookup_insert_eq.
      * constructor.
      * intros p h [].
  - destruct (is_repo_path p) eqn:Hp; [exists es; split_and!; assumption|].
    exists es. split_and!; [|exact Hnd|].
    + apply (index_holds_ext s); [|exact Hi]. cbn [files].
      apply lookup_insert_ne. intros ->. discriminate.
    + intros q h Hin. destruct (Hst q h Hin) as [content Hc].
      exists content. unfold readFile in *. cbn [files].
      rewrite lookup_insert_ne; [exact Hc|].
      intros ->. rewrite is_repo_path_obj in Hp. discriminate.
Qed.

(** X11: the staging area stays well formed.  After [init] on a fresh
    working tree and any run of [add], [commit] and user edits of the
    working tree, the index file holds a list of entries of the form
    path and digest, no path occurs twice in it, and the object of
    every entry is in the store. *)
Theorem staging_stays_well_formed (w : state) (ops : list op) :
  fresh w ->
  let s := run ops (init w) in
  exists es,
    index_holds s es /\ NoDup (List.map fst es) /\ stored_entries s es.
Proof.
  intros Hf. cbn zeta.
  assert (readonly (init w) = ∅) as Hro
    by (rewrite (init_fresh w Hf); cbn; apply Hf).
  assert (exists es, index_holds (init w) es /\ NoDup (List.map fst es)
                     /\ stored_entries (init w) es) as Hinv.
  { exists []. split_and!.
    - exists empty_index. split; [|exact parse_empty_index].
      rewrite (init_fresh w Hf). unfold readFile; cbn [files]. apply lookup_insert_eq.
    - constructor.
    - intros p h []. }
  revert Hro Hinv. generalize (init w) as s.
  induction ops as [|o ops IH]; intros s Hro Hinv; cbn [run]; [exact Hinv|].
  apply IH; [apply step_readonly, Hro | apply step_keeps_staging; assumption].
Qed.

Lemma staging_stays_well_formed_witness :
  exists es,
    index_holds (run [Add "a.txt"; Edit "a.txt" "hello world"; Add "a.txt"; Add "b.txt"]
                   (init Scenario.worktree)) es
    /\ NoDup (List.map fst es)
    /\ stored_entries (run [Add "a.txt"; Edit "a.txt" "hello world"; Add "a.txt"; Add "b.txt"]
                         (init Scenario.worktree)) es.
Proof.
  apply (staging_stays_well_formed Scenario.worktree
           [Add "a.txt"; Edit "a.txt" "hello world"; Add "a.txt"; Add "b.txt"]).
  unfold fresh. split_and!; reflexivity.
Defined.
(** *** The walk of [log] *)

Lemma getCurrentHead_truthy (s : state) (h : string) :
  getCurrentHead s = Some h -> is_empty h = false.
Proof.
  unfold getCurrentHead. destruct (readFile headPath s) as [head|]; [|discriminate].
  destruct (is_empty (Trim.trim head)) eqn:E; [discriminate|]. intros [= <-]. exact E.
Qed.

(** X12: [log] stops at a commit it cannot read.  When HEAD names an
    id that has no object in the store, [log] prints
    "Failed to read the commit data for id:" and
    "Commit data for id not found.", and ends; when the object is there
    and empty it prints the second line alone.  In both cases one turn
    of the loop is enough and no file is changed. *)
Theorem log_stops_at_a_missing_commit (s : state) (h : string) :
  getCurrentHead s = Some h ->
  (readFile (obj_path h) s = None ->
   forall fuel,
     log (S fuel) s
     = Some (State (files s) (readonly s) (writes s)
               (console s ++ [ "Failed to read the commit data for " +:+ h +:+ ":";
                               "Commit data for " +:+ h +:+ " not found." ])))
  /\ (readFile (obj_path h) s = Some EmptyString ->
      forall fuel,
        log (S fuel) s
        = Some (State (files s) (readonly s) (writes s)
                  (console s ++ [ "Commit data for " +:+ h +:+ " not found." ]))).
Proof.
  intros Hh. pose proof (getCurrentHead_truthy s h Hh) as Hne.
  split; intros Ho fuel; unfold log; rewrite Hh; cbn [log_loop truthy];
    rewrite Hne; cbn [negb]; unfold getCommitData; fold (obj_path h); rewrite Ho;
    cbn [missing is_empty]; unfold print; cbn [files readonly writes console].
  - rewrite <- app_assoc. reflexivity.
  - reflexivity.
Qed.

Lemma log_stops_at_a_missing_commit_witness :
  let s := Scenario.edit headPath "0a" Scenario.s_init in
  log 1 s
  = Some (State (files s) (readonly s) (writes s)
            (console s ++ [ "Failed to read the commit data for 0a:";
                            "Commit data for 0a not found." ])).
Proof.
  intros s.
  exact (proj1 (log_stops_at_a_missing_commit s "0a" eq_refl) eq_refl 0).
Defined.


(** *** [getParentFileContent] and [showCommitDiff] *)

Lemma digest_at_in (p h : string) (es : list (string * string)) :
  digest_at p es = Some h -> In (p, h) es.
Proof.
  induction es as [|[p' h0] es IH]; [discriminate|].
  cbn. destruct (String.eqb_spec p' p) as [->|Hne].
  - intros [= ->]. now left.
  - right. auto.
Qed.

Lemma getParentFileContent_entries (now message p : string) (parent : option string)
    (es : list (string * string)) (s : state) :
  getParentFileContent (commitData now message (Arr (List.map entry_of es)) parent)
    (Some (Str p)) s
  = Some match digest_at p es with
         | None => (None, s)
         | Some h => (Some (fst (getFileContent h s)), snd (getFileContent h s))
         end.
Proof.
  unfold getParentFileContent.
  change (get_prop "files" (commitData now message (Arr (List.map entry_of es)) parent))
    with (Some (Some (Arr (List.map entry_of es)))).
  cbn iota beta.
  pose proof (find_path_digest p es 0) as Hfind.
  destruct (digest_at p es) as [h|].
  - destruct Hfind as (j & -> & Hj). cbn [Nat.add]. rewrite Hj.
    cbn [truthy entry].
    change (lookup_field "hash" [("path", Str p); ("hash", Str h)]) with (Some (Str h)).
    cbn iota beta. destruct (getFileContent h s). reflexivity.
  - rewrite Hfind. reflexivity.
Qed.

(** X14: [getParentFileContent] is a lookup by path in the entries of
    a commit record.  It returns [undefined] exactly when no entry has
    the path; otherwise it returns what [getFileContent] gives for the
    digest of the first entry with that path: the content of its
    object, or [null] after a printed failure when the object is not
    in the store. *)
Theorem getParentFileContent_lookup (now message p : string) (parent : option string)
    (es : list (string * string)) (s : state) :
  let data := commitData now message (Arr (List.map entry_of es)) parent in
  getParentFileContent data (Some (Str p)) s
  = Some match digest_at p es with
         | None => (None, s)
         | Some h => (Some (fst (getFileContent h s)), snd (getFileContent h s))
         end
  /\ (digest_at p es = None <-> ~ In p (List.map fst es))
  /\ (forall h, digest_at p es = Some h ->
        In (p, h) es
        /\ (forall content, readFile (obj_path h) s = Some content ->
              getParentFileContent data (Some (Str p)) s = Some (Some (Some content), s))
        /\ (readFile (obj_path h) s = None ->
              getParentFileContent data (Some (Str p)) s
              = Some (Some None,
                      print ("Failed to read file content for hash " +:+ h +:+ ":") s))).
Proof.
  cbn zeta. split_and!.
  - apply getParentFileContent_entries.
  - apply digest_at_none.
  - intros h Hd. split_and!.
    + apply digest_at_in, Hd.
    + intros content Hc. rewrite getParentFileContent_entries, Hd.
      unfold getFileContent. fold (obj_path h). rewrite Hc. reflexivity.
    + intros Hc. rewrite getParentFileContent_entries, Hd.
      unfold getFileContent. fold (obj_path h). rewrite Hc. reflexivity.
Qed.

(** X15: what [showCommitDiff] does about objects that are missing.
    For an id with no object it prints the read failure and
    "Commit not found", and returns.  For a file of a stored record
    whose parent commit is not in the store, it prints the path, the
    content, the read failure of the parent and
    "Parent commit data not found", and goes on with the next file.
    For a file of a first commit whose own object is missing it prints
    the read failure, [null] as the content, and "First commit". *)
Theorem show_with_missing_objects (s : state) :
  (forall id, readFile (obj_path id) s = None ->
     showCommitDiff id s
     = Returned (State (files s) (readonly s) (writes s)
                   (console s ++ [ "Failed to read the commit data for " +:+ id +:+ ":";
                                   "Commit not found" ])))
  /\ (forall now message es ph p h content,
        is_empty ph = false -> readFile (obj_path ph) s = None ->
        readFile (obj_path h) s = Some content ->
        show_file (commitData now message (Arr (List.map entry_of es)) (Some ph))
          (entry_of (p, h)) s
        = Returned (State (files s) (readonly s) (writes s)
                      (console s ++ [ nl +:+ "File: " +:+ p; content;
                                      "Failed to read the commit data for " +:+ ph +:+ ":";
                                      "Parent commit data not found" ])))
  /\ (forall now message es p h,
        readFile (obj_path h) s = None ->
        show_file (commitData now message (Arr (List.map entry_of es)) None)
          (entry_of (p, h)) s
        = Returned (State (files s) (readonly s) (writes s)
                      (console s ++ [ nl +:+ "File: " +:+ p;
                                      "Failed to read file content for hash " +:+ h +:+ ":";
                                      "null"; "First commit" ]))).
Proof.
  split_and!.
  - intros id Hid. unfold showCommitDiff, getCommitData. fold (obj_path id).
    rewrite Hid. cbn [missing]. unfold print. cbn [files readonly writes console].
    rewrite <- app_assoc. reflexivity.
  - intros now message es ph p h content Hph Hpo Hc.
    unfold show_file, entry_of, entry. cbn [fst snd].
    cbn -[parse stringify2 Diff.diffLines getParentFileContent getCommitData
          getFileContent print nl String.append].
    unfold getFileContent at 1. fold (obj_path h). rewrite !readFile_print, Hc.
    cbn [default from_option Datatypes.id to_string text_of truthy]. rewrite Hph.
    cbn [negb]. unfold getCommitData. fold (obj_path ph). rewrite !readFile_print, Hpo.
    cbn [missing]. unfold print. cbn [files readonly writes console].
    rewrite <- !app_assoc. reflexivity.
  - intros now message es p h Hc.
    unfold show_file, entry_of, entry. cbn [fst snd].
    cbn -[parse stringify2 Diff.diffLines getParentFileContent getCommitData
          getFileContent print nl String.append].
    unfold getFileContent at 1. fold (obj_path h). rewrite !readFile_print, Hc.
    cbn [default from_option Datatypes.id to_string text_of truthy].
    unfold print. cbn [files readonly writes console].
    rewrite <- !app_assoc. reflexivity.
Qed.

Lemma show_with_missing_objects_witness :
  showCommitDiff "0a" Scenario.s_init
  = Returned (State (files Scenario.s_init) (readonly Scenario.s_init)
                (writes Scenario.s_init)
                (console Scenario.s_init
                   ++ [ "Failed to read the commit data for 0a:"; "Commit not found" ])).
Proof.
  exact (proj1 (show_with_missing_objects Scenario.s_init) "0a" eq_refl).
Defined.
Lemma stored_commit_ext (s s' : state) (data : value) (es : list (string * string))
    (parent : option (string * list (string * string))) :
  files s' = files s -> stored_commit s data es parent -> stored_commit s' data es parent.
Proof.
  intros Hf (Hdata & Hes & Hparent). unfold stored_commit, stored_entries, readFile in *.
  rewrite Hf. split_and!; [exact Hdata | exact Hes |].
  destruct parent as [[ph pes]|]; [|exact I]. exact Hparent.
Qed.

Lemma show_file_stored (s : state) (data : value) (es : list (string * string))
    (parent : option (string * list (string * string))) (p h : string) :
  stored_commit s data es parent -> In (p, h) es ->
  exists content tail,
    readFile (obj_path h) s = Some content
    /\ show_file data (entry_of (p, h)) s
       = Returned (State (files s) (readonly s) (writes s)
                     (console s ++ [nl +:+ "File: " +:+ p; content] ++ tail)).
Proof.
  intros ((now & message & Hdata) & Hes & Hparent) Hin.
  destruct (Hes p h Hin) as [content Hcontent].
  exists content.
  unfold show_file, entry_of, entry. cbn [fst snd].
  cbn -[parse stringify2 Diff.diffLines getParentFileContent getCommitData
        getFileContent print nl String.append].
  unfold getFileContent at 1. fold (obj_path h). rewrite !readFile_print.
  rewrite Hcontent. cbn [default from_option Datatypes.id to_string text_of].
  assert (Hp : get_prop "parent" data = Some (Some (from_option Str Null (fst <$> parent))))
    by (subst data; cbn; now destruct parent).
  rewrite Hp. destruct parent as [[ph pes]|]; cbn [fmap option_fmap option_map fst from_option].
  - destruct Hparent as (Hph & Hpes & pnow & pmessage & pparent & Hpobj).
    cbn [truthy]. rewrite Hph. cbn [negb].
    unfold getCommitData. fold (obj_path ph).
    rewrite !readFile_print. rewrite Hpobj.
    replace (missing (Some (stringify2 (commitData pnow pmessage (Arr (List.map entry_of pes)) pparent))))
      with false by reflexivity.
    cbn [default from_option Datatypes.id].
    rewrite (parse_commitData _ _ _ _ (entries_wf pes)).
    rewrite getParentFileContent_entries.
    destruct (digest_at p pes) as [h'|] eqn:Hd.
    + destruct (Hpes p h' (digest_at_in _ _ _ Hd)) as [pc Hpc].
      unfold getFileContent. fold (obj_path h'). rewrite !readFile_print, Hpc.
      cbn [fst snd].
      exists (List.map render (Diff.diffLines pc content) ++ [EmptyString]).
      split; [reflexivity|].
      rewrite print_parts. unfold print. cbn [files readonly writes console].
      rewrite <- !app_assoc. reflexivity.
    + exists ["New file in this commit"]. split; [reflexivity|].
      unfold print. cbn [files readonly writes console]. rewrite <- !app_assoc. reflexivity.
  - exists ["First commit"]. split; [reflexivity|].
    cbn [truthy]. unfold print. cbn [files readonly writes console].
    rewrite <- !app_assoc. reflexivity.
Qed.

Lemma show_files_stored (data : value) (es : list (string * string))
    (parent : option (string * list (string * string))) (l : list (string * string)) :
  forall s : state,
    stored_commit s data es parent -> (forall e, In e l -> In e es) ->
    exists blocks,
      show_files data (List.map entry_of l) s
      = Returned (State (files s) (readonly s) (writes s) (console s ++ concat blocks))
      /\ Forall2 (fun e block =>
                    exists content tail,
                      readFile (obj_path (snd e)) s = Some content
                      /\ block = [nl +:+ "File: " +:+ fst e; content] ++ tail)
                 l blocks.
Proof.
  induction l as [|[p h] l IH]; intros s Hst Hin; cbn [List.map show_files].
  - exists []. split; [|constructor]. cbn [concat]. rewrite app_nil_r. now destruct s.
  - destruct (show_file_stored s data es parent p h Hst (Hin _ (or_introl eq_refl)))
      as (content & tail & Hc & E).
    rewrite E.
    match goal with |- context [show_files _ _ ?st] => set (s1 := st) end.
    destruct (IH s1) as (blocks & E' & Hb).
    { apply (stored_commit_ext s); [reflexivity | exact Hst]. }
    { intros e He. apply Hin. now right. }
    exists (([nl +:+ "File: " +:+ p; content] ++ tail) :: blocks). split.
    + rewrite E'. subst s1. cbn [files readonly writes console concat].
      rewrite <- !app_assoc. reflexivity.
    + constructor; [exists content, tail; split; [exact Hc | reflexivity] | exact Hb].
Qed.

Lemma chain_record (s : state) (recs : list (string * value))
    (ess : list (list (string * string))) (h : option string) (id : string) :
  is_chain s h recs -> history s recs ess -> In id (List.map fst recs) ->
  exists data es parent,
    readFile (obj_path id) s = Some (stringify2 data)
    /\ stored_commit s data es parent.
Proof.
  revert ess h. induction recs as [|[id' data] rest IH]; intros ess h Hc Hh Hin; [destruct Hin|].
  destruct ess as [|es ess]; [destruct Hh|].
  cbn [is_chain history] in Hc, Hh.
  destruct Hc as (_ & Hobj & _ & _ & _ & Hrest). destruct Hh as [Hst Hh].
  destruct Hin as [<-|Hin].
  - exists data, es, (parent_info rest ess). split; assumption.
  - exact (IH ess _ Hrest Hh Hin).
Qed.



(** *** From [add] to the commit record *)

Lemma digest_at_stage_spec (p d : string) (es : list (string * string)) :
  digest_at p (stage_spec p d es) = Some d.
Proof.
  induction es as [|[p' d'] es IH]; cbn.
  - now rewrite String.eqb_refl.
  - destruct (String.eqb_spec p' p) as [->|Hne]; cbn.
    + now rewrite String.eqb_refl.
    + destruct (String.eqb_spec p' p); [contradiction | exact IH].
Qed.

Lemma stage_spec_cons (p d : string) (es : list (string * string)) :
  exists e es', stage_spec p d es = e :: es'.
Proof.
  destruct es as [|[p' d'] es]; cbn; [eauto|].
  destruct (String.eqb p' p); eauto.
Qed.

(** X17: what was added is what the commit gives back.  In a
    repository with a usable index and no protected path, [add] of a
    file with content [T] (its object path free or already holding
    [T]) followed by [commit] leaves HEAD on the id of a record that
    parses back from its object, and the lookup of the file in that
    record returns [T] - provided the id of the commit is not the
    digest of [T], whose object the commit would overwrite. *)
Theorem committed_content_is_read_back (f T message now : string) (s : state)
    (es : list (string * string)) :
  readFile f s = Some T -> f <> indexPath ->
  index_holds s es -> readonly s = ∅ ->
  let d := hashObject T in
  readFile (obj_path d) s = None \/ readFile (obj_path d) s = Some T ->
  let s1 := snd (add f s) in
  let data := commitData now message (Arr (List.map entry_of (stage_spec f d es)))
                (getCurrentHead s1) in
  let id := hashObject (stringify data) in
  id <> d ->
  let s2 := snd (commit message now s1) in
  getCurrentHead s2 = Some id
  /\ fst (getCommitData id s2) = Some (stringify2 data)
  /\ parse (stringify2 data) = Some data
  /\ getParentFileContent data (Some (Str f)) s2 = Some (Some (Some T), s2).
Proof.
  intros Hf Hfi Hi Hro d Hd s1 data id Hid s2.
  assert (forall p, p ∉ readonly s) as Hw by (intros p; apply writable_of_empty, Hro).
  pose proof (add_staged f T s es Hf Hi (Hw _) (or_intror (Hw _))) as E1.
  fold d s1 in E1.
  assert (files s1 !! obj_path d = Some T) as Hobj1.
  { rewrite E1. cbn [files].
    rewrite lookup_insert_ne by (intros E; exact (obj_path_not_index _ (eq_sym E))).
    unfold access, readFile in *.
    destruct Hd as [Hd|Hd]; rewrite Hd; [apply lookup_insert_eq | exact Hd]. }
  destruct (stage_spec_cons f d es) as (e & es' & Hes).
  assert (readFile indexPath s1
          = Some (stringify2 (Arr (List.map entry_of (stage_spec f d es))))) as Hi1
    by (rewrite E1; unfold readFile; cbn [files]; apply lookup_insert_eq).
  assert (parse (stringify2 (Arr (List.map entry_of (stage_spec f d es))))
          = Some (Arr (List.map entry_of (stage_spec f d es)))) as Hp1
    by apply parse_stringify2, entries_wf.
  assert (length_is_zero (Arr (List.map entry_of (stage_spec f d es))) = LengthOther) as Hlen
    by (rewrite Hes; reflexivity).
  assert (readonly s1 = ∅) as Hro1 by (rewrite E1; exact Hro).
  assert (forall p, p ∉ readonly s1) as Hw1 by (intros p; apply writable_of_empty, Hro1).
  pose proof (commit_success message now _ _ s1 Hi1 Hp1 Hlen (Hw1 _) (Hw1 _) (Hw1 _)) as E2.
  cbn zeta in E2. fold data id in E2.
  assert (parse (stringify2 data) = Some data) as Hpd
    by apply parse_commitData, entries_wf.
  assert (files s2 !! obj_path d = Some T) as Hobj2.
  { subst s2. rewrite E2. cbn [snd files].
    rewrite lookup_insert_ne by (intros E; exact (obj_path_not_index _ (eq_sym E))).
    rewrite lookup_insert_ne by (intros E; exact (obj_path_not_head _ (eq_sym E))).
    rewrite lookup_insert_ne by (intros E; apply Hid, obj_path_inj, E).
    exact Hobj1. }
  split_and!.
  - subst s2. rewrite E2. unfold getCurrentHead, readFile. cbn [snd files].
    rewrite lookup_insert_ne by (intros E; exact (head_not_index (eq_sym E))).
    rewrite lookup_insert_eq. unfold id.
    rewrite trim_hashObject, hashObject_nonempty. reflexivity.
  - unfold getCommitData. fold (obj_path id).
    assert (readFile (obj_path id) s2 = Some (stringify2 data)) as ->; [|reflexivity].
    subst s2. rewrite E2. unfold readFile. cbn [snd files].
    rewrite lookup_insert_ne by (intros E; exact (obj_path_not_index _ (eq_sym E))).
    rewrite lookup_insert_ne by (intros E; exact (obj_path_not_head _ (eq_sym E))).
    apply lookup_insert_eq.
  - exact Hpd.
  - unfold data at 1. rewrite getParentFileContent_entries, digest_at_stage_spec.
    unfold getFileContent. fold (obj_path d). unfold readFile. rewrite Hobj2. reflexivity.
Qed.


Lemma committed_content_is_read_back_witness :
  let s1 := snd (add "a.txt" Scenario.s_init) in
  let data := commitData Scenario.t1 "first"
                (Arr (List.map entry_of (stage_spec "a.txt" (hashObject "hello") [])))
                (getCurrentHead s1) in
  let s2 := snd (commit "first" Scenario.t1 s1) in
  getParentFileContent data (Some (Str "a.txt")) s2 = Some (Some (Some "hello"), s2).
Proof.
  assert (readFile "a.txt" Scenario.s_init = Some "hello") as H1
    by (vm_compute; reflexivity).
  assert ("a.txt" <> indexPath) as H2 by discriminate.
  assert (index_holds Scenario.s_init []) as H3
    by (exists empty_index; split; vm_compute; reflexivity).
  assert (readonly Scenario.s_init = ∅) as H4 by (vm_compute; reflexivity).
  assert (readFile (obj_path (hashObject "hello")) Scenario.s_init = None
          \/ readFile (obj_path (hashObject "hello")) Scenario.s_init = Some "hello") as H5
    by (left; vm_compute; reflexivity).
  assert (hashObject (stringify
            (commitData Scenario.t1 "first"
               (Arr (List.map entry_of (stage_spec "a.txt" (hashObject "hello") [])))
               (getCurrentHead (snd (add "a.txt" Scenario.s_init)))))
          <> hashObject "hello") as H6
    by (vm_compute; discriminate).
  exact (proj2 (proj2 (proj2
           (committed_content_is_read_back "a.txt" "hello" "first" Scenario.t1
              Scenario.s_init [] H1 H2 H3 H4 H5 H6)))).
Defined.

End ZitFacts.
